(** * License log pipeline: log_archiver.py and redis_consumer.py

    A shallow embedding of the two scripts of the repository and the
    properties of their specification.

    Conventions of the embedding.
    - A character is its code point, a number below 0x110000, and a Python
      [str] is the list of its characters.  The classes [\d], [\w] and
      [\s] of [re] and the whitespace of [str.strip] are the tables of the
      Unicode database 14.0.0 that CPython 3.11 carries.  The patterns of
      the program hold ASCII characters only, and the matching under
      [re.IGNORECASE] is given for such patterns: a letter matches its two
      cases, and [i], [k] and [s] also match the characters U+0130 and
      U+0131, U+212A and U+017F.
    - The keys of the dicts of the program and the names of the files
      are strings of the standard library; nothing but their equality,
      their order and their suffix is used.
    - A Python dict is an association list in insertion order.
    - The SQLite table [logs] is the list of its rows in insertion order.
    - Exceptions are the [Raise] results of a small result monad.
    - Of the environment, a file that cannot be opened or read, a queue
      service that is absent or whose pushes fail, and the tracker file
      are modelled.  [main] is the run on a tracker file that is missing,
      unreadable or a list of names, which is what the program writes;
      [main_any] is the run on a tracker file of any content, where a
      value that is not a list can end the run with an exception.
      Logging is left out, and the store and the writing of the tracker
      do not fail. *)

From Stdlib Require Import List Ascii String Bool Arith Lia ZArith NArith.
From Stdlib Require Import Sorted Permutation.
Import ListNotations.

Local Open Scope string_scope.
Local Open Scope list_scope.

#[local] Set Warnings "-register-all".

(* ================================================================== *)
(** * Characters and strings *)

(** A character is its code point, a [str] the list of its characters. *)
Abbreviation char := N (only parsing).
Abbreviation str := (list N) (only parsing).

(** The characters of a literal of the program. *)
Definition char_of (a : ascii) : N := N_of_ascii a.

Definition codepoints (s : string) : list N :=
  map char_of (list_ascii_of_string s).

Coercion char_of : ascii >-> N.
Coercion codepoints : string >-> list.

Fixpoint str_eqb (a b : str) : bool :=
  match a, b with
  | [], [] => true
  | x :: a', y :: b' => N.eqb x y && str_eqb a' b'
  | _, _ => false
  end.

Definition str_dec : forall a b : str, {a = b} + {a <> b} :=
  list_eq_dec N.eq_dec.

Module Chars.

Definition in_range (lo hi c : N) : bool := ((lo <=? c) && (c <=? hi))%N.

(** A set of characters as a list of ranges, both ends included. *)
Definition in_table (t : list (N * N)) (c : N) : bool :=
  existsb (fun r => in_range (fst r) (snd r) c) t.

Definition newline : char := 10%N.
Definition dquote : char := 34%N.
Definition backslash : char := 92%N.

(** [\d]: the decimal digits. *)
Definition DECIMAL_DIGITS : list (N * N) :=
  [(48, 57); (1632, 1641); (1776, 1785); (1984, 1993); (2406, 2415);
   (2534, 2543); (2662, 2671); (2790, 2799); (2918, 2927); (3046, 3055);
   (3174, 3183); (3302, 3311); (3430, 3439); (3558, 3567); (3664, 3673);
   (3792, 3801); (3872, 3881); (4160, 4169); (4240, 4249); (6112, 6121);
   (6160, 6169); (6470, 6479); (6608, 6617); (6784, 6793); (6800, 6809);
   (6992, 7001); (7088, 7097); (7232, 7241); (7248, 7257); (42528, 42537);
   (43216, 43225); (43264, 43273); (43472, 43481); (43504, 43513);
   (43600, 43609); (44016, 44025); (65296, 65305); (66720, 66729);
   (68912, 68921); (69734, 69743); (69872, 69881); (69942, 69951);
   (70096, 70105); (70384, 70393); (70736, 70745); (70864, 70873);
   (71248, 71257); (71360, 71369); (71472, 71481); (71904, 71913);
   (72016, 72025); (72784, 72793); (73040, 73049); (73120, 73129);
   (92768, 92777); (92864, 92873); (93008, 93017); (120782, 120831);
   (123200, 123209); (123632, 123641); (125264, 125273);
   (130032, 130041)]%N.

(** [\w]: the alphanumeric characters (in the sense of [str.isalnum]) and
    the underscore. *)
Definition WORD_CHARACTERS : list (N * N) :=
  [(48, 57); (65, 90); (95, 95); (97, 122); (170, 170); (178, 179);
   (181, 181); (185, 186); (188, 190); (192, 214); (216, 246); (248, 705);
   (710, 721); (736, 740); (748, 748); (750, 750); (880, 884); (886, 887);
   (890, 893); (895, 895); (902, 902); (904, 906); (908, 908); (910, 929);
   (931, 1013); (1015, 1153); (1162, 1327); (1329, 1366); (1369, 1369);
   (1376, 1416); (1488, 1514); (1519, 1522); (1568, 1610); (1632, 1641);
   (1646, 1647); (1649, 1747); (1749, 1749); (1765, 1766); (1774, 1788);
   (1791, 1791); (1808, 1808); (1810, 1839); (1869, 1957); (1969, 1969);
   (1984, 2026); (2036, 2037); (2042, 2042); (2048, 2069); (2074, 2074);
   (2084, 2084); (2088, 2088); (2112, 2136); (2144, 2154); (2160, 2183);
   (2185, 2190); (2208, 2249); (2308, 2361); (2365, 2365); (2384, 2384);
   (2392, 2401); (2406, 2415); (2417, 2432); (2437, 2444); (2447, 2448);
   (2451, 2472); (2474, 2480); (2482, 2482); (2486, 2489); (2493, 2493);
   (2510, 2510); (2524, 2525); (2527, 2529); (2534, 2545); (2548, 2553);
   (2556, 2556); (2565, 2570); (2575, 2576); (2579, 2600); (2602, 2608);
   (2610, 2611); (2613, 2614); (2616, 2617); (2649, 2652); (2654, 2654);
   (2662, 2671); (2674, 2676); (2693, 2701); (2703, 2705); (2707, 2728);
   (2730, 2736); (2738, 2739); (2741, 2745); (2749, 2749); (2768, 2768);
   (2784, 2785); (2790, 2799); (2809, 2809); (2821, 2828); (2831, 2832);
   (2835, 2856); (2858, 2864); (2866, 2867); (2869, 2873); (2877, 2877);
   (2908, 2909); (2911, 2913); (2918, 2927); (2929, 2935); (2947, 2947);
   (2949, 2954); (2958, 2960); (2962, 2965); (2969, 2970); (2972, 2972);
   (2974, 2975); (2979, 2980); (2984, 2986); (2990, 3001); (3024, 3024);
   (3046, 3058); (3077, 3084); (3086, 3088); (3090, 3112); (3114, 3129);
   (3133, 3133); (3160, 3162); (3165, 3165); (3168, 3169); (3174, 3183);
   (3192, 3198); (3200, 3200); (3205, 3212); (3214, 3216); (3218, 3240);
   (3242, 3251); (3253, 3257); (3261, 3261); (3293, 3294); (3296, 3297);
   (3302, 3311); (3313, 3314); (3332, 3340); (3342, 3344); (3346, 3386);
   (3389, 3389); (3406, 3406); (3412, 3414); (3416, 3425); (3430, 3448);
   (3450, 3455); (3461, 3478); (3482, 3505); (3507, 3515); (3517, 3517);
   (3520, 3526); (3558, 3567); (3585, 3632); (3634, 3635); (3648, 3654);
   (3664, 3673); (3713, 3714); (3716, 3716); (3718, 3722); (3724, 3747);
   (3749, 3749); (3751, 3760); (3762, 3763); (3773, 3773); (3776, 3780);
   (3782, 3782); (3792, 3801); (3804, 3807); (3840, 3840); (3872, 3891);
   (3904, 3911); (3913, 3948); (3976, 3980); (4096, 4138); (4159, 4169);
   (4176, 4181); (4186, 4189); (4193, 4193); (4197, 4198); (4206, 4208);
   (4213, 4225); (4238, 4238); (4240, 4249); (4256, 4293); (4295, 4295);
   (4301, 4301); (4304, 4346); (4348, 4680); (4682, 4685); (4688, 4694);
   (4696, 4696); (4698, 4701); (4704, 4744); (4746, 4749); (4752, 4784);
   (4786, 4789); (4792, 4798); (4800, 4800); (4802, 4805); (4808, 4822);
   (4824, 4880); (4882, 4885); (4888, 4954); (4969, 4988); (4992, 5007);
   (5024, 5109); (5112, 5117); (5121, 5740); (5743, 5759); (5761, 5786);
   (5792, 5866); (5870, 5880); (5888, 5905); (5919, 5937); (5952, 5969);
   (5984, 5996); (5998, 6000); (6016, 6067); (6103, 6103); (6108, 6108);
   (6112, 6121); (6128, 6137); (6160, 6169); (6176, 6264); (6272, 6276);
   (6279, 6312); (6314, 6314); (6320, 6389); (6400, 6430); (6470, 6509);
   (6512, 6516); (6528, 6571); (6576, 6601); (6608, 6618); (6656, 6678);
   (6688, 6740); (6784, 6793); (6800, 6809); (6823, 6823); (6917, 6963);
   (6981, 6988); (6992, 7001); (7043, 7072); (7086, 7141); (7168, 7203);
   (7232, 7241); (7245, 7293); (7296, 7304); (7312, 7354); (7357, 7359);
   (7401, 7404); (7406, 7411); (7413, 7414); (7418, 7418); (7424, 7615);
   (7680, 7957); (7960, 7965); (7968, 8005); (8008, 8013); (8016, 8023);
   (8025, 8025); (8027, 8027); (8029, 8029); (8031, 8061); (8064, 8116);
   (8118, 8124); (8126, 8126); (8130, 8132); (8134, 8140); (8144, 8147);
   (8150, 8155); (8160, 8172); (8178, 8180); (8182, 8188); (8304, 8305);
   (8308, 8313); (8319, 8329); (8336, 8348); (8450, 8450); (8455, 8455);
   (8458, 8467); (8469, 8469); (8473, 8477); (8484, 8484); (8486, 8486);
   (8488, 8488); (8490, 8493); (8495, 8505); (8508, 8511); (8517, 8521);
   (8526, 8526); (8528, 8585); (9312, 9371); (9450, 9471); (10102, 10131);
   (11264, 11492); (11499, 11502); (11506, 11507); (11517, 11517);
   (11520, 11557); (11559, 11559); (11565, 11565); (11568, 11623);
   (11631, 11631); (11648, 11670); (11680, 11686); (11688, 11694);
   (11696, 11702); (11704, 11710); (11712, 11718); (11720, 11726);
   (11728, 11734); (11736, 11742); (11823, 11823); (12293, 12295);
   (12321, 12329); (12337, 12341); (12344, 12348); (12353, 12438);
   (12445, 12447); (12449, 12538); (12540, 12543); (12549, 12591);
   (12593, 12686); (12690, 12693); (12704, 12735); (12784, 12799);
   (12832, 12841); (12872, 12879); (12881, 12895); (12928, 12937);
   (12977, 12991); (13312, 19903); (19968, 42124); (42192, 42237);
   (42240, 42508); (42512, 42539); (42560, 42606); (42623, 42653);
   (42656, 42735); (42775, 42783); (42786, 42888); (42891, 42954);
   (42960, 42961); (42963, 42963); (42965, 42969); (42994, 43009);
   (43011, 43013); (43015, 43018); (43020, 43042); (43056, 43061);
   (43072, 43123); (43138, 43187); (43216, 43225); (43250, 43255);
   (43259, 43259); (43261, 43262); (43264, 43301); (43312, 43334);
   (43360, 43388); (43396, 43442); (43471, 43481); (43488, 43492);
   (43494, 43518); (43520, 43560); (43584, 43586); (43588, 43595);
   (43600, 43609); (43616, 43638); (43642, 43642); (43646, 43695);
   (43697, 43697); (43701, 43702); (43705, 43709); (43712, 43712);
   (43714, 43714); (43739, 43741); (43744, 43754); (43762, 43764);
   (43777, 43782); (43785, 43790); (43793, 43798); (43808, 43814);
   (43816, 43822); (43824, 43866); (43868, 43881); (43888, 44002);
   (44016, 44025); (44032, 55203); (55216, 55238); (55243, 55291);
   (63744, 64109); (64112, 64217); (64256, 64262); (64275, 64279);
   (64285, 64285); (64287, 64296); (64298, 64310); (64312, 64316);
   (64318, 64318); (64320, 64321); (64323, 64324); (64326, 64433);
   (64467, 64829); (64848, 64911); (64914, 64967); (65008, 65019);
   (65136, 65140); (65142, 65276); (65296, 65305); (65313, 65338);
   (65345, 65370); (65382, 65470); (65474, 65479); (65482, 65487);
   (65490, 65495); (65498, 65500); (65536, 65547); (65549, 65574);
   (65576, 65594); (65596, 65597); (65599, 65613); (65616, 65629);
   (65664, 65786); (65799, 65843); (65856, 65912); (65930, 65931);
   (66176, 66204); (66208, 66256); (66273, 66299); (66304, 66339);
   (66349, 66378); (66384, 66421); (66432, 66461); (66464, 66499);
   (66504, 66511); (66513, 66517); (66560, 66717); (66720, 66729);
   (66736, 66771); (66776, 66811); (66816, 66855); (66864, 66915);
   (66928, 66938); (66940, 66954); (66956, 66962); (66964, 66965);
   (66967, 66977); (66979, 66993); (66995, 67001); (67003, 67004);
   (67072, 67382); (67392, 67413); (67424, 67431); (67456, 67461);
   (67463, 67504); (67506, 67514); (67584, 67589); (67592, 67592);
   (67594, 67637); (67639, 67640); (67644, 67644); (67647, 67669);
   (67672, 67702); (67705, 67742); (67751, 67759); (67808, 67826);
   (67828, 67829); (67835, 67867); (67872, 67897); (67968, 68023);
   (68028, 68047); (68050, 68096); (68112, 68115); (68117, 68119);
   (68121, 68149); (68160, 68168); (68192, 68222); (68224, 68255);
   (68288, 68295); (68297, 68324); (68331, 68335); (68352, 68405);
   (68416, 68437); (68440, 68466); (68472, 68497); (68521, 68527);
   (68608, 68680); (68736, 68786); (68800, 68850); (68858, 68899);
   (68912, 68921); (69216, 69246); (69248, 69289); (69296, 69297);
   (69376, 69415); (69424, 69445); (69457, 69460); (69488, 69505);
   (69552, 69579); (69600, 69622); (69635, 69687); (69714, 69743);
   (69745, 69746); (69749, 69749); (69763, 69807); (69840, 69864);
   (69872, 69881); (69891, 69926); (69942, 69951); (69956, 69956);
   (69959, 69959); (69968, 70002); (70006, 70006); (70019, 70066);
   (70081, 70084); (70096, 70106); (70108, 70108); (70113, 70132);
   (70144, 70161); (70163, 70187); (70272, 70278); (70280, 70280);
   (70282, 70285); (70287, 70301); (70303, 70312); (70320, 70366);
   (70384, 70393); (70405, 70412); (70415, 70416); (70419, 70440);
   (70442, 70448); (70450, 70451); (70453, 70457); (70461, 70461);
   (70480, 70480); (70493, 70497); (70656, 70708); (70727, 70730);
   (70736, 70745); (70751, 70753); (70784, 70831); (70852, 70853);
   (70855, 70855); (70864, 70873); (71040, 71086); (71128, 71131);
   (71168, 71215); (71236, 71236); (71248, 71257); (71296, 71338);
   (71352, 71352); (71360, 71369); (71424, 71450); (71472, 71483);
   (71488, 71494); (71680, 71723); (71840, 71922); (71935, 71942);
   (71945, 71945); (71948, 71955); (71957, 71958); (71960, 71983);
   (71999, 71999); (72001, 72001); (72016, 72025); (72096, 72103);
   (72106, 72144); (72161, 72161); (72163, 72163); (72192, 72192);
   (72203, 72242); (72250, 72250); (72272, 72272); (72284, 72329);
   (72349, 72349); (72368, 72440); (72704, 72712); (72714, 72750);
   (72768, 72768); (72784, 72812); (72818, 72847); (72960, 72966);
   (72968, 72969); (72971, 73008); (73030, 73030); (73040, 73049);
   (73056, 73061); (73063, 73064); (73066, 73097); (73112, 73112);
   (73120, 73129); (73440, 73458); (73648, 73648); (73664, 73684);
   (73728, 74649); (74752, 74862); (74880, 75075); (77712, 77808);
   (77824, 78894); (82944, 83526); (92160, 92728); (92736, 92766);
   (92768, 92777); (92784, 92862); (92864, 92873); (92880, 92909);
   (92928, 92975); (92992, 92995); (93008, 93017); (93019, 93025);
   (93027, 93047); (93053, 93071); (93760, 93846); (93952, 94026);
   (94032, 94032); (94099, 94111); (94176, 94177); (94179, 94179);
   (94208, 100343); (100352, 101589); (101632, 101640); (110576, 110579);
   (110581, 110587); (110589, 110590); (110592, 110882); (110928, 110930);
   (110948, 110951); (110960, 111355); (113664, 113770); (113776, 113788);
   (113792, 113800); (113808, 113817); (119520, 119539); (119648, 119672);
   (119808, 119892); (119894, 119964); (119966, 119967); (119970, 119970);
   (119973, 119974); (119977, 119980); (119982, 119993); (119995, 119995);
   (119997, 120003); (120005, 120069); (120071, 120074); (120077, 120084);
   (120086, 120092); (120094, 120121); (120123, 120126); (120128, 120132);
   (120134, 120134); (120138, 120144); (120146, 120485); (120488, 120512);
   (120514, 120538); (120540, 120570); (120572, 120596); (120598, 120628);
   (120630, 120654); (120656, 120686); (120688, 120712); (120714, 120744);
   (120746, 120770); (120772, 120779); (120782, 120831); (122624, 122654);
   (123136, 123180); (123191, 123197); (123200, 123209); (123214, 123214);
   (123536, 123565); (123584, 123627); (123632, 123641); (124896, 124902);
   (124904, 124907); (124909, 124910); (124912, 124926); (124928, 125124);
   (125127, 125135); (125184, 125251); (125259, 125259); (125264, 125273);
   (126065, 126123); (126125, 126127); (126129, 126132); (126209, 126253);
   (126255, 126269); (126464, 126467); (126469, 126495); (126497, 126498);
   (126500, 126500); (126503, 126503); (126505, 126514); (126516, 126519);
   (126521, 126521); (126523, 126523); (126530, 126530); (126535, 126535);
   (126537, 126537); (126539, 126539); (126541, 126543); (126545, 126546);
   (126548, 126548); (126551, 126551); (126553, 126553); (126555, 126555);
   (126557, 126557); (126559, 126559); (126561, 126562); (126564, 126564);
   (126567, 126570); (126572, 126578); (126580, 126583); (126585, 126588);
   (126590, 126590); (126592, 126601); (126603, 126619); (126625, 126627);
   (126629, 126633); (126635, 126651); (127232, 127244); (130032, 130041);
   (131072, 173791); (173824, 177976); (177984, 178205); (178208, 183969);
   (183984, 191456); (194560, 195101); (196608, 201546)]%N.

(** [\s] and [str.isspace]: the same set. *)
Definition WHITESPACE : list (N * N) :=
  [(9, 13); (28, 32); (133, 133); (160, 160); (5760, 5760); (8192, 8202);
   (8232, 8233); (8239, 8239); (8287, 8287); (12288, 12288)]%N.

Definition is_digit (c : char) : bool := in_table DECIMAL_DIGITS c.
Definition is_word (c : char) : bool := in_table WORD_CHARACTERS c.
Definition is_space (c : char) : bool := in_table WHITESPACE c.

Definition is_ascii_upper (c : char) : bool := in_range 65 90 c.
Definition is_ascii_lower (c : char) : bool := in_range 97 122 c.

(** The characters that match the literal [c] under [re.IGNORECASE], for
    an ASCII [c]: the character [x] matches when its lower case is the
    lower case of [c] or a character the library pairs with it.  The
    lower case of U+0130 is [i] and that of U+212A is [k]; the library
    pairs [i] with U+0131 and [s] with U+017F. *)
Definition ignorecase_variants (c : char) : list char :=
  let l := if is_ascii_upper c then (c + 32)%N else c in
  if is_ascii_lower l then
    [l; (l - 32)%N]
    ++ (if (l =? 105)%N then [304; 305]%N
        else if (l =? 107)%N then [8490%N]
        else if (l =? 115)%N then [383%N]
        else [])
  else [c].

End Chars.

(** [line.rstrip("\n")]: drop every trailing newline. *)
Fixpoint rstrip_newline (s : str) : str :=
  match s with
  | [] => []
  | a :: s' =>
      match rstrip_newline s' with
      | [] => if N.eqb a Chars.newline then [] else [a]
      | t => a :: t
      end
  end.

(** [not line.strip()]: the line has only whitespace. *)
Definition is_blank (s : str) : bool := forallb Chars.is_space s.

(* ================================================================== *)
(** * Regular expressions: the fragment of [re] the program uses *)

Module Re.

Inductive category := CatDigit | CatWord | CatSpace.

Inductive set_item :=
| SChar (c : char)
| SRange (lo hi : char)
| SCat (k : category).

Arguments SChar c%_char.
Arguments SRange (lo hi)%_char.

Inductive regex :=
| Empty
| Bol                                   (* ^ *)
| AnyChar                               (* . without DOTALL *)
| Lit (c : char)
| Cat (k : category)                    (* \d \w \s *)
| InSet (neg : bool) (items : list set_item)
| Seq (r1 r2 : regex)
| Alt (r1 r2 : regex)
| Repeat (lo : nat) (hi : option nat) (greedy : bool) (r : regex)
| Group (n : nat) (r : regex).

Arguments Lit c%_char.

Definition cat_match (k : category) (a : char) : bool :=
  match k with
  | CatDigit => Chars.is_digit a
  | CatWord => Chars.is_word a
  | CatSpace => Chars.is_space a
  end.

(** One literal against one character; [ic] is re.IGNORECASE. *)
Definition lit_match (ic : bool) (c a : char) : bool :=
  if ic then existsb (N.eqb a) (Chars.ignorecase_variants c) else N.eqb a c.

(** The characters from [lo] to [hi]. *)
Definition between (lo hi : char) : list char :=
  map (fun i => (lo + N.of_nat i)%N) (seq 0 (N.to_nat (hi + 1 - lo))).

(** A range under re.IGNORECASE takes what one of its characters, as a
    literal, takes. *)
Definition range_match (ic : bool) (lo hi a : char) : bool :=
  if ic then existsb (fun c => lit_match true c a) (between lo hi)
  else Chars.in_range lo hi a.

Definition item_match (ic : bool) (it : set_item) (a : char) : bool :=
  match it with
  | SChar c => lit_match ic c a
  | SRange lo hi => range_match ic lo hi a
  | SCat k => cat_match k a
  end.

Definition set_match (ic neg : bool) (items : list set_item) (a : char)
  : bool :=
  xorb neg (existsb (fun it => item_match ic it a) items).

(** Captures: group number and captured text, the latest capture first. *)
Definition caps := list (nat * str).

(** A continuation receives the position, the rest of the subject and the
    captures made so far. *)
Definition cont := nat -> str -> caps -> option caps.

Definition one_char (p : char -> bool) (k : cont) : cont :=
  fun i s c =>
    match s with
    | a :: s' => if p a then k (S i) s' c else None
    | [] => None
    end.

Fixpoint rep_exact (m : cont -> cont) (n : nat) (k : cont) : cont :=
  match n with
  | O => k
  | S n' => m (rep_exact m n' k)
  end.

(** At most [n] further iterations: a greedy repeat tries one more
    iteration before the rest of the pattern, a lazy one after it. *)
Fixpoint rep_upto (m : cont -> cont) (greedy : bool) (n : nat) (k : cont)
  : cont :=
  match n with
  | O => k
  | S n' =>
      fun i s c =>
        if greedy then
          match m (rep_upto m greedy n' k) i s c with
          | Some c' => Some c'
          | None => k i s c
          end
        else
          match k i s c with
          | Some c' => Some c'
          | None => m (rep_upto m greedy n' k) i s c
          end
  end.

(** The backtracking matcher.  An unbounded repeat is bounded by the
    length of the remaining subject: the bodies the program repeats
    without bound all consume one character per iteration. *)
Fixpoint rmatch (ic : bool) (r : regex) (k : cont) {struct r} : cont :=
  match r with
  | Empty => k
  | Bol => fun i s c => if Nat.eqb i 0 then k i s c else None
  | AnyChar =>
      one_char (fun a => negb (N.eqb a Chars.newline)) k
  | Lit ch => one_char (lit_match ic ch) k
  | Cat ct => one_char (cat_match ct) k
  | InSet neg items => one_char (set_match ic neg items) k
  | Seq r1 r2 => rmatch ic r1 (rmatch ic r2 k)
  | Alt r1 r2 =>
      fun i s c =>
        match rmatch ic r1 k i s c with
        | Some c' => Some c'
        | None => rmatch ic r2 k i s c
        end
  | Repeat lo hi greedy r' =>
      fun i s c =>
        let extra :=
          match hi with
          | Some h => h - lo
          | None => List.length s
          end in
        rep_exact (rmatch ic r') lo
          (rep_upto (rmatch ic r') greedy extra k) i s c
  | Group n r' =>
      fun i s c =>
        rmatch ic r' (fun i' s' c' => k i' s' ((n, firstn (i' - i) s) :: c'))
          i s c
  end.

Definition accept : cont := fun _ _ c => Some c.

(** [pattern.search(line)]: the leftmost start position that matches. *)
Fixpoint search_from (ic : bool) (r : regex) (i : nat) (s : str)
  : option caps :=
  match rmatch ic r accept i s [] with
  | Some c => Some c
  | None =>
      match s with
      | [] => None
      | _ :: s' => search_from ic r (S i) s'
      end
  end.

Definition search (ic : bool) (r : regex) (line : str)
  : option caps :=
  search_from ic r 0 line.

(** [m.group(n)]: [None] for a group that took no part in the match. *)
Fixpoint group (n : nat) (c : caps) : option str :=
  match c with
  | [] => None
  | (j, w) :: c' => if Nat.eqb j n then Some w else group n c'
  end.

(** Pattern syntax. *)
Definition lits (s : string) : regex :=
  fold_right (fun a r => Seq (Lit a) r) Empty (codepoints s).

Definition seqs (rs : list regex) : regex := fold_right Seq Empty rs.

Definition plus (r : regex) : regex := Repeat 1 None true r.
Definition lazy_star (r : regex) : regex := Repeat 0 None false r.
Definition opt (r : regex) : regex := Repeat 0 (Some 1) true r.
Definition times (n : nat) (r : regex) : regex := Repeat n (Some n) true r.
Definition digits (n : nat) : regex := times n (Cat CatDigit).

End Re.

(* ================================================================== *)
(** * Python values, dicts and exceptions *)

Inductive pyval :=
| PyStr (s : str)
| PyNone.

Definition pyval_eqb (a b : pyval) : bool :=
  match a, b with
  | PyStr x, PyStr y => str_eqb x y
  | PyNone, PyNone => true
  | _, _ => false
  end.

(** A dict with string keys, in insertion order. *)
Definition dict := list (string * pyval).

Fixpoint dict_get (d : dict) (key : string) : option pyval :=
  match d with
  | [] => None
  | (k, v) :: d' => if String.eqb k key then Some v else dict_get d' key
  end.

(** [d[key] = v]: an existing key keeps its place, a new one goes last. *)
Fixpoint dict_set (d : dict) (key : string) (v : pyval) : dict :=
  match d with
  | [] => [(key, v)]
  | (k, v0) :: d' =>
      if String.eqb k key then (k, v) :: d' else (k, v0) :: dict_set d' key v
  end.

Definition dict_keys (d : dict) : list string := map fst d.

Inductive exn :=
| KeyError
| TypeError
| AttributeError
| ValueError
| OSError
| ConnectionError
| KeyboardInterrupt.

(** Only [KeyboardInterrupt] escapes an [except Exception] clause. *)
Definition is_Exception (e : exn) : bool :=
  match e with
  | KeyboardInterrupt => false
  | _ => true
  end.

Inductive result (A : Type) :=
| Ok (a : A)
| Raise (e : exn).

Arguments Ok {A} a.
Arguments Raise {A} e.

Definition bind {A B : Type} (m : result A) (f : A -> result B) : result B :=
  match m with
  | Ok a => f a
  | Raise e => Raise e
  end.

Notation "x <- m ;; k" := (bind m (fun x => k))
  (at level 61, m at next level, right associativity).

Fixpoint mapM {A B : Type} (f : A -> result B) (l : list A)
  : result (list B) :=
  match l with
  | [] => Ok []
  | a :: l' => b <- f a ;; bs <- mapM f l' ;; Ok (b :: bs)
  end.

(** [d[key]] as an expression. *)
Definition getitem (d : dict) (key : string) : result pyval :=
  match dict_get d key with
  | Some v => Ok v
  | None => Raise KeyError
  end.

(* ================================================================== *)
(** * log_archiver.py: the line parser *)

Import Re.

Definition az_upper : set_item := SRange "A" "Z".
Definition ident_set : list set_item :=
  [SRange "A" "Z"; SRange "a" "z"; SRange "0" "9";
   SChar "_"; SChar "."; SChar "-"].

(** [^(\d{4}/\d{2}/\d{2} \d{2}:\d{2}:\d{2}:\d{3})\s+([A-Z])\s+([A-Z_]+)\s+(.*?)(Grant|Detachment|TimeOut|not granted)] *)
Definition ACTION_ALTERNATIVES : regex :=
  Alt (lits "Grant")
    (Alt (lits "Detachment") (Alt (lits "TimeOut") (lits "not granted"))).

Definition TIMESTAMP : regex :=
  seqs [digits 4; Lit "/"; digits 2; Lit "/"; digits 2; Lit " ";
        digits 2; Lit ":"; digits 2; Lit ":"; digits 2; Lit ":"; digits 3].

Definition LOG_PATTERN : regex :=
  seqs [Bol;
        Group 1 TIMESTAMP;
        plus (Cat CatSpace);
        Group 2 (InSet false [az_upper]);
        plus (Cat CatSpace);
        Group 3 (plus (InSet false [az_upper; SChar "_"]));
        plus (Cat CatSpace);
        Group 4 (lazy_star AnyChar);
        Group 5 ACTION_ALTERNATIVES].

(** [!(\w+)!Vendor] *)
Definition LICENSE_VENDOR : regex :=
  seqs [Lit "!"; Group 1 (plus (Cat CatWord)); lits "!Vendor"].

(** [!(\w+)!([^!\s]+)\s] *)
Definition LICENSE_LOOSE : regex :=
  seqs [Lit "!"; Group 1 (plus (Cat CatWord)); Lit "!";
        Group 2 (plus (InSet true [SChar "!"; SCat CatSpace]));
        Cat CatSpace].

(** [\|?([A-Za-z0-9_.-]+)@[\w.-]+] *)
Definition USER_AT : regex :=
  seqs [opt (Lit "|"); Group 1 (plus (InSet false ident_set)); Lit "@";
        plus (InSet false [SCat CatWord; SChar "."; SChar "-"])].

(** [\|([A-Za-z0-9_.-]+)\|] *)
Definition USER_PIPES : regex :=
  seqs [Lit "|"; Group 1 (plus (InSet false ident_set)); Lit "|"].

(** [(\d{1,3}(?:\.\d{1,3}){3})] *)
Definition IP_PATTERN : regex :=
  let octet := Repeat 1 (Some 3) true (Cat CatDigit) in
  Group 1 (Seq octet (times 3 (Seq (Lit ".") octet))).

(** The value of [m.group(n)] as a Python value. *)
Definition group_val (n : nat) (c : caps) : pyval :=
  match group n c with
  | Some w => PyStr w
  | None => PyNone
  end.

Definition parse_log_line (line : str) : option dict :=
  match search true LOG_PATTERN line with
  | None => None
  | Some m =>
      let timestamp_raw := group_val 1 m in
      let level_letter := group_val 2 m in
      let component := group_val 3 m in
      let action := group_val 5 m in
      let timestamp := timestamp_raw in
      let license_type :=
        match search false LICENSE_VENDOR line with
        | None =>
            match search false LICENSE_LOOSE line with
            | Some mlt => group_val 1 mlt
            | None => PyStr "Unknown"
            end
        | Some license_type_match => group_val 1 license_type_match
        end in
      let user_match :=
        match search false USER_AT line with
        | None => search false USER_PIPES line
        | Some u => Some u
        end in
      let user_name :=
        match user_match with
        | Some u => group_val 1 u
        | None => PyStr "Unknown"
        end in
      let client_ip :=
        match search false IP_PATTERN line with
        | Some ip_match => group_val 1 ip_match
        | None => PyStr "Unknown"
        end in
      let raw_message := rstrip_newline line in
      Some [("timestamp", timestamp);
            ("log_level", level_letter);
            ("component", component);
            ("action", action);
            ("license_type", license_type);
            ("user_name", user_name);
            ("client_ip", client_ip);
            ("raw_message", PyStr raw_message)]
  end.

Definition example_line : str :=
  "2024/01/15 09:30:00:123 E LICENSE_SVC user1@workstation1 192.168.1.10 !MATLAB!Vendor Grant".

(* ================================================================== *)
(** * log_archiver.py: the content hasher *)

Module Sha1.

Local Open Scope Z_scope.

Definition mask32 (x : Z) : Z := Z.land x 4294967295.
Definition add32 (x y : Z) : Z := mask32 (x + y).
Definition rotl (n x : Z) : Z :=
  mask32 (Z.lor (Z.shiftl x n) (Z.shiftr x (32 - n))).
Definition not32 (x : Z) : Z := Z.lxor x 4294967295.

(** Padding: a 1 bit, zeros up to 56 modulo 64, then the bit length on
    eight bytes, big-endian. *)
Definition be_bytes (width : nat) (x : Z) : list Z :=
  map (fun i => Z.land (Z.shiftr x (8 * Z.of_nat i)) 255)
      (rev (seq 0 width)).

Definition pad (msg : list Z) : list Z :=
  let len := Z.of_nat (List.length msg) in
  let zeros := Z.to_nat ((55 - len) mod 64) in
  msg ++ [128] ++ repeat 0 zeros ++ be_bytes 8 (8 * len).

Definition word_of_bytes (b : list Z) : Z :=
  fold_left (fun acc x => Z.lor (Z.shiftl acc 8) x) b 0.

Fixpoint words (n : nat) (b : list Z) : list Z :=
  match n with
  | O => []
  | S n' => word_of_bytes (firstn 4 b) :: words n' (skipn 4 b)
  end.

(** The message schedule, latest word first. *)
Fixpoint schedule (n : nat) (w : list Z) : list Z :=
  match n with
  | O => w
  | S n' =>
      let x := Z.lxor (Z.lxor (nth 2 w 0) (nth 7 w 0))
                      (Z.lxor (nth 13 w 0) (nth 15 w 0)) in
      schedule n' (rotl 1 x :: w)
  end.

Definition state := (Z * Z * Z * Z * Z)%type.

Definition round (t : nat) (st : state) (wt : Z) : state :=
  let '(a, b, c, d, e) := st in
  let '(f, k) :=
    if (t <? 20)%nat then
      (Z.lor (Z.land b c) (Z.land (not32 b) d), 1518500249)
    else if (t <? 40)%nat then
      (Z.lxor (Z.lxor b c) d, 1859775393)
    else if (t <? 60)%nat then
      (Z.lor (Z.lor (Z.land b c) (Z.land b d)) (Z.land c d), 2400959708)
    else
      (Z.lxor (Z.lxor b c) d, 3395469782) in
  let temp := add32 (add32 (add32 (add32 (rotl 5 a) f) e) k) wt in
  (temp, a, rotl 30 b, c, d).

Fixpoint rounds (t : nat) (ws : list Z) (st : state) : state :=
  match ws with
  | [] => st
  | wt :: ws' => rounds (S t) ws' (round t st wt)
  end.

Definition compress (h : state) (block : list Z) : state :=
  let ws := rev (schedule 64 (rev (words 16 block))) in
  let '(a, b, c, d, e) := rounds 0 ws h in
  let '(h0, h1, h2, h3, h4) := h in
  (add32 h0 a, add32 h1 b, add32 h2 c, add32 h3 d, add32 h4 e).

Fixpoint blocks (n : nat) (b : list Z) (h : state) : state :=
  match n with
  | O => h
  | S n' => blocks n' (skipn 64 b) (compress h (firstn 64 b))
  end.

Definition init : state :=
  (1732584193, 4023233417, 2562383102, 271733878, 3285377520).

Definition digest (msg : list Z) : state :=
  let p := pad msg in
  blocks (Nat.div (List.length p) 64) p init.

Definition hex_digit (x : Z) : char :=
  nth (Z.to_nat (Z.land x 15)) (codepoints "0123456789abcdef") 48%N.

Definition hex_word (x : Z) : str :=
  map (fun i => hex_digit (Z.shiftr x (4 * Z.of_nat i))) (rev (seq 0 8)).

Definition hexdigest (msg : list Z) : str :=
  let '(h0, h1, h2, h3, h4) := digest msg in
  hex_word h0 ++ hex_word h1 ++ hex_word h2 ++ hex_word h3 ++ hex_word h4.

End Sha1.

(** [s.encode("utf-8", errors="ignore")]: a lone surrogate cannot be
    encoded and is dropped. *)
Definition is_surrogate (c : N) : bool := ((55296 <=? c) && (c <=? 57343))%N.

Definition utf8_char (c : N) : list Z :=
  let z := Z.of_N c in
  let tail (sh : Z) := Z.lor 128 (Z.land (Z.shiftr z sh) 63) in
  if (c <? 128)%N then [z]
  else if (c <? 2048)%N then [Z.lor 192 (Z.shiftr z 6); tail 0%Z]
  else if is_surrogate c then []
  else if (c <? 65536)%N then
    [Z.lor 224 (Z.shiftr z 12); tail 6%Z; tail 0%Z]
  else
    [Z.lor 240 (Z.land (Z.shiftr z 18) 7); tail 12%Z; tail 6%Z; tail 0%Z].

Definition utf8_encode_ignore (s : str) : list Z := flat_map utf8_char s.

Definition sha1_hex (s : str) : str :=
  Sha1.hexdigest (utf8_encode_ignore s).

(* ================================================================== *)
(** * json.dumps(e, ensure_ascii=False) on a dict of strings *)

Module Json.

Definition hex (n : N) : char :=
  nth (N.to_nat n) (codepoints "0123456789abcdef") 48%N.

(** Quote, backslash and the control characters are escaped; everything
    else is copied. *)
Definition escape_char (c : char) : str :=
  if N.eqb c Chars.dquote then [Chars.backslash; Chars.dquote]
  else if N.eqb c Chars.backslash then [Chars.backslash; Chars.backslash]
  else if (c =? 10)%N then [Chars.backslash; char_of "n"]
  else if (c =? 13)%N then [Chars.backslash; char_of "r"]
  else if (c =? 9)%N then [Chars.backslash; char_of "t"]
  else if (c =? 8)%N then [Chars.backslash; char_of "b"]
  else if (c =? 12)%N then [Chars.backslash; char_of "f"]
  else if (c <? 32)%N then
    [Chars.backslash; char_of "u"; char_of "0"; char_of "0";
     hex (N.div c 16); hex (N.modulo c 16)]
  else [c].

Definition quote (s : str) : str :=
  Chars.dquote :: flat_map escape_char s ++ [Chars.dquote].

Definition value (v : pyval) : str :=
  match v with
  | PyStr s => quote s
  | PyNone => codepoints "null"
  end.

Definition member (kv : string * pyval) : str :=
  quote (codepoints (fst kv)) ++ codepoints ": " ++ value (snd kv).

Fixpoint members (d : dict) : str :=
  match d with
  | [] => []
  | [kv] => member kv
  | kv :: d' => member kv ++ codepoints ", " ++ members d'
  end.

Definition dumps (d : dict) : str :=
  char_of "{" :: members d ++ [char_of "}"].

End Json.


(* ================================================================== *)
(** * log_archiver.py: the event store *)

Definition SCHEMA_VERSION : string := "1.0".

(** A row of the table [logs]; the autoincremented [id] is the position
    of the row in the table. *)
Record log_row := {
  r_timestamp : pyval;
  r_log_level : pyval;
  r_component : pyval;
  r_action : pyval;
  r_license_type : pyval;
  r_user_name : pyval;
  r_client_ip : pyval;
  r_raw_message : pyval;
  r_raw_hash : pyval
}.

Record database := {
  meta : list string;
  logs : list log_row
}.

(** [connect_db]: the tables are created when absent and the schema
    version is recorded once. *)
Definition connect_db (stored : option database) : database :=
  let d :=
    match stored with
    | Some d => d
    | None => {| meta := []; logs := [] |}
    end in
  if Nat.eqb (List.length (meta d)) 0
  then {| meta := [SCHEMA_VERSION]; logs := logs d |}
  else d.

(** [raw_hash TEXT UNIQUE]: a row conflicts with a stored row that has the
    same non-NULL hash. *)
Definition hash_conflict (h : pyval) (r : log_row) : bool :=
  match h with
  | PyStr _ => pyval_eqb (r_raw_hash r) h
  | PyNone => false
  end.

(** [INSERT OR IGNORE INTO logs ...] of one row. *)
Definition insert_or_ignore (rows : list log_row) (r : log_row)
  : list log_row :=
  if existsb (hash_conflict (r_raw_hash r)) rows then rows else rows ++ [r].

(** [cur.executemany] followed by [conn.commit()]. *)
Definition executemany (db : database) (to_insert : list log_row)
  : database :=
  {| meta := meta db; logs := fold_left insert_or_ignore to_insert (logs db) |}.

(* ================================================================== *)
(** * log_archiver.py: the queue *)

(** The connection: the list behind [REDIS_QUEUE_NAME], and for each
    coming [rpush] whether it raises. *)
Record redis := {
  queue : list str;
  faults : list bool
}.

Definition rpush (r : redis) (msg : str) : result unit * redis :=
  match faults r with
  | true :: fs => (Raise ConnectionError, {| queue := queue r; faults := fs |})
  | false :: fs => (Ok tt, {| queue := queue r ++ [msg]; faults := fs |})
  | [] => (Ok tt, {| queue := queue r ++ [msg]; faults := [] |})
  end.

(* ================================================================== *)
(** * log_archiver.py: process_log_file *)

(** What opening and iterating a file gives: its lines, or some lines and
    then an error ([open] failing gives no line). *)
Inductive file :=
| Readable (lines : list str)
| Unreadable (lines : list str).

(** [sha1_hex(v)]: [None] has no [encode]. *)
Definition call_sha1_hex (v : pyval) : result pyval :=
  match v with
  | PyStr s => Ok (PyStr (sha1_hex s))
  | PyNone => Raise AttributeError
  end.

(** The body of [for line in fh]. *)
Fixpoint parse_lines (lines : list str) (parsed : list dict)
  : result (list dict) :=
  match lines with
  | [] => Ok parsed
  | line :: rest =>
      if is_blank line then parse_lines rest parsed
      else
        match parse_log_line line with
        | Some (kv :: entry') =>
            let entry := kv :: entry' in
            raw <- getitem entry "raw_message" ;;
            h <- call_sha1_hex raw ;;
            parse_lines rest (parsed ++ [dict_set entry "raw_hash" h])
        | _ => parse_lines rest parsed
        end
  end.

Definition read_file (f : file) : result (list dict) :=
  match f with
  | Readable lines => parse_lines lines []
  | Unreadable lines => _ <- parse_lines lines [] ;; Raise OSError
  end.

Definition to_row (e : dict) : result log_row :=
  timestamp <- getitem e "timestamp" ;;
  log_level <- getitem e "log_level" ;;
  component <- getitem e "component" ;;
  action <- getitem e "action" ;;
  license_type <- getitem e "license_type" ;;
  user_name <- getitem e "user_name" ;;
  client_ip <- getitem e "client_ip" ;;
  raw_message <- getitem e "raw_message" ;;
  raw_hash <- getitem e "raw_hash" ;;
  Ok {| r_timestamp := timestamp; r_log_level := log_level;
        r_component := component; r_action := action;
        r_license_type := license_type; r_user_name := user_name;
        r_client_ip := client_ip; r_raw_message := raw_message;
        r_raw_hash := raw_hash |}.

(** The push loop: a failed push is swallowed. *)
Fixpoint push_all (r : redis) (parsed : list dict) (pushed_count : nat)
  : redis * nat :=
  match parsed with
  | [] => (r, pushed_count)
  | e :: rest =>
      match rpush r (Json.dumps e) with
      | (Ok _, r') => push_all r' rest (S pushed_count)
      | (Raise _, r') => push_all r' rest pushed_count
      end
  end.

(** The [try] block; every exception of the model is an [Exception]. *)
Definition process_body (f : file) (db : database) (redis_conn : option redis)
  : result (nat * database * option redis) :=
  parsed <- read_file f ;;
  match parsed with
  | [] => Ok (0, db, redis_conn)
  | _ =>
      to_insert <- mapM to_row parsed ;;
      let db' := executemany db to_insert in
      let redis_conn' :=
        match redis_conn with
        | Some r => Some (fst (push_all r parsed 0))
        | None => None
        end in
      Ok (List.length parsed, db', redis_conn')
  end.

Definition process_log_file (f : file) (db : database)
  (redis_conn : option redis) : nat * database * option redis :=
  match process_body f db redis_conn with
  | Ok res => res
  | Raise _ => (0, db, redis_conn)
  end.

(* ================================================================== *)
(** * log_archiver.py: the progress tracker and main *)

(** The file behind [PARSED_TRACKER] in the states the program brings
    about: absent, there but not to be opened or decoded, or a JSON list
    of names.  [main_any] below takes a file of any content. *)
Inductive tracker_file :=
| TrackerMissing
| TrackerCorrupt
| TrackerList (names : list string).

Definition load_parsed_files (t : tracker_file) : list string :=
  match t with
  | TrackerList names => names
  | TrackerMissing | TrackerCorrupt => []
  end.

Definition save_parsed_files (parsed_files : list string) : tracker_file :=
  TrackerList parsed_files.

Inductive redis_env :=
| RedisNotInstalled
| RedisUnreachable
| RedisUp (r : redis).

Definition get_redis_connection (env : redis_env) : option redis :=
  match env with
  | RedisUp r => Some r
  | RedisNotInstalled | RedisUnreachable => None
  end.

(** [f.endswith(suffix)] *)
Fixpoint starts_with (p s : list ascii) : bool :=
  match p, s with
  | [], _ => true
  | a :: p', b :: s' => Ascii.eqb a b && starts_with p' s'
  | _ :: _, [] => false
  end.

Definition endswith (s suffix : string) : bool :=
  starts_with (rev (list_ascii_of_string suffix))
              (rev (list_ascii_of_string s)).

(** [sorted] on strings: by code points. *)
Fixpoint insert_sorted (x : string) (l : list string) : list string :=
  match l with
  | [] => [x]
  | y :: l' => if String.leb x y then x :: l else y :: insert_sorted x l'
  end.

Definition sorted (l : list string) : list string :=
  fold_right insert_sorted [] l.

Definition mem (x : string) (l : list string) : bool :=
  existsb (String.eqb x) l.

(** The directory [LOG_DIRECTORY]: names and contents, in [os.listdir]
    order. *)
Definition directory := list (string * file).

Fixpoint open_file (dir : directory) (name : string) : file :=
  match dir with
  | [] => Unreadable []
  | (n, f) :: dir' => if String.eqb n name then f else open_file dir' name
  end.

(** What the machine holds between runs. *)
Record world := {
  log_directory : option directory;
  tracker : tracker_file;
  db_file : option database;
  redis_server : redis_env
}.

(** The variables of [main]; [processed] records the calls of
    [process_log_file]. *)
Record run_state := {
  conn : database;
  parsed_files : list string;
  total_parsed : nat;
  redis_conn : option redis;
  processed : list string
}.

(** The body of [for log_file in all_logs]. *)
Definition main_step (force : bool) (dir : directory) (st : run_state)
  (log_file : string) : run_state :=
  if mem log_file (parsed_files st) && negb force then st
  else
    let '(parsed_count, conn', redis_conn') :=
      process_log_file (open_file dir log_file) (conn st) (redis_conn st) in
    if Nat.ltb 0 parsed_count then
      {| conn := conn';
         parsed_files := parsed_files st ++ [log_file];
         total_parsed := total_parsed st + parsed_count;
         redis_conn := redis_conn';
         processed := processed st ++ [log_file] |}
    else
      {| conn := conn';
         parsed_files := parsed_files st;
         total_parsed := total_parsed st;
         redis_conn := redis_conn';
         processed := processed st ++ [log_file] |}.

Definition all_logs (dir : directory) : list string :=
  sorted (filter (fun f => endswith f ".log") (map fst dir)).

Definition main_loop (force : bool) (dir : directory) (st : run_state)
  : run_state :=
  fold_left (main_step force dir) (all_logs dir) st.

Record outcome := {
  final : world;
  summary : option nat;
  calls : list string
}.

Definition main (force : bool) (w : world) : outcome :=
  let conn0 := connect_db (db_file w) in
  let parsed_files0 :=
    if force then [] else load_parsed_files (tracker w) in
  match log_directory w with
  | None =>
      {| final := {| log_directory := None; tracker := tracker w;
                     db_file := Some conn0;
                     redis_server := redis_server w |};
         summary := None;
         calls := [] |}
  | Some dir =>
      let st := main_loop force dir
                  {| conn := conn0; parsed_files := parsed_files0;
                     total_parsed := 0;
                     redis_conn := get_redis_connection (redis_server w);
                     processed := [] |} in
      {| final := {| log_directory := Some dir;
                     tracker := save_parsed_files (parsed_files st);
                     db_file := Some (conn st);
                     redis_server :=
                       match redis_conn st with
                       | Some r => RedisUp r
                       | None => redis_server w
                       end |};
         summary := Some (total_parsed st);
         calls := processed st |}
  end.
(* ================================================================== *)
(** * log_archiver.py: [main] on a tracker file of any content *)

(** [main] above takes the tracker for what [save_parsed_files] writes: a
    list of names.  The file can hold any JSON value.  [json.load(f) or []]
    returns it as it is unless it is falsy, and the loop of [main] uses it
    with [in] and with [append], which a value that is not a list does not
    both have.  No [try] surrounds the loop: an exception ends the run
    where it is raised, after the commits and the pushes of the files
    processed so far, before the tracker is saved and the summary
    logged. *)

(** What [json.load] returns; a number is taken as whole. *)
Inductive tracker_json :=
| TNull
| TBool (b : bool)
| TNumber (z : Z)
| TString (s : string)
| TArray (items : list tracker_json)
| TObject (members : list (string * tracker_json)).

(** The file behind [PARSED_TRACKER]. *)
Inductive tracker_content :=
| NoFile
| NotJson
| Holds (v : tracker_json).

(** [bool(v)] *)
Definition is_truthy (v : tracker_json) : bool :=
  match v with
  | TNull => false
  | TBool b => b
  | TNumber z => negb (Z.eqb z 0)
  | TString s => negb (String.eqb s "")
  | TArray items => negb (Nat.eqb (List.length items) 0)
  | TObject members => negb (Nat.eqb (List.length members) 0)
  end.

(** [load_parsed_files] as it is written: [json.load(f) or []]. *)
Definition load_tracker (t : tracker_content) : tracker_json :=
  match t with
  | NoFile | NotJson => TArray []
  | Holds v => if is_truthy v then v else TArray []
  end.

(** [name in s] for two strings. *)
Fixpoint is_substring (name s : string) : bool :=
  String.prefix name s
  || match s with
     | EmptyString => false
     | String _ s' => is_substring name s'
     end.

(** [log_file in parsed_files]: an item of a list, a key of a dict, a
    part of a string; the other values are not containers. *)
Definition contains (v : tracker_json) (log_file : string) : result bool :=
  match v with
  | TArray items =>
      Ok (existsb (fun i => match i with
                            | TString s => String.eqb log_file s
                            | _ => false
                            end) items)
  | TObject members =>
      Ok (existsb (fun kv => String.eqb log_file (fst kv)) members)
  | TString s => Ok (is_substring log_file s)
  | TNull | TBool _ | TNumber _ => Raise TypeError
  end.

(** [parsed_files.append(log_file)] *)
Definition append (v : tracker_json) (log_file : string)
  : result tracker_json :=
  match v with
  | TArray items => Ok (TArray (items ++ [TString log_file]))
  | _ => Raise AttributeError
  end.

(** What the machine holds between runs. *)
Record host := {
  h_directory : option directory;
  h_tracker : tracker_content;
  h_db : option database;
  h_redis : redis_env
}.

(** The variables of [main]; [v_calls] records the calls of
    [process_log_file]. *)
Record vars := {
  v_conn : database;
  v_parsed_files : tracker_json;
  v_total_parsed : nat;
  v_redis_conn : option redis;
  v_calls : list string
}.

(** The loop goes on, or an exception has left it. *)
Inductive progress :=
| Running (st : vars)
| Failed (st : vars) (e : exn).

(** The body of [for log_file in all_logs]. *)
Definition step_any (force : bool) (dir : directory) (st : vars)
  (log_file : string) : progress :=
  match contains (v_parsed_files st) log_file with
  | Raise e => Failed st e
  | Ok listed =>
      if listed && negb force then Running st
      else
        let '(parsed_count, conn', redis_conn') :=
          process_log_file (open_file dir log_file)
            (v_conn st) (v_redis_conn st) in
        let called :=
          {| v_conn := conn';
             v_parsed_files := v_parsed_files st;
             v_total_parsed := v_total_parsed st;
             v_redis_conn := redis_conn';
             v_calls := v_calls st ++ [log_file] |} in
        if Nat.ltb 0 parsed_count then
          match append (v_parsed_files st) log_file with
          | Ok parsed_files' =>
              Running
                {| v_conn := conn';
                   v_parsed_files := parsed_files';
                   v_total_parsed := v_total_parsed st + parsed_count;
                   v_redis_conn := redis_conn';
                   v_calls := v_calls st ++ [log_file] |}
          | Raise e => Failed called e
          end
        else Running called
  end.

Fixpoint loop_any (force : bool) (dir : directory) (l : list string)
  (st : vars) : progress :=
  match l with
  | [] => Running st
  | log_file :: l' =>
      match step_any force dir st log_file with
      | Running st' => loop_any force dir l' st'
      | Failed st' e => Failed st' e
      end
  end.

(** What a run leaves: the machine, the total of the summary when the
    summary is logged, the calls of [process_log_file], and the exception
    that ended the run, if one did. *)
Record ending := {
  after : host;
  logged_total : option nat;
  handed : list string;
  uncaught : option exn
}.

Definition redis_after (before : redis_env) (rc : option redis)
  : redis_env :=
  match rc with
  | Some r => RedisUp r
  | None => before
  end.

Definition main_any (force : bool) (h : host) : ending :=
  let conn0 := connect_db (h_db h) in
  let parsed_files0 :=
    if force then TArray [] else load_tracker (h_tracker h) in
  match h_directory h with
  | None =>
      {| after := {| h_directory := None; h_tracker := h_tracker h;
                     h_db := Some conn0; h_redis := h_redis h |};
         logged_total := None;
         handed := [];
         uncaught := None |}
  | Some dir =>
      match loop_any force dir (all_logs dir)
              {| v_conn := conn0; v_parsed_files := parsed_files0;
                 v_total_parsed := 0;
                 v_redis_conn := get_redis_connection (h_redis h);
                 v_calls := [] |} with
      | Running st =>
          {| after := {| h_directory := Some dir;
                         h_tracker := Holds (v_parsed_files st);
                         h_db := Some (v_conn st);
                         h_redis :=
                           redis_after (h_redis h) (v_redis_conn st) |};
             logged_total := Some (v_total_parsed st);
             handed := v_calls st;
             uncaught := None |}
      | Failed st e =>
          {| after := {| h_directory := Some dir;
                         h_tracker := h_tracker h;
                         h_db := Some (v_conn st);
                         h_redis :=
                           redis_after (h_redis h) (v_redis_conn st) |};
             logged_total := None;
             handed := v_calls st;
             uncaught := Some e |}
      end
  end.






(** The variables when the loop is left, one way or the other. *)
Definition state_of (p : progress) : vars :=
  match p with
  | Running st => st
  | Failed st _ => st
  end.



(* ================================================================== *)
(** * redis_consumer.py *)

Module Consumer.

(** What [json.loads] can return. *)
Inductive json :=
| JNull
| JBool (b : bool)
| JNumber (z : Z)
| JString (s : str)
| JArray (items : list json)
| JObject (members : list (string * json)).

Inductive effect :=
| LogProcessing (license_type user_name action : json)
| LogShutdown
| LogError (e : exn)
| Sleep (seconds : nat).

Fixpoint lookup (m : list (string * json)) (key : string) : option json :=
  match m with
  | [] => None
  | (k, v) :: m' => if String.eqb k key then Some v else lookup m' key
  end.

(** [event[key]] *)
Definition subscript (event : json) (key : string) : result json :=
  match event with
  | JObject m =>
      match lookup m key with
      | Some v => Ok v
      | None => Raise KeyError
      end
  | _ => Raise TypeError
  end.

Definition process_event (event : json) : result (list effect) :=
  license_type <- subscript event "license_type" ;;
  user_name <- subscript event "user_name" ;;
  action <- subscript event "action" ;;
  Ok [LogProcessing license_type user_name action].

(** The result of [r.blpop(REDIS_QUEUE_NAME, timeout=5)]: a pair of queue
    name and data, [None] when the wait timed out, or an exception. *)
Inductive blpop_result :=
| Returned (v : option (str * str))
| Raised (e : exn).

Definition truthy (data : str) : bool :=
  negb (Nat.eqb (List.length data) 0).

(** The [try] block of the loop; [loads] is [json.loads]. *)
Definition try_body (loads : str -> result json) (p : blpop_result)
  : result (list effect) :=
  match p with
  | Raised e => Raise e
  | Returned None => Raise TypeError
  | Returned (Some (_, data)) =>
      if truthy data then
        event <- loads data ;;
        process_event event
      else Ok [Sleep 1]
  end.

(** Where an iteration of the loop ends: back at the top of the loop, in
    the handler of [except Exception], at the [break], or with an
    exception that nothing catches. *)
Inductive phase := Listening | Backoff | Stopped | Aborted.

(** An iteration that no interrupt from outside disturbs. *)
Definition iteration (loads : str -> result json) (p : blpop_result)
  : phase * list effect :=
  match try_body loads p with
  | Ok effects => (Listening, effects)
  | Raise KeyboardInterrupt => (Stopped, [LogShutdown])
  | Raise e => (Backoff, [LogError e; Sleep 5])
  end.

(** When the interrupt of the user arrives, if it does: while the [try]
    block runs (the pop, the decoding, the processing or its pause of 1),
    or while the handler of [except Exception] runs (its log or its pause
    of 5). *)
Inductive arrival := Never | InTry | InHandler.

(** An iteration of the loop.  An interrupt in the [try] block is caught
    by [except KeyboardInterrupt].  The handler of [except Exception] is
    not inside a [try]: an interrupt that arrives there ends its pause,
    and the exception leaves [main]. *)
Definition step (loads : str -> result json) (p : blpop_result)
  (when : arrival) : phase * list effect :=
  match when with
  | Never => iteration loads p
  | InTry => (Stopped, [LogShutdown])
  | InHandler =>
      match try_body loads p with
      | Raise e =>
          if is_Exception e then (Aborted, [LogError e])
          else iteration loads p
      | Ok _ => iteration loads p
      end
  end.

(** [main] against the successive results of [blpop], each with the
    arrival of an interrupt; the loop goes on as long as the results last
    and it is not left. *)
Fixpoint main (loads : str -> result json)
  (pops : list (blpop_result * arrival)) : list (phase * list effect) :=
  match pops with
  | [] => []
  | (p, when) :: pops' =>
      let it := step loads p when in
      match fst it with
      | Stopped | Aborted => [it]
      | _ => it :: main loads pops'
      end
  end.

End Consumer.

(* ================================================================== *)
(** * What the statements below talk about *)

(** A matcher is sound for a set of texts when a success means that the
    continuation succeeded after one of these texts. *)
Definition sound_for (m : cont -> cont) (P : str -> Prop) : Prop :=
  forall k i s c c',
    m k i s c = Some c' ->
    exists w s' c1,
      s = w ++ s' /\ P w /\ k (i + List.length w) s' c1 = Some c'.

(** The action values the specification enumerates. *)
Definition SPEC_ACTIONS : list str :=
  map codepoints ["Grant"; "Detachment"; "TimeOut"; "NotGranted"].

(** The keywords of [LOG_PATTERN], as the pattern spells them. *)
Definition KEYWORDS : list str :=
  map codepoints ["Grant"; "Detachment"; "TimeOut"; "not granted"].

Definition denied_line : str :=
  "2024/01/15 09:30:00:123 E LICENSE_SVC user1@workstation1 192.168.1.10 !MATLAB!Vendor not granted".

Definition shouting_line : str :=
  "2024/01/15 09:30:00:123 E LICENSE_SVC user1@workstation1 192.168.1.10 !MATLAB!Vendor GRANT".

Definition shouting_entry : dict :=
  [("timestamp", PyStr "2024/01/15 09:30:00:123");
   ("log_level", PyStr "E"); ("component", PyStr "LICENSE_SVC");
   ("action", PyStr "GRANT"); ("license_type", PyStr "MATLAB");
   ("user_name", PyStr "user1"); ("client_ip", PyStr "192.168.1.10");
   ("raw_message", PyStr shouting_line)].

Definition odd_ip_line : str :=
  "2024/01/15 09:30:00:123 E LICENSE_SVC user1@workstation1 999.999.999.999 !MATLAB!Vendor Grant".

(** A line with two keywords. *)
Definition late_grant_line : str :=
  "2024/01/15 09:30:00:123 E LICENSE_SVC TimeOut of user1, then Grant".

Definition late_grant_entry : dict :=
  [("timestamp", PyStr "2024/01/15 09:30:00:123");
   ("log_level", PyStr "E"); ("component", PyStr "LICENSE_SVC");
   ("action", PyStr "TimeOut"); ("license_type", PyStr "Unknown");
   ("user_name", PyStr "Unknown"); ("client_ip", PyStr "Unknown");
   ("raw_message", PyStr late_grant_line)].

(** A line with a long last group of digits in the address. *)
Definition long_octet_line : str :=
  "2024/01/15 09:30:00:123 E LICENSE_SVC 10.20.30.45678 Grant".

Definition long_octet_entry : dict :=
  [("timestamp", PyStr "2024/01/15 09:30:00:123");
   ("log_level", PyStr "E"); ("component", PyStr "LICENSE_SVC");
   ("action", PyStr "Grant"); ("license_type", PyStr "Unknown");
   ("user_name", PyStr "Unknown"); ("client_ip", PyStr "10.20.30.456");
   ("raw_message", PyStr long_octet_line)].

(** The characters U+0131, U+017F and U+212A: a dotless i, a long s and
    the Kelvin sign. *)
Definition DOTLESS_I : char := 305%N.
Definition LONG_S : char := 383%N.
Definition KELVIN : char := 8490%N.

(** A line whose level is the Kelvin sign, whose component holds a long
    s and whose keyword is spelled with a dotless i. *)
Definition turkish_line : str :=
  codepoints "2024/01/15 09:30:00:123 " ++ [KELVIN]
  ++ codepoints " LICEN" ++ [LONG_S] ++ codepoints "E_SVC T"
  ++ [DOTLESS_I] ++ codepoints "meOut".

Definition turkish_entry : dict :=
  [("timestamp", PyStr "2024/01/15 09:30:00:123");
   ("log_level", PyStr [KELVIN]);
   ("component", PyStr (codepoints "LICEN" ++ [LONG_S] ++ codepoints "E_SVC"));
   ("action", PyStr (char_of "T" :: DOTLESS_I :: codepoints "meOut"));
   ("license_type", PyStr "Unknown");
   ("user_name", PyStr "Unknown"); ("client_ip", PyStr "Unknown");
   ("raw_message", PyStr turkish_line)].

(** A [json.loads] that rejects every text; the timeout path never
    calls it. *)
Definition loads_nothing : str -> result Consumer.json :=
  fun _ => Raise ValueError.

(** The durations an iteration sleeps. *)
Definition sleeps (effects : list Consumer.effect) : list nat :=
  flat_map (fun x => match x with Consumer.Sleep n => [n] | _ => [] end)
           effects.

(** [raw_message] of a line. *)
Definition raw_of (line : str) : str := rstrip_newline line.

(** The fingerprint the archiver gives to a line. *)
Definition fingerprint (line : str) : str := sha1_hex (raw_of line).

(** The entry the loop of [process_log_file] appends for a line. *)
Definition entry_of (line : str) : list dict :=
  if is_blank line then []
  else
    match parse_log_line line with
    | Some e => [dict_set e "raw_hash" (PyStr (fingerprint line))]
    | None => []
    end.

Definition entries (lines : list str) : list dict :=
  flat_map entry_of lines.

Definition EVENT_FIELDS : list string :=
  ["timestamp"; "log_level"; "component"; "action"; "license_type";
   "user_name"; "client_ip"; "raw_message"].

Definition field (e : dict) (key : string) : pyval :=
  match dict_get e key with
  | Some v => v
  | None => PyNone
  end.

Definition row_of (e : dict) : log_row :=
  {| r_timestamp := field e "timestamp";
     r_log_level := field e "log_level";
     r_component := field e "component";
     r_action := field e "action";
     r_license_type := field e "license_type";
     r_user_name := field e "user_name";
     r_client_ip := field e "client_ip";
     r_raw_message := field e "raw_message";
     r_raw_hash := field e "raw_hash" |}.

Definition file_lines (f : file) : list str :=
  match f with
  | Readable lines => lines
  | Unreadable lines => lines
  end.

(** The number of entries [process_log_file] reports for a file. *)
Definition count_of (f : file) : nat :=
  match f with
  | Readable lines => List.length (entries lines)
  | Unreadable _ => 0
  end.

(** The same machine with another state of the queue service. *)
Definition with_redis (w : world) (env : redis_env) : world :=
  {| log_directory := log_directory w;
     tracker := tracker w;
     db_file := db_file w;
     redis_server := env |}.

(** Two states of [main] that differ at most in the queue connection. *)
Definition same_archive (a b : run_state) : Prop :=
  conn a = conn b /\ parsed_files a = parsed_files b
  /\ total_parsed a = total_parsed b /\ processed a = processed b.


(** A directory with two matching lines in one file. *)
Definition busy_world : world :=
  {| log_directory :=
       Some [("server.log",
              Readable [example_line; codepoints "restart"; denied_line])];
     tracker := TrackerCorrupt;
     db_file := None;
     redis_server := RedisNotInstalled |}.


(** The line matches [LOG_PATTERN]. *)
Definition matches_pattern (line : str) : bool :=
  match search true LOG_PATTERN line with
  | Some _ => true
  | None => false
  end.

(** The distinct raw lines of a file that match the pattern. *)
Definition distinct_raw_lines (f : file) : list str :=
  nodup str_dec (map raw_of (filter matches_pattern (file_lines f))).

(** A row with this fingerprint is stored. *)
Definition hash_present (h : pyval) (rows : list log_row) : bool :=
  existsb (hash_conflict h) rows.

Definition hashed (r : log_row) : Prop :=
  exists s, r_raw_hash r = PyStr s.

Definition is_hex_digit (a : char) : bool :=
  existsb (N.eqb a) (codepoints "0123456789abcdef").

(** The name of a member as it stands in the text. *)
Definition key_text (kv : string * pyval) : str :=
  flat_map Json.escape_char (codepoints (fst kv)).

(** Reading back the member names of a JSON object whose values are
    strings or null, as [json.dumps] writes it. *)
Module JsonScan.

(** The text of a JSON string up to its closing quote, escapes kept, and
    what follows the quote. *)
Fixpoint string_body (s : str) : option (str * str) :=
  match s with
  | [] => None
  | c :: s' =>
      if N.eqb c Chars.dquote then Some ([], s')
      else if N.eqb c Chars.backslash then
        match s' with
        | [] => None
        | d :: s'' =>
            match string_body s'' with
            | Some (w, rest) => Some (c :: d :: w, rest)
            | None => None
            end
        end
      else
        match string_body s' with
        | Some (w, rest) => Some (c :: w, rest)
        | None => None
        end
  end.

Fixpoint has_prefix (p s : str) : bool :=
  match p, s with
  | [], _ => true
  | a :: p', b :: s' => N.eqb a b && has_prefix p' s'
  | _ :: _, [] => false
  end.

Definition skip (p s : str) : option str :=
  if has_prefix p s then Some (skipn (List.length p) s) else None.

(** What follows a value. *)
Definition value (s : str) : option str :=
  match s with
  | c :: s' =>
      if N.eqb c Chars.dquote then option_map snd (string_body s')
      else skip (codepoints "null") s
  | [] => None
  end.

(** What follows a member: the closing brace, or a comma, a space and
    more members. *)
Definition after_member (s : str) : option (option str) :=
  match s with
  | [c] => if N.eqb c (char_of "}") then Some None else None
  | c :: d :: s' =>
      if N.eqb c (char_of ",") && N.eqb d (char_of " ") then Some (Some s')
      else None
  | [] => None
  end.

(** The names of the members, from the opening quote of the first name to
    the closing brace. *)
Fixpoint members (fuel : nat) (s : str) : option (list str) :=
  match fuel with
  | O => None
  | S fuel' =>
      match s with
      | q :: s1 =>
          if N.eqb q Chars.dquote then
            match string_body s1 with
            | Some (key, s2) =>
                match skip (codepoints ": ") s2 with
                | Some s3 =>
                    match value s3 with
                    | Some s4 =>
                        match after_member s4 with
                        | Some None => Some [key]
                        | Some (Some s5) =>
                            option_map (cons key) (members fuel' s5)
                        | None => None
                        end
                    | None => None
                    end
                | None => None
                end
            | None => None
            end
          else None
      | [] => None
      end
  end.

Definition object_keys (msg : str) : option (list str) :=
  match msg with
  | c :: s =>
      if N.eqb c (char_of "{") then
        match s with
        | [d] => if N.eqb d (char_of "}") then Some [] else None
        | _ => members (List.length s) s
        end
      else None
  | [] => None
  end.

End JsonScan.

(** The queue after [process_log_file] on a file, from a connection. *)
Definition queue_after (f : file) (db : database) (r : redis)
  : list str :=
  match snd (process_log_file f db (Some r)) with
  | Some r' => queue r'
  | None => []
  end.

Definition idle_redis : redis := {| queue := []; faults := [] |}.
Definition empty_db : database := {| meta := [SCHEMA_VERSION]; logs := [] |}.

(* ================================================================== *)
(** * The exact language of a pattern *)

(** The number of iterations a repeat allows. *)
Definition within (lo : nat) (hi : option nat) (n : nat) : Prop :=
  lo <= n /\ match hi with Some h => n <= lo + (h - lo) | None => True end.

(** [derives ic r w]: the text [w] is in the language of [r], the
    bounds of the repeats included; the anchor derives the empty text. *)
Inductive derives (ic : bool) : regex -> str -> Prop :=
| DEmpty : derives ic Empty []
| DBol : derives ic Bol []
| DAnyChar a :
    N.eqb a Chars.newline = false -> derives ic AnyChar [a]
| DLit ch a : lit_match ic ch a = true -> derives ic (Lit ch) [a]
| DCat ct a : cat_match ct a = true -> derives ic (Cat ct) [a]
| DInSet neg items a :
    set_match ic neg items a = true -> derives ic (InSet neg items) [a]
| DSeq r1 r2 w1 w2 :
    derives ic r1 w1 -> derives ic r2 w2 -> derives ic (Seq r1 r2) (w1 ++ w2)
| DAltL r1 r2 w : derives ic r1 w -> derives ic (Alt r1 r2) w
| DAltR r1 r2 w : derives ic r2 w -> derives ic (Alt r1 r2) w
| DRepeat lo hi greedy r ws :
    Forall (derives ic r) ws ->
    within lo hi (List.length ws) ->
    derives ic (Repeat lo hi greedy r) (List.concat ws)
| DGroup n r w : derives ic r w -> derives ic (Group n r) w.

(** The pattern has no group numbered [n]. *)
Fixpoint no_group (n : nat) (r : regex) : bool :=
  match r with
  | Seq r1 r2 | Alt r1 r2 => no_group n r1 && no_group n r2
  | Repeat _ _ _ r' => no_group n r'
  | Group m r' => negb (Nat.eqb m n) && no_group n r'
  | _ => true
  end.

(** A continuation that leaves the capture of group [n] as it is. *)
Definition keeps (n : nat) (k : cont) : Prop :=
  forall i s c c', k i s c = Some c' -> group n c' = group n c.

(** Every text of the pattern has a character. *)
Fixpoint consumes (r : regex) : bool :=
  match r with
  | AnyChar | Lit _ | Cat _ | InSet _ _ => true
  | Seq r1 r2 => consumes r1 || consumes r2
  | Alt r1 r2 => consumes r1 && consumes r2
  | Repeat lo _ _ r' => negb (Nat.eqb lo 0) && consumes r'
  | Group _ r' => consumes r'
  | Empty | Bol => false
  end.

(** No anchor, and the body of a repeat without upper bound consumes. *)
Fixpoint plain (r : regex) : bool :=
  match r with
  | Bol => false
  | Seq r1 r2 | Alt r1 r2 => plain r1 && plain r2
  | Repeat _ hi _ r' =>
      plain r' && match hi with None => consumes r' | Some _ => true end
  | Group _ r' => plain r'
  | _ => true
  end.

(** [complete_for m P]: after a text of [P], if the continuation
    succeeds, so does the matcher. *)
Definition complete_for (m : cont -> cont) (P : str -> Prop) : Prop :=
  forall w, P w ->
  forall k i s' c,
    (forall c1, k (i + List.length w) s' c1 <> None) ->
    m k i (w ++ s') c <> None.

(* ================================================================== *)
(** * Sets of characters *)

(** Every character of [l1] is in [l2]. *)
Definition subset (l1 l2 : list char) : bool :=
  forallb (fun x => existsb (N.eqb x) l2) l1.

(** No range of [t1] meets a range of [t2]. *)
Definition apart (t1 t2 : list (N * N)) : bool :=
  forallb (fun r1 =>
             forallb (fun r2 => (snd r1 <? fst r2) || (snd r2 <? fst r1))%N
                     t2)
          t1.

(* ================================================================== *)
(** * The shape of a log line *)

(** The characters [[A-Z]] takes under re.IGNORECASE: the ASCII letters,
    the dotted capital I and the dotless i, the long s and the Kelvin
    sign. *)
Definition is_letter (a : char) : bool :=
  Chars.in_range 65 90 a || Chars.in_range 97 122 a
  || N.eqb a 304 || N.eqb a 305 || N.eqb a 383 || N.eqb a 8490.

Definition LETTERS : list char :=
  (between 65 90 ++ between 97 122 ++ [304; 305; 383; 8490])%N.

Definition is_component_char (a : char) : bool :=
  is_letter a || N.eqb a "_"%char.

Definition not_newline (a : char) : bool := negb (N.eqb a Chars.newline).

(** A text against a mask: [d] in the mask stands for a decimal digit,
    any other character for itself. *)
Fixpoint fits (mask w : str) : bool :=
  match mask, w with
  | [], [] => true
  | m :: mask', a :: w' =>
      (if N.eqb m "d"%char then Chars.is_digit a else N.eqb a m)
      && fits mask' w'
  | _, _ => false
  end.

Definition TIMESTAMP_MASK : str := "dddd/dd/dd dd:dd:dd:ddd".

(** A non-empty run of whitespace. *)
Definition blank_run (w : str) : Prop :=
  w <> [] /\ forallb Chars.is_space w = true.

Definition other_case (c : char) : char :=
  if Chars.is_ascii_upper c then (c + 32)%N
  else if Chars.is_ascii_lower c then (c - 32)%N
  else c.

(** The character [a] of a line stands for the character [k] of a
    keyword: it is [k] in one of its two cases or, where [k] is the
    letter i, the dotted capital I or the dotless i. *)
Definition stands_for (k a : char) : bool :=
  N.eqb a k || N.eqb a (other_case k)
  || ((N.eqb k "i"%char || N.eqb k "I"%char)
      && (N.eqb a 304 || N.eqb a 305)).

(** The text is one of the keywords, letter for letter. *)
Definition spells_keyword (act : str) : Prop :=
  exists k, In k KEYWORDS /\ Forall2 (fun x a => stands_for x a = true) k act.

(** The line, cut as the main pattern cuts it: timestamp, whitespace,
    level, whitespace, component, whitespace, any text, keyword, rest. *)
Definition log_line_cut (l ts sp1 : str) (lv : char)
  (sp2 comp sp3 pre act rest : str) : Prop :=
  l = ts ++ sp1 ++ [lv] ++ sp2 ++ comp ++ sp3 ++ pre ++ act ++ rest
  /\ fits TIMESTAMP_MASK ts = true
  /\ blank_run sp1
  /\ is_letter lv = true
  /\ blank_run sp2
  /\ comp <> [] /\ forallb is_component_char comp = true
  /\ blank_run sp3
  /\ forallb not_newline pre = true
  /\ spells_keyword act.

(** The parts of such a cut that become fields. *)
Definition log_line_parts (l ts : str) (lv : char) (comp act : str)
  : Prop :=
  exists sp1 sp2 sp3 pre rest,
    log_line_cut l ts sp1 lv sp2 comp sp3 pre act rest.

(** A cut of the line with the keyword [act] after the text [before]. *)
Definition keyword_after (l before act : str) : Prop :=
  exists ts sp1 lv sp2 comp sp3 pre rest,
    log_line_cut l ts sp1 lv sp2 comp sp3 pre act rest
    /\ before = ts ++ sp1 ++ [lv] ++ sp2 ++ comp ++ sp3 ++ pre.

(** The test a pattern of one character makes. *)
Definition char_test (ic : bool) (r : regex) : option (char -> bool) :=
  match r with
  | AnyChar => Some not_newline
  | Lit ch => Some (lit_match ic ch)
  | Cat ct => Some (cat_match ct)
  | InSet neg items => Some (set_match ic neg items)
  | _ => None
  end.

(** What follows the anchor in the main pattern. *)
Definition LOG_PATTERN_BODY : regex :=
  seqs [Group 1 TIMESTAMP;
        plus (Cat CatSpace);
        Group 2 (InSet false [az_upper]);
        plus (Cat CatSpace);
        Group 3 (plus (InSet false [az_upper; SChar "_"]));
        plus (Cat CatSpace);
        Group 4 (lazy_star AnyChar);
        Group 5 ACTION_ALTERNATIVES].

(* ================================================================== *)
(** * The shapes the auxiliary patterns look for *)

(** [[A-Za-z0-9_.-]]: ASCII letters and digits and three signs. *)
Definition is_ident_char (a : char) : bool :=
  Chars.in_range "A"%char "Z"%char a || Chars.in_range "a"%char "z"%char a
  || Chars.in_range "0"%char "9"%char a
  || N.eqb a "_"%char || N.eqb a "."%char || N.eqb a "-"%char.

Definition is_host_char (a : char) : bool :=
  Chars.is_word a || N.eqb a "."%char || N.eqb a "-"%char.

Definition is_tag_char (a : char) : bool :=
  negb (N.eqb a "!"%char) && negb (Chars.is_space a).

(** A non-empty run of characters that pass a test. *)
Definition run (p : char -> bool) (w : str) : Prop :=
  w <> [] /\ forallb p w = true.

(** [!<type>!Vendor] *)
Definition vendor_tag (lt w : str) : Prop :=
  run Chars.is_word lt /\ w = char_of "!" :: lt ++ codepoints "!Vendor".

(** [!<type>!<text>] and one whitespace character. *)
Definition loose_tag (lt w : str) : Prop :=
  run Chars.is_word lt /\
  exists x sp,
    w = char_of "!" :: lt ++ char_of "!" :: x ++ [sp]
    /\ run is_tag_char x /\ Chars.is_space sp = true.

(** [<user>@<host>], with or without a bar in front. *)
Definition user_at_host (u w : str) : Prop :=
  run is_ident_char u /\
  exists bar host,
    w = bar ++ u ++ char_of "@" :: host
    /\ (bar = [] \/ bar = [char_of "|"]) /\ run is_host_char host.

(** [|<user>|] *)
Definition user_in_bars (u w : str) : Prop :=
  run is_ident_char u /\ w = char_of "|" :: u ++ [char_of "|"].

Definition is_octet (o : str) : bool :=
  forallb Chars.is_digit o && Nat.leb 1 (List.length o)
  && Nat.leb (List.length o) 3.

(** Four groups of one to three decimal digits, with dots between them. *)
Definition dotted_quad (v w : str) : Prop :=
  v = w /\
  exists o1 o2 o3 o4,
    w = o1 ++ char_of "." :: o2 ++ char_of "." :: o3 ++ char_of "." :: o4
    /\ is_octet o1 = true /\ is_octet o2 = true
    /\ is_octet o3 = true /\ is_octet o4 = true.

(** The line has a part of the form. *)
Definition has (form : str -> str -> Prop) (l : str) : Prop :=
  exists a w b v, l = a ++ w ++ b /\ form v w.

(** [v] is the value of the leftmost part of the line of the form. *)
Definition leftmost (form : str -> str -> Prop) (l v : str) : Prop :=
  exists a w b,
    l = a ++ w ++ b /\ form v w
    /\ forall a' w' b' v',
         l = a' ++ w' ++ b' -> form v' w' -> List.length a <= List.length a'.

(** [v] is the value of the part of the line of the form that starts
    leftmost and, of those that start there, is the longest. *)
Definition leftmost_longest (form : str -> str -> Prop) (l v : str)
  : Prop :=
  exists a w b,
    l = a ++ w ++ b /\ form v w
    /\ forall a' w' b' v',
         l = a' ++ w' ++ b' -> form v' w' ->
         List.length a <= List.length a'
         /\ (List.length a' = List.length a ->
             List.length w' <= List.length w).

Definition UNKNOWN : str := "Unknown".

(** The three auxiliary fields, as [parse_log_line] computes them. *)
Definition license_type_of (l : str) : pyval :=
  match search false LICENSE_VENDOR l with
  | None =>
      match search false LICENSE_LOOSE l with
      | Some mlt => group_val 1 mlt
      | None => PyStr "Unknown"
      end
  | Some license_type_match => group_val 1 license_type_match
  end.

Definition user_name_of (l : str) : pyval :=
  match
    match search false USER_AT l with
    | None => search false USER_PIPES l
    | Some u => Some u
    end
  with
  | Some u => group_val 1 u
  | None => PyStr "Unknown"
  end.

Definition client_ip_of (l : str) : pyval :=
  match search false IP_PATTERN l with
  | Some ip_match => group_val 1 ip_match
  | None => PyStr "Unknown"
  end.

(* ================================================================== *)
(** * The archive, the queue and the run *)

(** The value is a string, not [None]. *)
Definition is_str (v : pyval) : Prop := exists s, v = PyStr s.

(** The rows of the database file before a run. *)
Definition stored_rows (s : option database) : list log_row :=
  match s with
  | Some d => logs d
  | None => []
  end.

(** The fingerprints of the rows that have one. *)
Definition hashes (rows : list log_row) : list str :=
  flat_map (fun r => match r_raw_hash r with
                     | PyStr s => [s]
                     | PyNone => []
                     end) rows.

(** No two rows have the same fingerprint. *)
Definition unique_hashes (rows : list log_row) : Prop := NoDup (hashes rows).

(** The fingerprint of the row is the hash of its raw message. *)
Definition fingerprinted (r : log_row) : Prop :=
  exists raw,
    r_raw_message r = PyStr raw /\ r_raw_hash r = PyStr (sha1_hex raw).

(** The entries whose push does not fail, for the given fault flags. *)
Fixpoint delivered (es : list dict) (fs : list bool) : list dict :=
  match es, fs with
  | [], _ => []
  | _, [] => es
  | _ :: es', true :: fs' => delivered es' fs'
  | e :: es', false :: fs' => e :: delivered es' fs'
  end.

(** One call of [process_log_file] by [main], on the store and the queue
    connection. *)
Definition ingest (dir : directory) (s : database * option redis)
  (f : string) : database * option redis :=
  let res := process_log_file (open_file dir f) (fst s) (snd s) in
  (snd (fst res), snd res).

Definition has_entries (dir : directory) (f : string) : bool :=
  Nat.ltb 0 (count_of (open_file dir f)).

Definition connection_queue (rc : option redis) : list str :=
  match rc with
  | Some r => queue r
  | None => []
  end.



(* ================================================================== *)
(** * Reading a payload back *)

(** Reading back the text [json.dumps] writes for a dict of strings and
    [None]: the members with their values, the escapes undone. *)
Module JsonRead.

Definition unhex (a : char) : option N :=
  if Chars.in_range 48 57 a then Some (a - 48)%N
  else if Chars.in_range 97 102 a then Some (a - 87)%N
  else if Chars.in_range 65 70 a then Some (a - 55)%N
  else None.

(** The character a two-character escape stands for. *)
Definition unescape (e : char) : option char :=
  if N.eqb e Chars.dquote then Some Chars.dquote
  else if N.eqb e Chars.backslash then Some Chars.backslash
  else if N.eqb e "/"%char then Some (char_of "/")
  else if N.eqb e "b"%char then Some 8%N
  else if N.eqb e "f"%char then Some 12%N
  else if N.eqb e "n"%char then Some 10%N
  else if N.eqb e "r"%char then Some 13%N
  else if N.eqb e "t"%char then Some 9%N
  else None.

(** The characters of a JSON string up to its closing quote, and what
    follows the quote.  A raw control character is not allowed; an
    escape [\uXXXX] gives the character of that number. *)
Fixpoint string_text (s : str) : option (str * str) :=
  match s with
  | [] => None
  | c :: s1 =>
      if N.eqb c Chars.dquote then Some ([], s1)
      else if N.eqb c Chars.backslash then
        match s1 with
        | [] => None
        | e :: s2 =>
            if N.eqb e "u"%char then
              match s2 with
              | h1 :: h2 :: h3 :: h4 :: s3 =>
                  match unhex h1, unhex h2, unhex h3, unhex h4 with
                  | Some x1, Some x2, Some x3, Some x4 =>
                      match string_text s3 with
                      | Some (w, rest) =>
                          Some ((((x1 * 16 + x2) * 16 + x3) * 16 + x4)%N
                                :: w, rest)
                      | None => None
                      end
                  | _, _, _, _ => None
                  end
              | _ => None
              end
            else
              match unescape e, string_text s2 with
              | Some a, Some (w, rest) => Some (a :: w, rest)
              | _, _ => None
              end
        end
      else if (c <? 32)%N then None
      else
        match string_text s1 with
        | Some (w, rest) => Some (c :: w, rest)
        | None => None
        end
  end.

(** A value, a string or [null], and what follows it. *)
Definition value (s : str) : option (pyval * str) :=
  match s with
  | c :: s' =>
      if N.eqb c Chars.dquote then
        match string_text s' with
        | Some (w, rest) => Some (PyStr w, rest)
        | None => None
        end
      else
        match JsonScan.skip (codepoints "null") s with
        | Some rest => Some (PyNone, rest)
        | None => None
        end
  | [] => None
  end.

(** The name of a member: the program writes names of the standard
    library's strings, and another name is not read. *)
Definition name_of (key : str) : option string :=
  if forallb (fun c => (c <? 256)%N) key
  then Some (string_of_list_ascii (map ascii_of_N key))
  else None.

(** The members, from the opening quote of the first name to the closing
    brace. *)
Fixpoint members (fuel : nat) (s : str) : option dict :=
  match fuel with
  | O => None
  | S fuel' =>
      match s with
      | q :: s1 =>
          if N.eqb q Chars.dquote then
            match string_text s1 with
            | Some (key, s2) =>
                match name_of key,
                      JsonScan.skip (codepoints ": ") s2 with
                | Some name, Some s3 =>
                    match value s3 with
                    | Some (v, s4) =>
                        match JsonScan.after_member s4 with
                        | Some None => Some [(name, v)]
                        | Some (Some s5) =>
                            option_map (cons (name, v)) (members fuel' s5)
                        | None => None
                        end
                    | None => None
                    end
                | _, _ => None
                end
            | None => None
            end
          else None
      | [] => None
      end
  end.

Definition loads_object (msg : str) : option dict :=
  match msg with
  | c :: s =>
      if N.eqb c (char_of "{") then
        match s with
        | [d] => if N.eqb d (char_of "}") then Some [] else None
        | _ => members (List.length s) s
        end
      else None
  | [] => None
  end.

End JsonRead.

(** The value [json.loads] returns for the text [json.dumps] writes for
    a dict of strings and [None]. *)
Definition to_json (e : dict) : Consumer.json :=
  Consumer.JObject
    (map (fun kv => (fst kv,
                     match snd kv with
                     | PyStr s => Consumer.JString s
                     | PyNone => Consumer.JNull
                     end)) e).

(** A decoder for the payloads of the archiver. *)
Definition loads_payload (data : str) : result Consumer.json :=
  match JsonRead.loads_object data with
  | Some d => Ok (to_json d)
  | None => Raise ValueError
  end.

(** A [blpop] that raises the interrupt, or a payload whose decoding
    does. *)
Definition interrupts (loads : str -> result Consumer.json)
  (p : Consumer.blpop_result) : Prop :=
  Consumer.try_body loads p = Raise KeyboardInterrupt.

(** The interrupt reaches the iteration inside its [try] block. *)
Definition stops_in_try (loads : str -> result Consumer.json)
  (pi : Consumer.blpop_result * Consumer.arrival) : Prop :=
  snd pi = Consumer.InTry \/ interrupts loads (fst pi).

(** An iteration that ends in the handler of [except Exception], with
    the interrupt arriving there. *)
Definition dies_in_handler (loads : str -> result Consumer.json)
  (pi : Consumer.blpop_result * Consumer.arrival) : Prop :=
  snd pi = Consumer.InHandler
  /\ fst (Consumer.iteration loads (fst pi)) = Consumer.Backoff.
(* ================================================================== *)
(** * Facts about the matcher *)

Section MatcherSoundness.

Variable ic : bool.

Lemma one_char_sound (p : char -> bool) :
  sound_for (one_char p) (fun w => exists a, w = [a] /\ p a = true).
Proof.
  intros k i s c c' H. unfold one_char in H.
  destruct s as [|a s']; [discriminate|].
  destruct (p a) eqn:Hp; [|discriminate].
  exists [a], s', c. repeat split.
  - exists a. auto.
  - simpl. now rewrite Nat.add_1_r.
Qed.

Lemma rep_exact_sound m P n :
  sound_for m P ->
  sound_for (rep_exact m n)
    (fun w => exists ws,
         w = List.concat ws /\ Forall P ws /\ List.length ws = n).
Proof.
  intros Hm. induction n as [|n IH]; intros k i s c c' H; simpl in H.
  - exists [], s, c. repeat split.
    + exists []. repeat split. constructor.
    + simpl. now rewrite Nat.add_0_r.
  - apply Hm in H. destruct H as (w1 & s1 & c1 & -> & Hw1 & H).
    apply IH in H.
    destruct H as (w2 & s2 & c2 & -> & (ws & -> & Hws & Hlen) & H).
    exists (w1 ++ List.concat ws), s2, c2. repeat split.
    + now rewrite app_assoc.
    + exists (w1 :: ws). repeat split; simpl; auto.
    + rewrite length_app, Nat.add_assoc. exact H.
Qed.

Lemma rep_upto_bound m P greedy n :
  sound_for m P ->
  sound_for (rep_upto m greedy n)
    (fun w => exists ws,
         w = List.concat ws /\ Forall P ws /\ List.length ws <= n).
Proof.
  intros Hm. induction n as [|n IH]; intros k i s c c' H; simpl in H.
  - exists [], s, c. repeat split.
    + exists []. repeat split; [constructor|apply Nat.le_refl].
    + simpl. now rewrite Nat.add_0_r.
  - assert (Hstop : k i s c = Some c' ->
              exists w s' c1, s = w ++ s' /\
                (exists ws, w = List.concat ws /\ Forall P ws
                            /\ List.length ws <= S n) /\
                k (i + List.length w) s' c1 = Some c').
    { intros Hk. exists [], s, c. repeat split.
      - exists []. repeat split; [constructor|simpl; lia].
      - simpl. now rewrite Nat.add_0_r. }
    assert (Hmore : m (rep_upto m greedy n k) i s c = Some c' ->
              exists w s' c1, s = w ++ s' /\
                (exists ws, w = List.concat ws /\ Forall P ws
                            /\ List.length ws <= S n) /\
                k (i + List.length w) s' c1 = Some c').
    { intros Hk. apply Hm in Hk.
      destruct Hk as (w1 & s1 & c1 & -> & Hw1 & Hk).
      apply IH in Hk.
      destruct Hk as (w2 & s2 & c2 & -> & (ws & -> & Hws & Hlen) & Hk).
      exists (w1 ++ List.concat ws), s2, c2. repeat split.
      - now rewrite app_assoc.
      - exists (w1 :: ws). repeat split; simpl; auto. lia.
      - rewrite length_app, Nat.add_assoc. exact Hk. }
    destruct greedy.
    + destruct (m (rep_upto m true n k) i s c) eqn:E in H.
      * apply Hmore. now rewrite E.
      * now apply Hstop.
    + destruct (k i s c) eqn:E in H.
      * apply Hstop. now rewrite E.
      * now apply Hmore.
Qed.

(** A successful match consumed a text the pattern derives and then ran
    the continuation. *)
Lemma rmatch_exact (r : regex) : sound_for (rmatch ic r) (derives ic r).
Proof.
  induction r as [| | |ch|ct|neg items|r1 IH1 r2 IH2|r1 IH1 r2 IH2
                 |lo hi greedy r IH|n r IH];
    intros k i s c c' H; simpl in H.
  - exists [], s, c. repeat split; [constructor|].
    simpl. now rewrite Nat.add_0_r.
  - destruct (Nat.eqb i 0); [|discriminate].
    exists [], s, c. repeat split; [constructor|].
    simpl. now rewrite Nat.add_0_r.
  - apply one_char_sound in H.
    destruct H as (w & s' & c1 & -> & (a & -> & Ha) & H).
    exists [a], s', c1. repeat split; auto. constructor.
    now apply negb_true_iff in Ha.
  - apply one_char_sound in H.
    destruct H as (w & s' & c1 & -> & (a & -> & Ha) & H).
    exists [a], s', c1. repeat split; auto. now constructor.
  - apply one_char_sound in H.
    destruct H as (w & s' & c1 & -> & (a & -> & Ha) & H).
    exists [a], s', c1. repeat split; auto. now constructor.
  - apply one_char_sound in H.
    destruct H as (w & s' & c1 & -> & (a & -> & Ha) & H).
    exists [a], s', c1. repeat split; auto. now constructor.
  - apply IH1 in H. destruct H as (w1 & s1 & c1 & -> & Hw1 & H).
    apply IH2 in H. destruct H as (w2 & s2 & c2 & -> & Hw2 & H).
    exists (w1 ++ w2), s2, c2. repeat split.
    + now rewrite app_assoc.
    + now constructor.
    + rewrite length_app, Nat.add_assoc. exact H.
  - destruct (rmatch ic r1 k i s c) eqn:E.
    + injection H as <-. apply IH1 in E.
      destruct E as (w & s' & c1 & -> & Hw & E).
      exists w, s', c1. repeat split; auto. now apply DAltL.
    + apply IH2 in H. destruct H as (w & s' & c1 & -> & Hw & H).
      exists w, s', c1. repeat split; auto. now apply DAltR.
  - apply (rep_exact_sound _ _ lo IH) in H.
    destruct H as (w1 & s1 & c1 & Es & (ws1 & -> & Hws1 & Hlen) & H).
    apply (rep_upto_bound _ _ greedy _ IH) in H.
    destruct H as (w2 & s2 & c2 & -> & (ws2 & -> & Hws2 & Hle) & H).
    exists (List.concat ws1 ++ List.concat ws2), s2, c2. repeat split.
    + now rewrite <- app_assoc.
    + rewrite <- concat_app. constructor.
      * apply Forall_app. now split.
      * rewrite length_app. split; [lia|].
        destruct hi as [h|]; [lia|exact I].
    + rewrite length_app, Nat.add_assoc. exact H.
  - apply IH in H. destruct H as (w & s' & c1 & -> & Hw & H).
    exists w, s', ((n, w) :: c1). repeat split.
    + now constructor.
    + replace (i + List.length w - i) with (List.length w) in H by lia.
      rewrite firstn_app, Nat.sub_diag, firstn_all in H. simpl in H.
      now rewrite app_nil_r in H.
Qed.

End MatcherSoundness.

(* ------------------------------------------------------------------ *)
(** ** Captures *)

Section Captures.

Variable ic : bool.
Variable n : nat.

Lemma accept_keeps : keeps n accept.
Proof. intros i s c c' H. injection H as <-. reflexivity. Qed.

Lemma one_char_keeps p k : keeps n k -> keeps n (one_char p k).
Proof.
  intros Hk i s c c' H. unfold one_char in H.
  destruct s as [|a s']; [discriminate|].
  destruct (p a); [|discriminate]. now apply Hk in H.
Qed.

Lemma rep_exact_keeps (m : cont -> cont) j :
  (forall k, keeps n k -> keeps n (m k)) ->
  forall k, keeps n k -> keeps n (rep_exact m j k).
Proof.
  intros Hm. induction j as [|j IH]; intros k Hk; simpl; [exact Hk|].
  apply Hm, IH, Hk.
Qed.

Lemma rep_upto_keeps (m : cont -> cont) greedy j :
  (forall k, keeps n k -> keeps n (m k)) ->
  forall k, keeps n k -> keeps n (rep_upto m greedy j k).
Proof.
  intros Hm. induction j as [|j IH]; intros k Hk; simpl; [exact Hk|].
  intros i s c c' H. destruct greedy.
  - destruct (m (rep_upto m true j k) i s c) eqn:E.
    + injection H as <-. apply (Hm _ (IH k Hk)) in E. exact E.
    + now apply Hk in H.
  - destruct (k i s c) eqn:E.
    + injection H as <-. now apply Hk in E.
    + apply (Hm _ (IH k Hk)) in H. exact H.
Qed.

(** A pattern without group [n] leaves the capture of group [n] alone. *)
Lemma rmatch_keeps (r : regex) :
  no_group n r = true -> forall k, keeps n k -> keeps n (rmatch ic r k).
Proof.
  induction r as [| | |ch|ct|neg items|r1 IH1 r2 IH2|r1 IH1 r2 IH2
                 |lo hi greedy r IH|g r IH];
    intros Hn k Hk; simpl in Hn |- *;
    try (now apply one_char_keeps); try exact Hk.
  - intros i s c c' H. destruct (Nat.eqb i 0); [|discriminate].
    now apply Hk in H.
  - apply andb_true_iff in Hn. destruct Hn as [H1 H2].
    apply IH1; [exact H1|]. now apply IH2.
  - apply andb_true_iff in Hn. destruct Hn as [H1 H2].
    intros i s c c' H. destruct (rmatch ic r1 k i s c) eqn:E.
    + injection H as <-. now apply (IH1 H1 k Hk) in E.
    + now apply (IH2 H2 k Hk) in H.
  - intros i s c c' H.
    apply (rep_exact_keeps _ lo (IH Hn)) in H; [exact H|].
    apply rep_upto_keeps; [exact (IH Hn)|exact Hk].
  - apply andb_true_iff in Hn. destruct Hn as [H1 H2].
    apply negb_true_iff in H1.
    intros i s c c' H.
    apply (IH H2) in H; [exact H|].
    intros i' s' c0 c0' H'. apply Hk in H'. rewrite H'. simpl.
    now rewrite H1.
Qed.

End Captures.

(** One step through a sequence. *)
Lemma seq_step ic r1 r2 k i s c c' :
  rmatch ic (Seq r1 r2) k i s c = Some c' ->
  exists w s' c1,
    s = w ++ s' /\ derives ic r1 w /\
    rmatch ic r2 k (i + List.length w) s' c1 = Some c'.
Proof. simpl. intros H. now apply rmatch_exact in H. Qed.

(** One step through a group of a sequence: the text of the group is what
    [m.group(n)] returns when no later part of the pattern has a group
    with that number. *)
Lemma seq_group_step ic n r rest k i s c c' :
  no_group n rest = true -> keeps n k ->
  rmatch ic (Seq (Group n r) rest) k i s c = Some c' ->
  exists w s' c1,
    s = w ++ s' /\ derives ic r w /\ group n c' = Some w /\
    rmatch ic rest k (i + List.length w) s' c1 = Some c'.
Proof.
  intros Hn Hk H. simpl in H. apply rmatch_exact in H.
  destruct H as (w & s' & c1 & -> & Hw & H).
  replace (i + List.length w - i) with (List.length w) in H by lia.
  rewrite firstn_app, Nat.sub_diag, firstn_all in H. simpl in H.
  rewrite app_nil_r in H.
  exists w, s', ((n, w) :: c1). repeat split; auto.
  apply (rmatch_keeps ic n rest Hn k Hk) in H. rewrite H. simpl.
  now rewrite Nat.eqb_refl.
Qed.

(** The anchor passes at position 0 only. *)
Lemma bol_step ic r k i s c c' :
  rmatch ic (Seq Bol r) k i s c = Some c' ->
  i = 0 /\ rmatch ic r k 0 s c = Some c'.
Proof.
  simpl. destruct (Nat.eqb i 0) eqn:E; [|discriminate].
  apply Nat.eqb_eq in E. subst i. auto.
Qed.

(** [search] returns the match at the leftmost position that has one. *)
Lemma search_from_split ic r s : forall i m,
  search_from ic r i s = Some m ->
  exists pre suf,
    s = pre ++ suf /\
    rmatch ic r accept (i + List.length pre) suf [] = Some m /\
    forall pre' suf',
      s = pre' ++ suf' -> List.length pre' < List.length pre ->
      rmatch ic r accept (i + List.length pre') suf' [] = None.
Proof.
  induction s as [|a s IH]; intros i m H; simpl in H.
  - destruct (rmatch ic r accept i [] []) eqn:E; [|discriminate].
    injection H as <-. exists [], []. simpl. rewrite Nat.add_0_r.
    repeat split; auto. intros pre' suf' _ Hl. lia.
  - destruct (rmatch ic r accept i (a :: s) []) eqn:E.
    + injection H as <-. exists [], (a :: s). simpl. rewrite Nat.add_0_r.
      repeat split; auto. intros pre' suf' _ Hl. lia.
    + apply IH in H. destruct H as (pre & suf & -> & H & Hleft).
      exists (a :: pre), suf. simpl. rewrite Nat.add_succ_r.
      repeat split; auto.
      intros pre' suf' Hs Hl. destruct pre' as [|b pre'].
      * simpl in Hs. subst suf'. simpl. now rewrite Nat.add_0_r.
      * simpl in Hs. injection Hs as -> Hs. simpl. rewrite Nat.add_succ_r.
        apply Hleft; [exact Hs|simpl in Hl; lia].
Qed.

Lemma search_from_none ic r s : forall i,
  search_from ic r i s = None ->
  forall pre suf,
    s = pre ++ suf ->
    rmatch ic r accept (i + List.length pre) suf [] = None.
Proof.
  induction s as [|a s IH]; intros i H pre suf Hs; simpl in H.
  - destruct (rmatch ic r accept i [] []) eqn:E; [discriminate|].
    destruct pre; [|discriminate]. simpl in Hs. subst suf. simpl.
    now rewrite Nat.add_0_r.
  - destruct (rmatch ic r accept i (a :: s) []) eqn:E; [discriminate|].
    destruct pre as [|b pre].
    + simpl in Hs. subst suf. simpl. now rewrite Nat.add_0_r.
    + simpl in Hs. injection Hs as -> Hs. simpl. rewrite Nat.add_succ_r.
      exact (IH (S i) H pre suf Hs).
Qed.

(* ------------------------------------------------------------------ *)
(** ** Completeness of the matcher *)

Section MatcherComplete.

Variable ic : bool.

Lemma concat_length_le (ws : list str) :
  Forall (fun w => w <> []) ws ->
  List.length ws <= List.length (List.concat ws).
Proof.
  induction 1 as [|w ws Hw _ IH]; simpl; [lia|].
  rewrite length_app. destruct w; [now contradiction Hw|simpl; lia].
Qed.

Lemma consumes_nonempty (r : regex) :
  consumes r = true -> forall w, derives ic r w -> w <> [].
Proof.
  induction r as [| | |ch|ct|neg items|r1 IH1 r2 IH2|r1 IH1 r2 IH2
                 |lo hi greedy r IH|g r IH];
    simpl; intros Hc w Hw; try discriminate;
    inversion Hw; subst; try discriminate.
  - apply orb_true_iff in Hc. intros E. apply app_eq_nil in E.
    destruct E as [E1 E2]. destruct Hc as [Hc|Hc].
    + now apply (IH1 Hc w1).
    + now apply (IH2 Hc w2).
  - apply andb_true_iff in Hc. now apply IH1.
  - apply andb_true_iff in Hc. now apply IH2.
  - apply andb_true_iff in Hc. destruct Hc as [Hlo Hc].
    apply negb_true_iff, Nat.eqb_neq in Hlo.
    match goal with H : within _ _ _ |- _ => destruct H as [Hle _] end.
    destruct ws as [|w ws]; [simpl in Hle; lia|].
    match goal with H : Forall _ (_ :: _) |- _ => inversion H; subst end.
    simpl. intros E. apply app_eq_nil in E. destruct E as [E _].
    now apply (IH Hc w).
  - now apply IH.
Qed.

Lemma rep_exact_complete m P :
  complete_for m P ->
  forall ws, Forall P ws ->
  forall k i s' c,
    (forall c1, k (i + List.length (List.concat ws)) s' c1 <> None) ->
    rep_exact m (List.length ws) k i (List.concat ws ++ s') c <> None.
Proof.
  intros Hm. induction 1 as [|w ws Hw _ IH]; intros k i s' c Hk; simpl.
  - specialize (Hk c). simpl in Hk. now rewrite Nat.add_0_r in Hk.
  - rewrite <- app_assoc. apply Hm; [exact Hw|].
    intros c1. apply IH. intros c2.
    specialize (Hk c2). simpl in Hk.
    now rewrite length_app, Nat.add_assoc in Hk.
Qed.

Lemma rep_upto_complete m P greedy :
  complete_for m P ->
  forall j ws, Forall P ws -> List.length ws <= j ->
  forall k i s' c,
    (forall c1, k (i + List.length (List.concat ws)) s' c1 <> None) ->
    rep_upto m greedy j k i (List.concat ws ++ s') c <> None.
Proof.
  intros Hm. induction j as [|j IH]; intros ws Hws Hlen k i s' c Hk.
  - destruct ws; [|simpl in Hlen; lia]. simpl.
    specialize (Hk c). simpl in Hk. now rewrite Nat.add_0_r in Hk.
  - destruct Hws as [|w ws Hw Hws].
    + simpl in Hk |- *.
      assert (Hk0 : forall c1, k i s' c1 <> None).
      { intros c1. specialize (Hk c1). now rewrite Nat.add_0_r in Hk. }
      destruct greedy.
      * destruct (m (rep_upto m true j k) i s' c); [discriminate|].
        apply Hk0.
      * destruct (k i s' c) eqn:E; [discriminate|]. now apply Hk0 in E.
    + assert (Hgo : m (rep_upto m greedy j k) i
                      (List.concat (w :: ws) ++ s') c <> None).
      { simpl. rewrite <- app_assoc. apply Hm; [exact Hw|].
        intros c1. apply IH; [exact Hws|simpl in Hlen; lia|].
        intros c2. specialize (Hk c2). simpl in Hk.
        now rewrite length_app, Nat.add_assoc in Hk. }
      cbn [rep_upto]. destruct greedy.
      * destruct (m (rep_upto m true j k) i (List.concat (w :: ws) ++ s') c);
          [discriminate|now contradiction Hgo].
      * destruct (k i (List.concat (w :: ws) ++ s') c); [discriminate|].
        exact Hgo.
Qed.

(** The matcher finds a match wherever the pattern derives a text after
    which the continuation succeeds. *)
Lemma rmatch_complete (r : regex) :
  plain r = true -> complete_for (rmatch ic r) (derives ic r).
Proof.
  induction r as [| | |ch|ct|neg items|r1 IH1 r2 IH2|r1 IH1 r2 IH2
                 |lo hi greedy r IH|g r IH];
    simpl; intros Hp w Hw k i s' c Hk; try discriminate;
    inversion Hw; subst; simpl in Hk |- *.
  - now rewrite Nat.add_0_r in Hk.
  - match goal with H : N.eqb _ _ = false |- _ => rewrite H end.
    simpl. rewrite Nat.add_1_r in Hk. apply Hk.
  - match goal with H : lit_match _ _ _ = true |- _ => rewrite H end.
    rewrite Nat.add_1_r in Hk. apply Hk.
  - match goal with H : cat_match _ _ = true |- _ => rewrite H end.
    rewrite Nat.add_1_r in Hk. apply Hk.
  - match goal with H : set_match _ _ _ _ = true |- _ => rewrite H end.
    rewrite Nat.add_1_r in Hk. apply Hk.
  - apply andb_true_iff in Hp. destruct Hp as [Hp1 Hp2].
    rewrite <- app_assoc. apply (IH1 Hp1); [assumption|].
    intros c1. apply (IH2 Hp2); [assumption|].
    intros c2. specialize (Hk c2).
    now rewrite length_app, Nat.add_assoc in Hk.
  - apply andb_true_iff in Hp. destruct Hp as [Hp1 Hp2].
    destruct (rmatch ic r1 k i (w ++ s') c) eqn:E; [discriminate|].
    exfalso. revert E. now apply (IH1 Hp1).
  - apply andb_true_iff in Hp. destruct Hp as [Hp1 Hp2].
    destruct (rmatch ic r1 k i (w ++ s') c) eqn:E; [discriminate|].
    now apply (IH2 Hp2).
  - apply andb_true_iff in Hp. destruct Hp as [Hp1 Hp2].
    match goal with H : within _ _ _ |- _ => destruct H as [Hlo Hhi] end.
    match goal with H : Forall _ ws |- _ => rename H into Hws end.
    rewrite <- (firstn_skipn lo ws) in Hk |- *.
    rewrite concat_app in Hk |- *.
    assert (L1 : List.length (firstn lo ws) = lo)
      by (rewrite length_firstn; lia).
    pose proof Hws as Hsplit.
    rewrite <- (firstn_skipn lo ws) in Hsplit.
    apply Forall_app in Hsplit. destruct Hsplit as [F1 F2].
    rewrite <- app_assoc. rewrite <- L1 at 1.
    apply (rep_exact_complete _ _ (IH Hp1)); [exact F1|].
    intros c1.
    apply (rep_upto_complete _ _ greedy (IH Hp1)); [exact F2| |].
    + rewrite length_skipn. destruct hi as [h|]; [lia|].
      rewrite !length_app.
      assert (List.length (skipn lo ws)
              <= List.length (List.concat (skipn lo ws))).
      { apply concat_length_le. apply Forall_forall. intros x Hx.
        apply (consumes_nonempty r Hp2).
        rewrite Forall_forall in F2. now apply F2. }
      rewrite length_skipn in H. lia.
    + intros c2. specialize (Hk c2).
      now rewrite length_app, Nat.add_assoc in Hk.
  - apply (IH Hp); [assumption|]. intros c1. apply Hk.
Qed.

End MatcherComplete.

(** [search] finds a match when the pattern derives a part of the line. *)
Lemma search_complete r a w b :
  plain r = true -> derives false r w ->
  search false r (a ++ w ++ b) <> None.
Proof.
  intros Hp Hw. unfold search. intros H.
  pose proof (search_from_none _ _ _ _ H a (w ++ b) eq_refl) as H'.
  revert H'. apply (rmatch_complete false r Hp w Hw).
  intros c1. discriminate.
Qed.
(* ================================================================== *)
(** * Facts about the characters *)

Lemma existsb_eqb_In (a : N) l : existsb (N.eqb a) l = true <-> In a l.
Proof.
  rewrite existsb_exists. split.
  - intros (x & Hx & E). apply N.eqb_eq in E. now subst.
  - intros H. exists a. split; [exact H|apply N.eqb_refl].
Qed.

Lemma subset_incl l1 l2 : subset l1 l2 = true -> incl l1 l2.
Proof.
  unfold subset. rewrite forallb_forall. intros H x Hx.
  now apply existsb_eqb_In, H.
Qed.

(** Two lists with the same characters give the same test. *)
Lemma same_members l1 l2 (a : N) :
  subset l1 l2 = true -> subset l2 l1 = true ->
  existsb (N.eqb a) l1 = existsb (N.eqb a) l2.
Proof.
  intros H1 H2. apply subset_incl in H1. apply subset_incl in H2.
  apply eq_true_iff_eq. rewrite !existsb_eqb_In. split; auto.
Qed.

Lemma existsb_flat_map (f : N -> list N) (a : N) l :
  existsb (fun c => existsb (N.eqb a) (f c)) l
  = existsb (N.eqb a) (flat_map f l).
Proof.
  induction l as [|c l IH]; simpl; [reflexivity|].
  now rewrite existsb_app, IH.
Qed.

Lemma in_range_spec lo hi a :
  Chars.in_range lo hi a = true <-> (lo <= a /\ a <= hi)%N.
Proof.
  unfold Chars.in_range. rewrite andb_true_iff, !N.leb_le. tauto.
Qed.

(** A range and the list of its characters. *)
Lemma in_range_between lo hi a :
  Chars.in_range lo hi a = existsb (N.eqb a) (between lo hi).
Proof.
  apply eq_true_iff_eq. rewrite in_range_spec, existsb_eqb_In.
  unfold between. rewrite in_map_iff. split.
  - intros [H1 H2]. exists (N.to_nat (a - lo)). split; [lia|].
    apply in_seq. lia.
  - intros (i & <- & Hi). apply in_seq in Hi. lia.
Qed.

Lemma in_table_spec t a :
  Chars.in_table t a = true <->
  exists r, In r t /\ (fst r <= a /\ a <= snd r)%N.
Proof.
  unfold Chars.in_table. rewrite existsb_exists.
  split; intros (r & Hr & H); exists r; (split; [exact Hr|]);
    now apply in_range_spec.
Qed.

(** Tables whose ranges do not meet have no character in common. *)
Lemma apart_spec t1 t2 a :
  apart t1 t2 = true ->
  Chars.in_table t1 a = true -> Chars.in_table t2 a = false.
Proof.
  unfold apart. rewrite forallb_forall. intros H H1.
  apply in_table_spec in H1. destruct H1 as (r1 & Hr1 & L1).
  apply not_true_is_false. intros H2.
  apply in_table_spec in H2. destruct H2 as (r2 & Hr2 & L2).
  specialize (H r1 Hr1). rewrite forallb_forall in H.
  specialize (H r2 Hr2). apply orb_true_iff in H.
  rewrite !N.ltb_lt in H. lia.
Qed.

Lemma digit_not_space a :
  Chars.is_digit a = true -> Chars.is_space a = false.
Proof. apply apart_spec. vm_compute. reflexivity. Qed.

Lemma is_letter_members a : is_letter a = existsb (N.eqb a) LETTERS.
Proof.
  apply eq_true_iff_eq. unfold is_letter, LETTERS.
  rewrite !existsb_app, !orb_true_iff, !in_range_between.
  cbn [existsb]. rewrite !orb_true_iff. intuition discriminate.
Qed.

Lemma is_letter_spec a :
  is_letter a = true <->
  ((65 <= a /\ a <= 90) \/ (97 <= a /\ a <= 122)
   \/ a = 304 \/ a = 305 \/ a = 383 \/ a = 8490)%N.
Proof.
  unfold is_letter. rewrite !orb_true_iff, !in_range_spec, !N.eqb_eq. tauto.
Qed.

Lemma is_space_spec a :
  Chars.is_space a = true <->
  ((9 <= a /\ a <= 13) \/ (28 <= a /\ a <= 32) \/ a = 133 \/ a = 160
   \/ a = 5760 \/ (8192 <= a /\ a <= 8202) \/ (8232 <= a /\ a <= 8233)
   \/ a = 8239 \/ a = 8287 \/ a = 12288)%N.
Proof.
  unfold Chars.is_space, Chars.in_table, Chars.WHITESPACE. cbn [existsb fst snd].
  rewrite !orb_true_iff, !in_range_spec. lia.
Qed.

Lemma letter_not_space a : is_letter a = true -> Chars.is_space a = false.
Proof.
  intros H. apply is_letter_spec in H. apply not_true_is_false.
  intros S. apply is_space_spec in S. lia.
Qed.

Lemma component_char_not_space a :
  is_component_char a = true -> Chars.is_space a = false.
Proof.
  unfold is_component_char. intros H. apply orb_true_iff in H.
  destruct H as [H|H]; [now apply letter_not_space|].
  apply N.eqb_eq in H. subst a. reflexivity.
Qed.

Lemma space_not_component_char a :
  Chars.is_space a = true -> is_component_char a = false.
Proof.
  intros H. apply not_true_is_false. intros C.
  apply component_char_not_space in C. congruence.
Qed.

(** The character tests of the main pattern. *)
Lemma upper_set_is_letter a :
  set_match true false [az_upper] a = is_letter a.
Proof.
  rewrite is_letter_members.
  unfold set_match, az_upper. cbn [existsb item_match].
  rewrite xorb_false_l, orb_false_r.
  unfold range_match, lit_match. rewrite existsb_flat_map.
  apply same_members; vm_compute; reflexivity.
Qed.

Lemma component_set_is_component_char a :
  set_match true false [az_upper; SChar "_"] a = is_component_char a.
Proof.
  unfold is_component_char. rewrite <- upper_set_is_letter.
  unfold set_match. cbn [existsb item_match].
  rewrite !xorb_false_l, !orb_false_r. f_equal.
  unfold lit_match. cbn. now rewrite orb_false_r.
Qed.

Lemma forallb_ext_eq {A} (p q : A -> bool) l :
  (forall a, p a = q a) -> forallb p l = forallb q l.
Proof.
  intros H. induction l as [|a l IH]; simpl; [reflexivity|].
  now rewrite H, IH.
Qed.

(** Case by case on the tests of a character against constants. *)
Ltac eqb_cases :=
  repeat match goal with
         | |- context [N.eqb ?a ?c] => destruct (N.eqb a c)
         end;
  try reflexivity.

(** A keyword letter under re.IGNORECASE: the letter in its two cases,
    and for i the two further characters. *)
Lemma keyword_letters :
  Forall (fun x => forall a, lit_match true x a = stands_for x a)
         (List.concat KEYWORDS).
Proof.
  let l := eval vm_compute in (List.concat KEYWORDS) in
  change (List.concat KEYWORDS) with l.
  repeat constructor; intros a;
    unfold lit_match, stands_for, other_case; cbn; eqb_cases.
Qed.

Lemma keyword_letter k x a :
  In k KEYWORDS -> In x k -> lit_match true x a = stands_for x a.
Proof.
  intros Hk Hx. pose proof keyword_letters as F.
  rewrite Forall_forall in F. apply F. apply in_concat. eauto.
Qed.

(* ================================================================== *)
(** * The main pattern, as a cut of the line *)

Section DerivesShapes.

Variable ic : bool.

Lemma derives_empty w : derives ic Empty w <-> w = [].
Proof.
  split; [intros H; now inversion H|intros ->; constructor].
Qed.

Lemma derives_seq r1 r2 w :
  derives ic (Seq r1 r2) w <->
  exists w1 w2, w = w1 ++ w2 /\ derives ic r1 w1 /\ derives ic r2 w2.
Proof.
  split.
  - intros H. inversion H; subst. eauto.
  - intros (w1 & w2 & -> & H1 & H2). now constructor.
Qed.

Lemma derives_alt r1 r2 w :
  derives ic (Alt r1 r2) w <-> derives ic r1 w \/ derives ic r2 w.
Proof.
  split.
  - intros H. inversion H; subst; auto.
  - intros [H|H]; [now apply DAltL|now apply DAltR].
Qed.

Lemma derives_group n r w : derives ic (Group n r) w <-> derives ic r w.
Proof.
  split; [intros H; now inversion H|intros H; now constructor].
Qed.

Lemma derives_char r p w :
  char_test ic r = Some p ->
  (derives ic r w <-> exists a, w = [a] /\ p a = true).
Proof.
  intros Hp. destruct r; try discriminate; injection Hp as <-; split.
  - intros H. inversion H; subst. eexists. split; [reflexivity|].
    unfold not_newline. now apply negb_true_iff.
  - intros (a & -> & Ha). constructor. now apply negb_true_iff in Ha.
  - intros H. inversion H; subst. eauto.
  - intros (a & -> & Ha). now constructor.
  - intros H. inversion H; subst. eauto.
  - intros (a & -> & Ha). now constructor.
  - intros H. inversion H; subst. eauto.
  - intros (a & -> & Ha). now constructor.
Qed.

Lemma concat_singletons (w : str) :
  List.concat (map (fun a => [a]) w) = w.
Proof. induction w as [|a w IH]; simpl; congruence. Qed.

(** A repeat of a one-character pattern: a run of characters that pass
    its test, of an allowed length. *)
Lemma derives_run r p lo hi greedy w :
  char_test ic r = Some p ->
  (derives ic (Repeat lo hi greedy r) w <->
   forallb p w = true /\ within lo hi (List.length w)).
Proof.
  intros Hp. split.
  - intros H. inversion H as [| | | | | | | | |lo' hi' g' r' ws Hws Hn|];
      subst. clear H.
    assert (G : forallb p (List.concat ws) = true
                /\ List.length (List.concat ws) = List.length ws).
    { clear Hn. induction Hws as [|x ws Hx _ IH]; [auto|].
      apply (derives_char r p x Hp) in Hx. destruct Hx as (a & -> & Ha).
      destruct IH as [IH1 IH2]. simpl. rewrite Ha, IH1, IH2. auto. }
    destruct G as [G1 G2]. rewrite G2. auto.
  - intros [Hw Hn]. rewrite <- (concat_singletons w). constructor.
    + apply Forall_forall. intros x Hx. apply in_map_iff in Hx.
      destruct Hx as (a & <- & Ha). apply (derives_char r p [a] Hp).
      exists a. split; [reflexivity|].
      rewrite forallb_forall in Hw. now apply Hw.
    + now rewrite length_map.
Qed.

End DerivesShapes.

(** A literal: character by character. *)
Lemma derives_lits ic (l w : str) :
  derives ic (fold_right (fun a r => Seq (Lit a) r) Empty l) w <->
  Forall2 (fun x a => lit_match ic x a = true) l w.
Proof.
  revert w. induction l as [|x l IH]; intros w; simpl.
  - rewrite derives_empty. split; [intros ->; constructor|].
    intros H. now inversion H.
  - rewrite derives_seq. split.
    + intros (w1 & w2 & -> & H1 & H2). inversion H1; subst.
      constructor; [assumption|now apply IH].
    + intros H. inversion H as [|x' a l' w' Ha Hw]; subst.
      exists [a], w'. repeat split; [now constructor|now apply IH].
Qed.

(** A literal, case-sensitive: the text itself. *)
Lemma derives_lits_exact (l w : str) :
  derives false (fold_right (fun a r => Seq (Lit a) r) Empty l) w <-> w = l.
Proof.
  rewrite derives_lits. revert w.
  induction l as [|x l IH]; intros w; split; intros H.
  - now inversion H.
  - subst. constructor.
  - inversion H as [|x' a l' w' Ha Hw]; subst.
    unfold lit_match in Ha. apply N.eqb_eq in Ha. subst.
    f_equal. now apply IH.
  - subst. constructor; [apply N.eqb_refl|now apply IH].
Qed.

Lemma Forall2_ext_in {A B} (f g : A -> B -> Prop) l w :
  (forall x, In x l -> forall a, f x a <-> g x a) ->
  (Forall2 f l w <-> Forall2 g l w).
Proof.
  revert w. induction l as [|x l IH]; intros w H; split; intros F;
    inversion F; subst; constructor;
    try (apply (H x (or_introl eq_refl)); assumption);
    apply (IH _ (fun y Hy => H y (or_intror Hy))); assumption.
Qed.

(** The keyword alternatives: one of the four keywords, written as
    re.IGNORECASE lets it stand. *)
Lemma derives_action w :
  derives true ACTION_ALTERNATIVES w <-> spells_keyword w.
Proof.
  assert (K : forall k, In k KEYWORDS ->
            (Forall2 (fun x a => lit_match true x a = true) k w
             <-> Forall2 (fun x a => stands_for x a = true) k w)).
  { intros k Hk. apply Forall2_ext_in. intros x Hx a.
    now rewrite (keyword_letter k x a Hk Hx). }
  unfold ACTION_ALTERNATIVES, lits, spells_keyword.
  rewrite !derives_alt, !derives_lits. split.
  - intros [H|[H|[H|H]]]; eexists; (split; [|apply K; [|exact H]]);
      simpl; tauto.
  - intros (k & Hk & H). apply (K k Hk) in H.
    simpl in Hk. destruct Hk as [<-|[<-|[<-|[<-|[]]]]]; tauto.
Qed.

(** Masks. *)
Lemma fits_app m1 m2 w1 w2 :
  fits m1 w1 = true -> fits m2 w2 = true -> fits (m1 ++ m2) (w1 ++ w2) = true.
Proof.
  revert w1. induction m1 as [|m m1 IH]; intros w1 H1 H2.
  - destruct w1; [exact H2|discriminate].
  - destruct w1 as [|a w1]; [discriminate|]. simpl in H1 |- *.
    apply andb_true_iff in H1. destruct H1 as [Ha H1].
    rewrite Ha. simpl. now apply IH.
Qed.

Lemma fits_app_inv m1 m2 w :
  fits (m1 ++ m2) w = true ->
  exists w1 w2, w = w1 ++ w2 /\ fits m1 w1 = true /\ fits m2 w2 = true.
Proof.
  revert w. induction m1 as [|m m1 IH]; intros w H.
  - exists [], w. auto.
  - destruct w as [|a w]; [discriminate|]. simpl in H.
    apply andb_true_iff in H. destruct H as [Ha H].
    apply IH in H. destruct H as (w1 & w2 & -> & H1 & H2).
    exists (a :: w1), w2. simpl. rewrite Ha, H1. auto.
Qed.

Lemma fits_length m w : fits m w = true -> List.length w = List.length m.
Proof.
  revert w. induction m as [|c m IH]; intros [|a w] H; try discriminate;
    [reflexivity|].
  simpl in H. apply andb_true_iff in H. destruct H as [_ H].
  simpl. f_equal. now apply IH.
Qed.

Lemma fits_digits n w :
  fits (repeat (char_of "d") n) w = true <->
  (forallb Chars.is_digit w = true /\ List.length w = n).
Proof.
  revert w. induction n as [|n IH]; intros [|a w]; simpl; split;
    try (intros [_ H]; discriminate); try discriminate; auto.
  - intros H. apply andb_true_iff in H. destruct H as [Ha H].
    apply IH in H. destruct H as [H1 H2]. rewrite Ha, H1, H2. auto.
  - intros [H L]. apply andb_true_iff in H. destruct H as [Ha H].
    rewrite Ha. simpl. apply IH. split; [exact H|lia].
Qed.

Lemma within_exact n m : within n (Some n) m <-> m = n.
Proof. unfold within. lia. Qed.

Lemma derives_digits n w :
  derives true (digits n) w <-> fits (repeat (char_of "d") n) w = true.
Proof.
  unfold digits, times.
  rewrite (derives_run true (Cat CatDigit) Chars.is_digit) by reflexivity.
  rewrite within_exact. symmetry. apply fits_digits.
Qed.

(** A separator of the timestamp: not a letter, so that the case plays
    no part. *)
Lemma derives_separator (c : ascii) w :
  In c ["/"; " "; ":"]%char ->
  (derives true (Lit c) w <-> fits [char_of c] w = true).
Proof.
  intros Hc.
  rewrite (derives_char true (Lit c) (lit_match true c)) by reflexivity.
  assert (E : forall a, lit_match true c a = fits [char_of c] [a]).
  { intros a. destruct Hc as [<-|[<-|[<-|[]]]];
      unfold lit_match; cbn; eqb_cases. }
  split.
  - intros (a & -> & Ha). now rewrite <- E.
  - intros H. pose proof (fits_length _ _ H) as L.
    destruct w as [|a [|b w]]; try discriminate.
    exists a. split; [reflexivity|]. now rewrite E.
Qed.
Lemma derives_seqs_fits rs ms :
  Forall2 (fun r m => forall w, derives true r w <-> fits m w = true) rs ms ->
  forall w, derives true (seqs rs) w <-> fits (List.concat ms) w = true.
Proof.
  induction 1 as [|r m rs ms Hr _ IH]; intros w; simpl.
  - rewrite derives_empty. destruct w; simpl; split; auto; discriminate.
  - rewrite derives_seq. split.
    + intros (w1 & w2 & -> & H1 & H2). apply fits_app.
      * now apply Hr.
      * now apply IH.
    + intros H. apply fits_app_inv in H.
      destruct H as (w1 & w2 & -> & H1 & H2).
      exists w1, w2. repeat split; [now apply Hr|now apply IH].
Qed.

(** The timestamp pattern: four digits, a slash, two digits, ... *)
Lemma derives_timestamp w :
  derives true TIMESTAMP w <-> fits TIMESTAMP_MASK w = true.
Proof.
  change TIMESTAMP_MASK
    with (List.concat
            [repeat (char_of "d") 4; [char_of "/"];
             repeat (char_of "d") 2; [char_of "/"];
             repeat (char_of "d") 2; [char_of " "];
             repeat (char_of "d") 2; [char_of ":"];
             repeat (char_of "d") 2; [char_of ":"];
             repeat (char_of "d") 2; [char_of ":"];
             repeat (char_of "d") 3]).
  unfold TIMESTAMP. apply derives_seqs_fits.
  repeat (apply Forall2_cons;
          [intros x; first [apply derives_digits
                           |apply derives_separator; simpl; tauto]|]).
  apply Forall2_nil.
Qed.

Lemma within_some n : within 1 None n <-> n <> 0.
Proof. unfold within. lia. Qed.

Lemma within_any n : within 0 None n <-> True.
Proof. unfold within. split; auto. intros _. split; [lia|exact I]. Qed.

Lemma length_nonzero {A} (w : list A) : List.length w <> 0 <-> w <> [].
Proof. destruct w; simpl; split; intros H; congruence. Qed.

Lemma derives_blank_run ic w :
  derives ic (plus (Cat CatSpace)) w <-> blank_run w.
Proof.
  unfold plus, blank_run.
  rewrite (derives_run ic (Cat CatSpace) Chars.is_space) by reflexivity.
  rewrite within_some, length_nonzero. tauto.
Qed.

Lemma derives_level w :
  derives true (InSet false [az_upper]) w <->
  exists a, w = [a] /\ is_letter a = true.
Proof.
  rewrite (derives_char true _ (set_match true false [az_upper]))
    by reflexivity.
  split; intros (a & -> & Ha); exists a; split; auto;
    now rewrite upper_set_is_letter in *.
Qed.

Lemma derives_component w :
  derives true (plus (InSet false [az_upper; SChar "_"])) w <->
  (w <> [] /\ forallb is_component_char w = true).
Proof.
  unfold plus.
  rewrite (derives_run true _ (set_match true false [az_upper; SChar "_"]))
    by reflexivity.
  rewrite within_some, length_nonzero.
  rewrite (forallb_ext_eq _ _ w component_set_is_component_char). tauto.
Qed.

Lemma derives_any ic w :
  derives ic (lazy_star AnyChar) w <-> forallb not_newline w = true.
Proof.
  unfold lazy_star.
  rewrite (derives_run ic AnyChar not_newline) by reflexivity.
  rewrite within_any. tauto.
Qed.

Lemma search_from_here ic r i s :
  rmatch ic r accept i s [] <> None -> search_from ic r i s <> None.
Proof.
  intros H. destruct s; simpl;
    destruct (rmatch ic r accept i _ []); try discriminate;
    now contradiction H.
Qed.

Lemma bol_pass ic r k s c :
  rmatch ic (Seq Bol r) k 0 s c = rmatch ic r k 0 s c.
Proof. reflexivity. Qed.

Lemma LOG_PATTERN_unfold : LOG_PATTERN = Seq Bol LOG_PATTERN_BODY.
Proof. reflexivity. Qed.

(** A lazy run of characters stops at the first place where the rest of
    the pattern matches. *)
Lemma lazy_first p k n : forall i s c c',
  rep_upto (one_char p) false n k i s c = Some c' ->
  exists pre s',
    s = pre ++ s' /\ forallb p pre = true
    /\ k (i + List.length pre) s' c = Some c'
    /\ forall pre2 s2,
         s = pre2 ++ s2 -> List.length pre2 < List.length pre ->
         k (i + List.length pre2) s2 c = None.
Proof.
  induction n as [|n IH]; intros i s c c' H; simpl in H.
  - exists [], s. simpl. rewrite Nat.add_0_r. repeat split; auto.
    intros pre2 s2 _ L. lia.
  - destruct (k i s c) eqn:E.
    + injection H as <-. exists [], s. simpl. rewrite Nat.add_0_r.
      repeat split; auto. intros pre2 s2 _ L. lia.
    + unfold one_char in H. destruct s as [|a s1]; [discriminate|].
      destruct (p a) eqn:Pa; [|discriminate].
      apply IH in H. destruct H as (pre & s' & -> & Hp & H & Hmin).
      exists (a :: pre), s'. simpl. rewrite Pa, Hp, Nat.add_succ_r.
      repeat split; auto.
      intros [|b pre2] s2 E2 L; simpl in E2.
      * subst s2. simpl. now rewrite Nat.add_0_r.
      * injection E2 as -> E2. simpl. rewrite Nat.add_succ_r.
        apply (Hmin pre2 s2 E2). simpl in L. lia.
Qed.

Lemma lazy_group_step ic n rest k i s c c' :
  rmatch ic (Seq (Group n (lazy_star AnyChar)) rest) k i s c = Some c' ->
  exists pre s',
    s = pre ++ s' /\ forallb not_newline pre = true
    /\ rmatch ic rest k (i + List.length pre) s' ((n, pre) :: c) = Some c'
    /\ forall pre2 s2,
         s = pre2 ++ s2 -> List.length pre2 < List.length pre ->
         rmatch ic rest k (i + List.length pre2) s2 ((n, pre2) :: c) = None.
Proof.
  intros H.
  change (rep_upto (one_char not_newline) false (List.length s)
            (fun i' s' c' =>
               rmatch ic rest k i' s' ((n, firstn (i' - i) s) :: c'))
            i s c = Some c') in H.
  apply lazy_first in H. destruct H as (pre & s' & E & Hp & H & Hmin).
  assert (F : forall x y, s = x ++ y ->
                firstn (i + List.length x - i) s = x).
  { intros x y ->.
    replace (i + List.length x - i) with (List.length x) by lia.
    rewrite firstn_app, Nat.sub_diag, firstn_all. simpl.
    apply app_nil_r. }
  exists pre, s'. split; [exact E|]. split; [exact Hp|]. split.
  - now rewrite (F pre s' E) in H.
  - intros pre2 s2 E2 L. specialize (Hmin pre2 s2 E2 L). simpl in Hmin.
    now rewrite (F pre2 s2 E2) in Hmin.
Qed.

(** A match of the main pattern cuts the line into its parts, the groups
    are these parts, and no keyword starts before the one of the cut in
    what follows the whitespace after the component. *)
Lemma LOG_PATTERN_cut l m :
  search true LOG_PATTERN l = Some m ->
  exists ts sp1 lv sp2 comp sp3 pre act rest,
    log_line_cut l ts sp1 lv sp2 comp sp3 pre act rest
    /\ group 1 m = Some ts /\ group 2 m = Some [lv]
    /\ group 3 m = Some comp /\ group 5 m = Some act
    /\ forall pre2 act2 rest2,
         pre ++ act ++ rest = pre2 ++ act2 ++ rest2 ->
         spells_keyword act2 ->
         List.length pre <= List.length pre2.
Proof.
  unfold search. intros H. apply search_from_split in H.
  destruct H as (pre0 & suf & -> & H & _).
  rewrite LOG_PATTERN_unfold in H. apply bol_step in H.
  destruct H as [Hi H].
  destruct pre0; [|discriminate]. clear Hi. simpl app.
  cbv [LOG_PATTERN_BODY seqs fold_right] in H.
  apply seq_group_step in H; [|reflexivity|apply accept_keeps].
  destruct H as (ts & s1 & c1 & -> & Hts & G1 & H).
  apply seq_step in H. destruct H as (sp1 & s2 & c2 & -> & Hsp1 & H).
  apply seq_group_step in H; [|reflexivity|apply accept_keeps].
  destruct H as (lvw & s3 & c3 & -> & Hlv & G2 & H).
  apply seq_step in H. destruct H as (sp2 & s4 & c4 & -> & Hsp2 & H).
  apply seq_group_step in H; [|reflexivity|apply accept_keeps].
  destruct H as (comp & s5 & c5 & -> & Hcomp & G3 & H).
  apply seq_step in H. destruct H as (sp3 & s6 & c6 & -> & Hsp3 & H).
  apply lazy_group_step in H.
  destruct H as (pre & s7 & -> & Hpre & H & Hmin).
  apply seq_group_step in H; [|reflexivity|apply accept_keeps].
  destruct H as (act & rest & c8 & -> & Hact & G5 & _).
  apply derives_timestamp in Hts. apply derives_blank_run in Hsp1.
  apply derives_level in Hlv. destruct Hlv as (lv & -> & Hlv).
  apply derives_blank_run in Hsp2. apply derives_component in Hcomp.
  destruct Hcomp as [Hc1 Hc2].
  apply derives_blank_run in Hsp3.
  apply derives_action in Hact.
  exists ts, sp1, lv, sp2, comp, sp3, pre, act, rest.
  split; [unfold log_line_cut; tauto|].
  repeat (split; [assumption|]).
  intros pre2 act2 rest2 E Hact2.
  destruct (Nat.le_gt_cases (List.length pre) (List.length pre2)) as [L|L];
    [exact L|exfalso].
  specialize (Hmin pre2 (act2 ++ rest2) E L). revert Hmin.
  replace (act2 ++ rest2) with ((act2 ++ []) ++ rest2)
    by now rewrite app_nil_r.
  apply (rmatch_complete true (Seq (Group 5 ACTION_ALTERNATIVES) Empty));
    [reflexivity| |discriminate].
  apply DSeq; [|constructor]. now apply DGroup, derives_action.
Qed.

Lemma LOG_PATTERN_parts l m :
  search true LOG_PATTERN l = Some m ->
  exists ts lv comp act,
    log_line_parts l ts lv comp act
    /\ group 1 m = Some ts /\ group 2 m = Some [lv]
    /\ group 3 m = Some comp /\ group 5 m = Some act.
Proof.
  intros H. apply LOG_PATTERN_cut in H.
  destruct H as (ts & sp1 & lv & sp2 & comp & sp3 & pre & act & rest
                 & Hc & G1 & G2 & G3 & G5 & _).
  exists ts, lv, comp, act. repeat split; auto.
  exists sp1, sp2, sp3, pre, rest. exact Hc.
Qed.

(** Every line that can be cut into the parts has a match. *)
Lemma LOG_PATTERN_accepts l ts lv comp act :
  log_line_parts l ts lv comp act -> search true LOG_PATTERN l <> None.
Proof.
  intros (sp1 & sp2 & sp3 & pre & rest & -> & Hts & Hsp1 & Hlv & Hsp2
          & Hc1 & Hc2 & Hsp3 & Hpre & Hact).
  unfold search. apply search_from_here.
  rewrite LOG_PATTERN_unfold, bol_pass.
  replace (ts ++ sp1 ++ [lv] ++ sp2 ++ comp ++ sp3 ++ pre ++ act ++ rest)
    with ((ts ++ sp1 ++ [lv] ++ sp2 ++ comp ++ sp3 ++ pre ++ act ++ [])
          ++ rest)
    by (repeat rewrite <- app_assoc; simpl; reflexivity).
  apply (rmatch_complete true LOG_PATTERN_BODY); [reflexivity| |discriminate].
  cbv [LOG_PATTERN_BODY seqs fold_right].
  repeat (apply DSeq); try apply DGroup; try apply DEmpty.
  - now apply derives_timestamp.
  - now apply derives_blank_run.
  - apply derives_level. eauto.
  - now apply derives_blank_run.
  - apply derives_component. auto.
  - now apply derives_blank_run.
  - now apply derives_any.
  - now apply derives_action.
Qed.

(** The cut is unique up to the action keyword. *)
Lemma app_same_length {A} (a a' b b' : list A) :
  List.length a = List.length a' -> a ++ b = a' ++ b' -> a = a' /\ b = b'.
Proof.
  revert a'. induction a as [|x a IH]; intros [|x' a'] L E;
    try discriminate; simpl in *; [auto|].
  injection E as -> E. injection L as L.
  destruct (IH a' L E) as [-> ->]. auto.
Qed.

Lemma span_unique {A} (p : A -> bool) a a' x x' r r' :
  forallb p a = true -> forallb p a' = true ->
  p x = false -> p x' = false ->
  a ++ x :: r = a' ++ x' :: r' -> a = a' /\ x = x' /\ r = r'.
Proof.
  revert a'. induction a as [|y a IH]; intros [|y' a'] Ha Ha' Hx Hx' E;
    simpl in *.
  - injection E as -> ->. auto.
  - injection E as -> _. apply andb_true_iff in Ha'. destruct Ha' as [C _].
    congruence.
  - injection E as -> _. apply andb_true_iff in Ha. destruct Ha as [C _].
    congruence.
  - injection E as -> E.
    apply andb_true_iff in Ha. apply andb_true_iff in Ha'.
    destruct (IH a' (proj2 Ha) (proj2 Ha') Hx Hx' E) as (-> & -> & ->). auto.
Qed.

Lemma log_line_cut_unique l ts sp1 lv sp2 comp sp3 pre act rest
  ts' sp1' lv' sp2' comp' sp3' pre' act' rest' :
  log_line_cut l ts sp1 lv sp2 comp sp3 pre act rest ->
  log_line_cut l ts' sp1' lv' sp2' comp' sp3' pre' act' rest' ->
  ts = ts' /\ sp1 = sp1' /\ lv = lv' /\ sp2 = sp2' /\ comp = comp'
  /\ sp3 ++ pre ++ act ++ rest = sp3' ++ pre' ++ act' ++ rest'.
Proof.
  intros (-> & Hts & [_ Hsp1] & Hlv & [_ Hsp2] & Hc1 & Hc2
          & [Hn3 Hsp3] & _ & _).
  intros (E & Hts' & [_ Hsp1'] & Hlv' & [_ Hsp2'] & Hc1' & Hc2'
          & [Hn3' Hsp3'] & _ & _).
  apply app_same_length in E;
    [|now rewrite (fits_length _ _ Hts), (fits_length _ _ Hts')].
  destruct E as [<- E]. split; [reflexivity|].
  simpl in E.
  apply (span_unique Chars.is_space) in E;
    auto using letter_not_space.
  destruct E as (<- & <- & E). do 2 (split; [reflexivity|]).
  destruct comp as [|c comp]; [now contradiction Hc1|].
  destruct comp' as [|c' comp']; [now contradiction Hc1'|].
  simpl in Hc2, Hc2'.
  apply andb_true_iff in Hc2. apply andb_true_iff in Hc2'.
  simpl in E.
  apply (span_unique Chars.is_space) in E;
    try (apply component_char_not_space; tauto); auto.
  destruct E as (<- & <- & E). split; [reflexivity|].
  destruct sp3 as [|s sp3]; [now contradiction Hn3|].
  destruct sp3' as [|s' sp3']; [now contradiction Hn3'|].
  simpl in Hsp3, Hsp3'.
  apply andb_true_iff in Hsp3. apply andb_true_iff in Hsp3'.
  simpl in E.
  apply (span_unique is_component_char) in E;
    try (apply space_not_component_char; tauto); try tauto.
  destruct E as (<- & <- & E). split; [reflexivity|].
  simpl. now rewrite E.
Qed.

Lemma log_line_parts_unique l ts lv comp act ts' lv' comp' act' :
  log_line_parts l ts lv comp act -> log_line_parts l ts' lv' comp' act' ->
  ts = ts' /\ lv = lv' /\ comp = comp'.
Proof.
  intros (sp1 & sp2 & sp3 & pre & rest & H)
         (sp1' & sp2' & sp3' & pre' & rest' & H').
  destruct (log_line_cut_unique _ _ _ _ _ _ _ _ _ _ _ _ _ _ _ _ _ _ _ H H')
    as (-> & _ & -> & _ & -> & _).
  auto.
Qed.

(** A keyword does not start with whitespace. *)
Lemma keyword_head act :
  spells_keyword act ->
  exists c t, act = c :: t /\ Chars.is_space c = false.
Proof.
  intros (k & Hk & H). simpl in Hk.
  destruct Hk as [<-|[<-|[<-|[<-|[]]]]];
    inversion H as [|x c l t Hc Ht]; subst;
    exists c, t; (split; [reflexivity|]);
    unfold stands_for, other_case in Hc; cbn in Hc;
    repeat (apply orb_true_iff in Hc; destruct Hc as [Hc|Hc]);
    try discriminate Hc;
    apply N.eqb_eq in Hc; subst c; reflexivity.
Qed.

Lemma first_keyword l ts sp1 lv sp2 comp sp3 pre act rest :
  log_line_cut l ts sp1 lv sp2 comp sp3 pre act rest ->
  (forall pre2 act2 rest2,
      pre ++ act ++ rest = pre2 ++ act2 ++ rest2 ->
      spells_keyword act2 ->
      List.length pre <= List.length pre2) ->
  forall before' act',
    keyword_after l before' act' ->
    List.length (ts ++ sp1 ++ [lv] ++ sp2 ++ comp ++ sp3 ++ pre)
    <= List.length before'.
Proof.
  intros Hc Hmin before' act'
         (ts' & sp1' & lv' & sp2' & comp' & sp3' & pre' & rest' & Hc' & ->).
  destruct (log_line_cut_unique _ _ _ _ _ _ _ _ _ _ _ _ _ _ _ _ _ _ _ Hc Hc')
    as (<- & <- & <- & <- & <- & E).
  rewrite !length_app. do 5 apply Nat.add_le_mono_l.
  rewrite <- !length_app.
  assert (Hk : spells_keyword act') by apply Hc'.
  assert (Hs3 : forallb Chars.is_space sp3 = true) by apply Hc.
  rewrite (app_assoc sp3' pre') in E.
  apply app_eq_app in E. destruct E as (t & [[E1 E2]|[E1 E2]]).
  - destruct t as [|x t].
    + rewrite app_nil_r in E1. simpl in E2.
      rewrite E1, length_app.
      specialize (Hmin [] act' rest' (eq_sym E2) Hk). simpl in Hmin. lia.
    + exfalso. destruct (keyword_head act' Hk) as (c & u & -> & Hc0).
      simpl in E2. injection E2 as <- _.
      rewrite E1, !forallb_app in Hs3. simpl in Hs3.
      rewrite Hc0 in Hs3. simpl in Hs3.
      now rewrite andb_false_r in Hs3.
  - rewrite E1, !length_app. apply Nat.add_le_mono_l.
    apply (Hmin t act' rest' E2 Hk).
Qed.

(* ================================================================== *)
(** * The line parser: C4, C8, C10 *)

(** C4, as stated, fails: the action is the text of the line that matched
    the keyword.  A refused request gives "not granted", which is not
    the enumerated NotGranted, and an upper-case keyword stays upper-case. *)
Lemma C4_action_outside_enumeration :
  (exists e, parse_log_line denied_line = Some e /\
             dict_get e "action" = Some (PyStr "not granted") /\
             ~ In (codepoints "not granted") SPEC_ACTIONS) /\
  (exists e, parse_log_line shouting_line = Some e /\
             dict_get e "action" = Some (PyStr "GRANT") /\
             ~ In (codepoints "GRANT") SPEC_ACTIONS).
Proof.
  split; eexists; (split; [vm_compute; reflexivity|]);
    (split; [reflexivity|]);
    intros H; repeat (destruct H as [H|H]; [discriminate H|]); exact H.
Qed.

Lemma spells_keyword_not_enumerated act :
  spells_keyword act -> act <> codepoints "NotGranted".
Proof.
  intros (k & Hk & H) ->. simpl in Hk.
  destruct Hk as [<-|[<-|[<-|[<-|[]]]]];
    repeat match goal with
           | F : Forall2 _ _ _ |- _ => inversion F; clear F; subst
           end;
    discriminate.
Qed.

(** C4 (amended): on every line the parser accepts, the action is a part
    of the line, as it stands there.  It spells one of the four keywords
    of the pattern, Grant, Detachment, TimeOut and "not granted", letter
    for letter, every letter in either case and the i also as U+0130 or
    U+0131; the enumerated NotGranted does not occur. *)
Theorem C4_action_is_keyword_up_to_case (line : str) (e : dict) :
  parse_log_line line = Some e ->
  exists before act rest,
    line = before ++ act ++ rest
    /\ dict_get e "action" = Some (PyStr act)
    /\ spells_keyword act
    /\ act <> codepoints "NotGranted".
Proof.
  unfold parse_log_line. intros H.
  destruct (search true LOG_PATTERN line) as [m|] eqn:Hm; [|discriminate].
  injection H as <-.
  destruct (LOG_PATTERN_cut _ _ Hm)
    as (ts & sp1 & lv & sp2 & comp & sp3 & pre & act & rest
        & Hc & _ & _ & _ & G5 & _).
  assert (Hk : spells_keyword act) by apply Hc.
  exists (ts ++ sp1 ++ [lv] ++ sp2 ++ comp ++ sp3 ++ pre), act, rest.
  split; [|split; [|split]].
  - destruct Hc as [-> _]. now rewrite <- !app_assoc.
  - cbn [dict_get String.eqb Ascii.eqb Bool.eqb]. unfold group_val.
    now rewrite G5.
  - exact Hk.
  - now apply spells_keyword_not_enumerated.
Qed.

Lemma C4_action_is_keyword_up_to_case_witness :
  parse_log_line turkish_line = Some turkish_entry /\
  exists before act rest,
    turkish_line = before ++ act ++ rest
    /\ dict_get turkish_entry "action" = Some (PyStr act)
    /\ spells_keyword act
    /\ act <> codepoints "NotGranted".
Proof.
  split.
  - vm_compute. reflexivity.
  - apply (C4_action_is_keyword_up_to_case turkish_line).
    vm_compute. reflexivity.
Defined.

(** C8: the example line of the specification parses to the fields the
    specification lists. *)
Theorem C8_example_line :
  exists e, parse_log_line example_line = Some e /\
            dict_get e "log_level" = Some (PyStr "E") /\
            dict_get e "component" = Some (PyStr "LICENSE_SVC") /\
            dict_get e "action" = Some (PyStr "Grant") /\
            dict_get e "license_type" = Some (PyStr "MATLAB") /\
            dict_get e "user_name" = Some (PyStr "user1") /\
            dict_get e "client_ip" = Some (PyStr "192.168.1.10").
Proof.
  eexists. split; [vm_compute; reflexivity|].
  repeat split; reflexivity.
Qed.

(** C10: the client address is checked for its shape only: a line with
    999.999.999.999 is accepted with that text as [client_ip]. *)
Theorem C10_client_ip_shape_only :
  exists line e, parse_log_line line = Some e /\
                 dict_get e "client_ip" = Some (PyStr "999.999.999.999").
Proof.
  exists odd_ip_line. eexists. split; [vm_compute; reflexivity|reflexivity].
Qed.

(** Further lines, with the results of the program on them. *)
Example parse_pipe_user_and_loose_license :
  parse_log_line
    (codepoints
       "2024/02/01 10:00:00:000 I LIC_D |bob| !SIM!Other pool Detachment"
     ++ [Chars.newline])
  = Some [("timestamp", PyStr "2024/02/01 10:00:00:000");
          ("log_level", PyStr "I"); ("component", PyStr "LIC_D");
          ("action", PyStr "Detachment"); ("license_type", PyStr "SIM");
          ("user_name", PyStr "bob"); ("client_ip", PyStr "Unknown");
          ("raw_message",
           PyStr "2024/02/01 10:00:00:000 I LIC_D |bob| !SIM!Other pool Detachment")].
Proof. vm_compute. reflexivity. Qed.

Example parse_first_keyword_and_placeholders :
  parse_log_line
    "2024/02/01 10:00:00:000 w lic_d no fields here timeout then Grant"
  = Some [("timestamp", PyStr "2024/02/01 10:00:00:000");
          ("log_level", PyStr "w"); ("component", PyStr "lic_d");
          ("action", PyStr "timeout"); ("license_type", PyStr "Unknown");
          ("user_name", PyStr "Unknown"); ("client_ip", PyStr "Unknown");
          ("raw_message",
           PyStr "2024/02/01 10:00:00:000 w lic_d no fields here timeout then Grant")].
Proof. vm_compute. reflexivity. Qed.

Example parse_leftmost_address :
  parse_log_line "2024/02/01 10:00:00:000 I LIC_D Granted 12345.6.7.8 late"
  = Some [("timestamp", PyStr "2024/02/01 10:00:00:000");
          ("log_level", PyStr "I"); ("component", PyStr "LIC_D");
          ("action", PyStr "Grant"); ("license_type", PyStr "Unknown");
          ("user_name", PyStr "Unknown"); ("client_ip", PyStr "345.6.7.8");
          ("raw_message",
           PyStr "2024/02/01 10:00:00:000 I LIC_D Granted 12345.6.7.8 late")].
Proof. vm_compute. reflexivity. Qed.

Example parse_long_level_is_no_match :
  parse_log_line "2024/02/01 10:00:00:000 INFO LIC_D user@host Grant" = None.
Proof. vm_compute. reflexivity. Qed.

Example parse_anchor_is_no_match :
  parse_log_line " 2024/02/01 10:00:00:000 I LIC_D user@host Grant" = None.
Proof. vm_compute. reflexivity. Qed.

Example parse_no_keyword_is_no_match :
  parse_log_line "2024/02/01 10:00:00:000 I LIC_D user@host Granite" = None.
Proof. vm_compute. reflexivity. Qed.

(** Characters outside ASCII: the digits of the timestamp may be any
    decimal digits, here the Arabic-Indic ones, and the line of
    [turkish_line] is accepted with its level, component and keyword as
    they stand. *)
Example parse_other_digits :
  exists e,
    parse_log_line
      ([1634; 1632; 1634; 1636]%N ++ codepoints "/01/15 09:30:00:123 E SVC Grant")
    = Some e
    /\ dict_get e "timestamp"
       = Some (PyStr ([1634; 1632; 1634; 1636]%N
                      ++ codepoints "/01/15 09:30:00:123")).
Proof. eexists. split; [vm_compute; reflexivity|reflexivity]. Qed.

Example parse_turkish_line :
  parse_log_line turkish_line = Some turkish_entry.
Proof. vm_compute. reflexivity. Qed.

(** X1: a line the parser accepts starts with a timestamp of the form
    dddd/dd/dd dd:dd:dd:ddd, every d a decimal digit; then come
    whitespace, one character of [[A-Z]] under re.IGNORECASE (an ASCII
    letter or one of U+0130, U+0131, U+017F and U+212A), whitespace, a
    run of such characters and underscores, whitespace, a text without a
    newline, a text that spells one of the four keywords, and a rest.
    The timestamp, the level, the component and the action of the entry
    are these parts of the line, as they stand in it. *)
Theorem parse_log_line_cuts_the_line (line : str) (e : dict) :
  parse_log_line line = Some e ->
  exists ts lv comp act,
    log_line_parts line ts lv comp act
    /\ dict_get e "timestamp" = Some (PyStr ts)
    /\ dict_get e "log_level" = Some (PyStr [lv])
    /\ dict_get e "component" = Some (PyStr comp)
    /\ dict_get e "action" = Some (PyStr act).
Proof.
  unfold parse_log_line. intros H.
  destruct (search true LOG_PATTERN line) as [m|] eqn:Hm; [|discriminate].
  injection H as <-.
  destruct (LOG_PATTERN_parts _ _ Hm)
    as (ts & lv & comp & act & Hp & G1 & G2 & G3 & G5).
  exists ts, lv, comp, act. split; [exact Hp|].
  cbn [dict_get String.eqb Ascii.eqb Bool.eqb]. unfold group_val.
  rewrite G1, G2, G3, G5. repeat split; reflexivity.
Qed.

Lemma parse_log_line_cuts_the_line_witness :
  parse_log_line turkish_line = Some turkish_entry
  /\ exists ts lv comp act,
       log_line_parts turkish_line ts lv comp act
       /\ dict_get turkish_entry "timestamp" = Some (PyStr ts)
       /\ dict_get turkish_entry "log_level" = Some (PyStr [lv])
       /\ dict_get turkish_entry "component" = Some (PyStr comp)
       /\ dict_get turkish_entry "action" = Some (PyStr act).
Proof.
  split; [vm_compute; reflexivity|].
  apply (parse_log_line_cuts_the_line turkish_line turkish_entry).
  vm_compute; reflexivity.
Defined.

(** X2: every line that can be cut into a timestamp of the form
    dddd/dd/dd dd:dd:dd:ddd, whitespace, one character of [[A-Z]] under
    re.IGNORECASE, whitespace, a run of such characters and underscores,
    whitespace, a text without a newline, a text that spells a keyword
    and a rest is accepted, and the entry carries the timestamp, the
    level and the component of the cut: the three are determined by the
    line. *)
Theorem parse_log_line_accepts (line : str) ts lv comp act :
  log_line_parts line ts lv comp act ->
  exists e,
    parse_log_line line = Some e
    /\ dict_get e "timestamp" = Some (PyStr ts)
    /\ dict_get e "log_level" = Some (PyStr [lv])
    /\ dict_get e "component" = Some (PyStr comp).
Proof.
  intros Hp. pose proof (LOG_PATTERN_accepts _ _ _ _ _ Hp) as Hs.
  destruct (parse_log_line line) as [e|] eqn:E.
  - exists e. split; [reflexivity|].
    unfold parse_log_line in E.
    destruct (search true LOG_PATTERN line) as [m|] eqn:Hm; [|discriminate].
    injection E as <-.
    destruct (LOG_PATTERN_parts _ _ Hm)
      as (ts' & lv' & comp' & act' & Hp' & G1 & G2 & G3 & G5).
    destruct (log_line_parts_unique _ _ _ _ _ _ _ _ _ Hp Hp')
      as (-> & -> & ->).
    cbn [dict_get String.eqb Ascii.eqb Bool.eqb]. unfold group_val.
    rewrite G1, G2, G3. repeat split; reflexivity.
  - exfalso. unfold parse_log_line in E.
    destruct (search true LOG_PATTERN line);
      [discriminate|now contradiction Hs].
Qed.

Lemma parse_log_line_accepts_witness :
  log_line_parts example_line
    (codepoints "2024/01/15 09:30:00:123") (char_of "E")
    (codepoints "LICENSE_SVC") (codepoints "Grant")
  /\ exists e,
       parse_log_line example_line = Some e
       /\ dict_get e "timestamp" = Some (PyStr "2024/01/15 09:30:00:123")
       /\ dict_get e "log_level" = Some (PyStr "E")
       /\ dict_get e "component" = Some (PyStr "LICENSE_SVC").
Proof.
  assert (H : log_line_parts example_line
                (codepoints "2024/01/15 09:30:00:123") (char_of "E")
                (codepoints "LICENSE_SVC") (codepoints "Grant")).
  { exists [char_of " "], [char_of " "], [char_of " "],
      (codepoints "user1@workstation1 192.168.1.10 !MATLAB!Vendor "), [].
    unfold log_line_cut, blank_run.
    repeat split; try discriminate; try (vm_compute; reflexivity).
    exists (codepoints "Grant"). split; [simpl; tauto|].
    repeat constructor. }
  split; [exact H|].
  exact (parse_log_line_accepts example_line _ _ _ _ H).
Defined.

(** X3: the action of an entry is the first keyword of the line after
    the component: of all the ways to cut the line into timestamp, level,
    component, text and keyword, the parser takes one whose keyword starts
    earliest, also when a later keyword follows on the line. *)
Theorem parse_log_line_first_keyword (line : str) (e : dict) :
  parse_log_line line = Some e ->
  exists before act,
    keyword_after line before act
    /\ dict_get e "action" = Some (PyStr act)
    /\ forall before' act',
         keyword_after line before' act' ->
         List.length before <= List.length before'.
Proof.
  intros H. unfold parse_log_line in H.
  destruct (search true LOG_PATTERN line) as [m|] eqn:Hm; [|discriminate].
  injection H as <-.
  destruct (LOG_PATTERN_cut _ _ Hm)
    as (ts & sp1 & lv & sp2 & comp & sp3 & pre & act & rest
        & Hc & _ & _ & _ & G5 & Hmin).
  exists (ts ++ sp1 ++ [lv] ++ sp2 ++ comp ++ sp3 ++ pre), act.
  split; [|split].
  - exists ts, sp1, lv, sp2, comp, sp3, pre, rest. auto.
  - cbn [dict_get String.eqb Ascii.eqb Bool.eqb]. unfold group_val.
    now rewrite G5.
  - now apply (first_keyword line ts sp1 lv sp2 comp sp3 pre act rest).
Qed.

Lemma parse_log_line_first_keyword_witness :
  parse_log_line late_grant_line = Some late_grant_entry
  /\ exists before act,
       keyword_after late_grant_line before act
       /\ dict_get late_grant_entry "action" = Some (PyStr act)
       /\ forall before' act',
            keyword_after late_grant_line before' act' ->
            List.length before <= List.length before'.
Proof.
  split; [vm_compute; reflexivity|].
  apply (parse_log_line_first_keyword late_grant_line late_grant_entry).
  vm_compute; reflexivity.
Defined.

(* ================================================================== *)
(** * The queue consumer: C3 *)

(** C3: the program at a pop that times out.  [blpop] returns [None],
    the unpacking [_, data = ...] of it raises a [TypeError], and the
    iteration ends in the handler of [except Exception], with the error
    logged and the pause of 5: the consumer does not go back to listening
    without a pause.  The branch [else: time.sleep(1)], written for a pop
    without data, is reached by an element with empty data only. *)
Theorem C3_timeout_enters_backoff
  (loads : str -> result Consumer.json) :
  Consumer.try_body loads (Consumer.Returned None) = Raise TypeError
  /\ Consumer.iteration loads (Consumer.Returned None)
     = (Consumer.Backoff, [Consumer.LogError TypeError; Consumer.Sleep 5])
  /\ fst (Consumer.iteration loads (Consumer.Returned None))
     <> Consumer.Listening
  /\ sleeps (snd (Consumer.iteration loads (Consumer.Returned None))) = [5]
  /\ forall key,
       Consumer.iteration loads (Consumer.Returned (Some (key, [])))
       = (Consumer.Listening, [Consumer.Sleep 1]).
Proof.
  repeat split; discriminate.
Qed.

(* ================================================================== *)
(** * The auxiliary patterns *)

Lemma parse_log_line_auxiliary line e :
  parse_log_line line = Some e ->
  dict_get e "license_type" = Some (license_type_of line)
  /\ dict_get e "user_name" = Some (user_name_of line)
  /\ dict_get e "client_ip" = Some (client_ip_of line).
Proof.
  unfold parse_log_line. intros H.
  destruct (search true LOG_PATTERN line); [|discriminate].
  injection H as <-. repeat split.
Qed.

(** Case by case on the tests a character passes. *)
Ltac test_cases :=
  repeat match goal with
         | |- context [Chars.in_range ?lo ?hi ?a] =>
             destruct (Chars.in_range lo hi a)
         | |- context [Chars.is_word ?a] => destruct (Chars.is_word a)
         | |- context [Chars.is_space ?a] => destruct (Chars.is_space a)
         end;
  eqb_cases.

Lemma ident_set_is_ident_char a :
  set_match false false ident_set a = is_ident_char a.
Proof.
  unfold set_match, ident_set, is_ident_char.
  cbn [existsb item_match range_match lit_match]. test_cases.
Qed.

Lemma host_set_is_host_char a :
  set_match false false [SCat CatWord; SChar "."; SChar "-"] a
  = is_host_char a.
Proof.
  unfold set_match, is_host_char.
  cbn [existsb item_match cat_match lit_match]. test_cases.
Qed.

Lemma tag_set_is_tag_char a :
  set_match false true [SChar "!"; SCat CatSpace] a = is_tag_char a.
Proof.
  unfold set_match, is_tag_char.
  cbn [existsb item_match cat_match lit_match]. test_cases.
Qed.

Lemma derives_run_plus p r w :
  char_test false r = Some p ->
  (derives false (plus r) w <-> run p w).
Proof.
  intros Hp. unfold plus, run. rewrite (derives_run false r p) by exact Hp.
  rewrite within_some, length_nonzero. tauto.
Qed.

Lemma derives_word_run w :
  derives false (plus (Cat CatWord)) w <-> run Chars.is_word w.
Proof. now apply derives_run_plus. Qed.

Lemma run_ext p q w : (forall a, p a = q a) -> run p w <-> run q w.
Proof. intros H. unfold run. now rewrite (forallb_ext_eq p q w H). Qed.

Lemma derives_ident_run w :
  derives false (plus (InSet false ident_set)) w <-> run is_ident_char w.
Proof.
  rewrite (derives_run_plus (set_match false false ident_set))
    by reflexivity.
  apply run_ext, ident_set_is_ident_char.
Qed.

Lemma derives_host_run w :
  derives false (plus (InSet false [SCat CatWord; SChar "."; SChar "-"])) w
  <-> run is_host_char w.
Proof.
  rewrite (derives_run_plus
             (set_match false false [SCat CatWord; SChar "."; SChar "-"]))
    by reflexivity.
  apply run_ext, host_set_is_host_char.
Qed.

Lemma derives_tag_run w :
  derives false (plus (InSet true [SChar "!"; SCat CatSpace])) w
  <-> run is_tag_char w.
Proof.
  rewrite (derives_run_plus
             (set_match false true [SChar "!"; SCat CatSpace]))
    by reflexivity.
  apply run_ext, tag_set_is_tag_char.
Qed.

Lemma derives_lit c w : derives false (Lit c) w <-> w = [c].
Proof.
  rewrite (derives_char false (Lit c) (lit_match false c)) by reflexivity.
  unfold lit_match. split.
  - intros (a & -> & Ha). apply N.eqb_eq in Ha. now subst.
  - intros ->. exists c. split; [reflexivity|apply N.eqb_refl].
Qed.

Lemma derives_lits_text s w :
  derives false (lits s) w <-> w = codepoints s.
Proof. unfold lits. apply derives_lits_exact. Qed.

Lemma derives_space w :
  derives false (Cat CatSpace) w <->
  exists sp, w = [sp] /\ Chars.is_space sp = true.
Proof.
  now rewrite (derives_char false (Cat CatSpace) Chars.is_space)
    by reflexivity.
Qed.

Lemma derives_opt c w :
  derives false (opt (Lit c)) w <-> (w = [] \/ w = [c]).
Proof.
  unfold opt.
  rewrite (derives_run false (Lit c) (lit_match false c)) by reflexivity.
  unfold within, lit_match. split.
  - intros [Hw [_ Hl]]. destruct w as [|a [|b w]]; simpl in *; [auto| |lia].
    right. rewrite andb_true_r in Hw. apply N.eqb_eq in Hw. now subst.
  - intros [->| ->]; simpl; [split; [reflexivity|lia]|].
    rewrite N.eqb_refl. split; [reflexivity|lia].
Qed.

Lemma derives_times ic n r w :
  derives ic (times n r) w <->
  exists ws, w = List.concat ws /\ Forall (derives ic r) ws
             /\ List.length ws = n.
Proof.
  unfold times. split.
  - intros H. inversion H; subst. eexists. split; [reflexivity|].
    split; [assumption|].
    match goal with H : within _ _ _ |- _ => unfold within in H end. lia.
  - intros (ws & -> & Hws & Hn). constructor; [exact Hws|].
    unfold within. lia.
Qed.

(** The texts of the five patterns. *)
Lemma derives_vendor w :
  derives false LICENSE_VENDOR w <-> exists lt, vendor_tag lt w.
Proof.
  unfold LICENSE_VENDOR, vendor_tag. cbv [seqs fold_right].
  split.
  - intros H.
    apply derives_seq in H. destruct H as (w1 & r1 & -> & H1 & H).
    apply derives_seq in H. destruct H as (lt & r2 & -> & H2 & H).
    apply derives_seq in H. destruct H as (w3 & r3 & -> & H3 & H).
    apply derives_lit in H1. apply derives_group, derives_word_run in H2.
    apply derives_lits_text in H3. apply derives_empty in H. subst.
    exists lt. split; [exact H2|]. rewrite app_nil_r. reflexivity.
  - intros (lt & Hlt & ->).
    change (char_of "!" :: lt ++ codepoints "!Vendor")
      with ([char_of "!"] ++ lt ++ codepoints "!Vendor").
    rewrite <- (app_nil_r (codepoints "!Vendor")).
    repeat apply DSeq.
    + now apply derives_lit.
    + now apply derives_group, derives_word_run.
    + now apply derives_lits_text.
    + constructor.
Qed.

Lemma derives_loose w :
  derives false LICENSE_LOOSE w <-> exists lt, loose_tag lt w.
Proof.
  unfold LICENSE_LOOSE, loose_tag. cbv [seqs fold_right].
  split.
  - intros H.
    apply derives_seq in H. destruct H as (w1 & r1 & -> & H1 & H).
    apply derives_seq in H. destruct H as (lt & r2 & -> & H2 & H).
    apply derives_seq in H. destruct H as (w3 & r3 & -> & H3 & H).
    apply derives_seq in H. destruct H as (x & r4 & -> & H4 & H).
    apply derives_seq in H. destruct H as (w5 & r5 & -> & H5 & H).
    apply derives_lit in H1. apply derives_group, derives_word_run in H2.
    apply derives_lit in H3. apply derives_group, derives_tag_run in H4.
    apply derives_space in H5. destruct H5 as (sp & -> & Hsp).
    apply derives_empty in H. subst.
    exists lt. split; [exact H2|]. exists x, sp. auto.
  - intros (lt & Hlt & x & sp & -> & Hx & Hsp).
    change (char_of "!" :: lt ++ char_of "!" :: x ++ [sp])
      with ([char_of "!"] ++ lt ++ [char_of "!"] ++ x ++ [sp] ++ []).
    repeat apply DSeq.
    + now apply derives_lit.
    + now apply derives_group, derives_word_run.
    + now apply derives_lit.
    + now apply derives_group, derives_tag_run.
    + apply derives_space. eauto.
    + constructor.
Qed.

Lemma derives_user_at w :
  derives false USER_AT w <-> exists u, user_at_host u w.
Proof.
  unfold USER_AT, user_at_host. cbv [seqs fold_right].
  split.
  - intros H.
    apply derives_seq in H. destruct H as (bar & r1 & -> & H1 & H).
    apply derives_seq in H. destruct H as (u & r2 & -> & H2 & H).
    apply derives_seq in H. destruct H as (w3 & r3 & -> & H3 & H).
    apply derives_seq in H. destruct H as (host & r4 & -> & H4 & H).
    apply derives_opt in H1. apply derives_group, derives_ident_run in H2.
    apply derives_lit in H3. apply derives_host_run in H4.
    apply derives_empty in H. subst.
    exists u. split; [exact H2|]. exists bar, host.
    rewrite app_nil_r. auto.
  - intros (u & Hu & bar & host & -> & Hbar & Hhost).
    change (bar ++ u ++ char_of "@" :: host)
      with (bar ++ u ++ [char_of "@"] ++ host).
    rewrite <- (app_nil_r host).
    repeat apply DSeq.
    + now apply derives_opt.
    + now apply derives_group, derives_ident_run.
    + now apply derives_lit.
    + now apply derives_host_run.
    + constructor.
Qed.

Lemma derives_user_bars w :
  derives false USER_PIPES w <-> exists u, user_in_bars u w.
Proof.
  unfold USER_PIPES, user_in_bars. cbv [seqs fold_right].
  split.
  - intros H.
    apply derives_seq in H. destruct H as (w1 & r1 & -> & H1 & H).
    apply derives_seq in H. destruct H as (u & r2 & -> & H2 & H).
    apply derives_seq in H. destruct H as (w3 & r3 & -> & H3 & H).
    apply derives_lit in H1. apply derives_group, derives_ident_run in H2.
    apply derives_lit in H3. apply derives_empty in H. subst.
    exists u. split; [exact H2|]. reflexivity.
  - intros (u & Hu & ->).
    change (char_of "|" :: u ++ [char_of "|"])
      with ([char_of "|"] ++ u ++ [char_of "|"] ++ []).
    repeat apply DSeq.
    + now apply derives_lit.
    + now apply derives_group, derives_ident_run.
    + now apply derives_lit.
    + constructor.
Qed.

Lemma derives_octet o :
  derives false (Repeat 1 (Some 3) true (Cat CatDigit)) o
  <-> is_octet o = true.
Proof.
  rewrite (derives_run false (Cat CatDigit) Chars.is_digit) by reflexivity.
  unfold is_octet, within. rewrite !andb_true_iff, !Nat.leb_le.
  split; [intros (H & A & B)|intros ((H & A) & B)];
    repeat split; auto; lia.
Qed.

Lemma derives_dot_octet w :
  derives false (Seq (Lit ".") (Repeat 1 (Some 3) true (Cat CatDigit))) w
  <-> exists o, w = char_of "." :: o /\ is_octet o = true.
Proof.
  rewrite derives_seq. split.
  - intros (w1 & o & -> & H1 & H2). apply derives_lit in H1. subst.
    apply derives_octet in H2. exists o. split; [reflexivity|exact H2].
  - intros (o & -> & Ho). exists [char_of "."], o. repeat split.
    + now apply derives_lit.
    + now apply derives_octet.
Qed.

Lemma derives_ip w :
  derives false IP_PATTERN w <-> exists v, dotted_quad v w.
Proof.
  unfold IP_PATTERN, dotted_quad.
  rewrite derives_group, derives_seq. split.
  - intros (o1 & r & -> & H1 & H). apply derives_octet in H1.
    apply derives_times in H. destruct H as (ws & -> & Hws & Hn).
    destruct ws as [|x2 [|x3 [|x4 [|? ?]]]]; try discriminate.
    inversion Hws as [|? ? H2 Hws']; subst.
    inversion Hws' as [|? ? H3 Hws'']; subst.
    inversion Hws'' as [|? ? H4 _]; subst.
    apply derives_dot_octet in H2, H3, H4.
    destruct H2 as (o2 & -> & H2). destruct H3 as (o3 & -> & H3).
    destruct H4 as (o4 & -> & H4).
    eexists. split; [reflexivity|]. exists o1, o2, o3, o4.
    simpl. rewrite app_nil_r. auto.
  - intros (v & _ & o1 & o2 & o3 & o4 & -> & H1 & H2 & H3 & H4).
    exists o1, (char_of "." :: o2 ++ char_of "." :: o3 ++ char_of "." :: o4).
    repeat split; [now apply derives_octet|].
    apply derives_times.
    exists [char_of "." :: o2; char_of "." :: o3; char_of "." :: o4].
    simpl. rewrite app_nil_r. repeat split.
    repeat constructor; apply derives_dot_octet; eauto.
Qed.

(** What a match of each pattern says about group 1. *)
Lemma vendor_match i s m :
  rmatch false LICENSE_VENDOR accept i s [] = Some m ->
  exists v w b, s = w ++ b /\ vendor_tag v w /\ group 1 m = Some v.
Proof.
  unfold LICENSE_VENDOR. cbv [seqs fold_right]. intros H.
  apply seq_step in H. destruct H as (w1 & s1 & c1 & -> & H1 & H).
  apply seq_group_step in H; [|reflexivity|apply accept_keeps].
  destruct H as (lt & s2 & c2 & -> & H2 & G & H).
  apply seq_step in H. destruct H as (w3 & s3 & c3 & -> & H3 & _).
  apply derives_lit in H1. apply derives_word_run in H2.
  apply derives_lits_text in H3. subst.
  exists lt, (char_of "!" :: lt ++ codepoints "!Vendor"), s3.
  split; [|split; [split; [exact H2|reflexivity]|exact G]].
  cbn [app]. now rewrite <- app_assoc.
Qed.

Lemma loose_match i s m :
  rmatch false LICENSE_LOOSE accept i s [] = Some m ->
  exists v w b, s = w ++ b /\ loose_tag v w /\ group 1 m = Some v.
Proof.
  unfold LICENSE_LOOSE. cbv [seqs fold_right]. intros H.
  apply seq_step in H. destruct H as (w1 & s1 & c1 & -> & H1 & H).
  apply seq_group_step in H; [|reflexivity|apply accept_keeps].
  destruct H as (lt & s2 & c2 & -> & H2 & G & H).
  apply seq_step in H. destruct H as (w3 & s3 & c3 & -> & H3 & H).
  apply seq_step in H. destruct H as (x & s4 & c4 & -> & H4 & H).
  apply seq_step in H. destruct H as (w5 & s5 & c5 & -> & H5 & _).
  apply derives_lit in H1. apply derives_word_run in H2.
  apply derives_lit in H3. apply derives_group, derives_tag_run in H4.
  apply derives_space in H5. destruct H5 as (sp & -> & Hsp). subst.
  exists lt, (char_of "!" :: lt ++ char_of "!" :: x ++ [sp]), s5.
  split; [|split; [split; [exact H2|exists x, sp; auto]|exact G]].
  cbn [app]. rewrite <- !app_assoc. cbn [app]. now rewrite <- !app_assoc.
Qed.

Lemma user_at_match i s m :
  rmatch false USER_AT accept i s [] = Some m ->
  exists v w b, s = w ++ b /\ user_at_host v w /\ group 1 m = Some v.
Proof.
  unfold USER_AT. cbv [seqs fold_right]. intros H.
  apply seq_step in H. destruct H as (bar & s1 & c1 & -> & H1 & H).
  apply seq_group_step in H; [|reflexivity|apply accept_keeps].
  destruct H as (u & s2 & c2 & -> & H2 & G & H).
  apply seq_step in H. destruct H as (w3 & s3 & c3 & -> & H3 & H).
  apply seq_step in H. destruct H as (host & s4 & c4 & -> & H4 & _).
  apply derives_opt in H1. apply derives_ident_run in H2.
  apply derives_lit in H3. apply derives_host_run in H4. subst.
  exists u, (bar ++ u ++ char_of "@" :: host), s4.
  split; [|split; [split; [exact H2|exists bar, host; auto]|exact G]].
  rewrite <- !app_assoc. reflexivity.
Qed.

Lemma user_bars_match i s m :
  rmatch false USER_PIPES accept i s [] = Some m ->
  exists v w b, s = w ++ b /\ user_in_bars v w /\ group 1 m = Some v.
Proof.
  unfold USER_PIPES. cbv [seqs fold_right]. intros H.
  apply seq_step in H. destruct H as (w1 & s1 & c1 & -> & H1 & H).
  apply seq_group_step in H; [|reflexivity|apply accept_keeps].
  destruct H as (u & s2 & c2 & -> & H2 & G & H).
  apply seq_step in H. destruct H as (w3 & s3 & c3 & -> & H3 & _).
  apply derives_lit in H1. apply derives_ident_run in H2.
  apply derives_lit in H3. subst.
  exists u, (char_of "|" :: u ++ [char_of "|"]), s3.
  split; [|split; [split; [exact H2|reflexivity]|exact G]].
  cbn [app]. rewrite <- !app_assoc. reflexivity.
Qed.

(** [search] with a pattern of one of these forms: the value of the
    leftmost part of the form, or no part of the form. *)
Lemma search_leftmost r form l :
  plain r = true ->
  (forall w, derives false r w <-> exists v, form v w) ->
  (forall i s m,
      rmatch false r accept i s [] = Some m ->
      exists v w b, s = w ++ b /\ form v w /\ group 1 m = Some v) ->
  match search false r l with
  | Some m => exists v, group 1 m = Some v /\ leftmost form l v
  | None => ~ has form l
  end.
Proof.
  intros Hp Hd Hm. destruct (search false r l) as [m|] eqn:E.
  - unfold search in E. apply search_from_split in E.
    destruct E as (a & suf & -> & E & Hleft).
    apply Hm in E. destruct E as (v & w & b & -> & Hv & G).
    exists v. split; [exact G|]. exists a, w, b. repeat split; auto.
    intros a' w' b' v' El Hv'.
    destruct (Nat.le_gt_cases (List.length a) (List.length a')) as [L|L];
      [exact L|exfalso].
    specialize (Hleft a' (w' ++ b') El L). revert Hleft.
    apply (rmatch_complete false r Hp w'); [|discriminate].
    apply Hd. eauto.
  - intros (a & w & b & v & -> & Hv). revert E.
    apply search_complete; [exact Hp|]. apply Hd. eauto.
Qed.

Lemma group_val_some n m v :
  group n m = Some v -> group_val n m = PyStr v.
Proof. unfold group_val. now intros ->. Qed.

Lemma license_type_of_spec l :
  exists lt,
    license_type_of l = PyStr lt
    /\ (leftmost vendor_tag l lt
        \/ (~ has vendor_tag l /\ leftmost loose_tag l lt)
        \/ (~ has vendor_tag l /\ ~ has loose_tag l /\ lt = UNKNOWN)).
Proof.
  unfold license_type_of.
  pose proof (search_leftmost LICENSE_VENDOR vendor_tag l eq_refl
                derives_vendor vendor_match) as Hv.
  pose proof (search_leftmost LICENSE_LOOSE loose_tag l eq_refl
                derives_loose loose_match) as Hl.
  destruct (search false LICENSE_VENDOR l) as [m|].
  - destruct Hv as (v & G & Hv). exists v.
    rewrite (group_val_some _ _ _ G). auto.
  - destruct (search false LICENSE_LOOSE l) as [m|].
    + destruct Hl as (v & G & Hl). exists v.
      rewrite (group_val_some _ _ _ G). auto.
    + exists UNKNOWN. split; [reflexivity|]. auto.
Qed.

Lemma user_name_of_spec l :
  exists u,
    user_name_of l = PyStr u
    /\ (leftmost user_at_host l u
        \/ (~ has user_at_host l /\ leftmost user_in_bars l u)
        \/ (~ has user_at_host l /\ ~ has user_in_bars l /\ u = UNKNOWN)).
Proof.
  unfold user_name_of.
  pose proof (search_leftmost USER_AT user_at_host l eq_refl
                derives_user_at user_at_match) as Ha.
  pose proof (search_leftmost USER_PIPES user_in_bars l eq_refl
                derives_user_bars user_bars_match) as Hb.
  destruct (search false USER_AT l) as [m|].
  - destruct Ha as (v & G & Ha). exists v.
    rewrite (group_val_some _ _ _ G). auto.
  - destruct (search false USER_PIPES l) as [m|].
    + destruct Hb as (v & G & Hb). exists v.
      rewrite (group_val_some _ _ _ G). auto.
    + exists UNKNOWN. split; [reflexivity|]. auto.
Qed.

Lemma unknown_is_no_quad w : ~ dotted_quad UNKNOWN w.
Proof.
  intros (<- & o1 & o2 & o3 & o4 & E & H1 & _).
  unfold UNKNOWN in E. unfold is_octet in H1.
  destruct o1 as [|d o1]; [discriminate|].
  simpl in E, H1. injection E as <- _. discriminate.
Qed.

(* ------------------------------------------------------------------ *)
(** ** The greedy last group of the address *)

Lemma rep_upto_total (m : cont -> cont) greedy n k :
  (forall i s c, k i s c <> None) ->
  forall i s c, rep_upto m greedy n k i s c <> None.
Proof.
  intros Hk. induction n as [|n IH]; intros i s c; simpl; [apply Hk|].
  destruct greedy.
  - destruct (m (rep_upto m true n k) i s c); [discriminate|apply Hk].
  - destruct (k i s c) eqn:E; [discriminate|]. now apply Hk in E.
Qed.

(** A greedy run before a continuation that never fails takes every
    character it can. *)
Lemma greedy_run_max p n k :
  (forall i s c, k i s c <> None) ->
  forall i s c c',
    rep_upto (one_char p) true n k i s c = Some c' ->
    exists pre s',
      s = pre ++ s' /\ forallb p pre = true /\ List.length pre <= n
      /\ k (i + List.length pre) s' c = Some c'
      /\ (List.length pre = n \/ forall x t, s' = x :: t -> p x = false).
Proof.
  intros Hk. induction n as [|n IH]; intros i s c c' H; simpl in H.
  - exists [], s. simpl. rewrite Nat.add_0_r. repeat split; auto.
  - destruct s as [|a s1]; simpl in H.
    + exists [], []. simpl. rewrite Nat.add_0_r.
      repeat split; auto; try lia. right. intros x t E. discriminate E.
    + destruct (p a) eqn:Pa.
      * destruct (rep_upto (one_char p) true n k (S i) s1 c) as [c2|] eqn:E.
        -- injection H as <-. apply IH in E.
           destruct E as (pre & s' & -> & Hp & L & E & M).
           exists (a :: pre), s'. simpl. rewrite Pa, Hp, Nat.add_succ_r.
           repeat split; auto; try lia. destruct M as [M|M]; auto.
        -- exfalso. revert E. now apply rep_upto_total.
      * exists [], (a :: s1). simpl. rewrite Nat.add_0_r.
        repeat split; auto; try lia. right. intros x t E.
        now injection E as <- _.
Qed.

Lemma last_octet k i s c c' :
  (forall i s c, k i s c <> None) ->
  rmatch false (Repeat 1 (Some 3) true (Cat CatDigit)) k i s c = Some c' ->
  exists o s',
    s = o ++ s' /\ is_octet o = true
    /\ k (i + List.length o) s' c = Some c'
    /\ (List.length o = 3
        \/ forall x t, s' = x :: t -> Chars.is_digit x = false).
Proof.
  intros Hk H.
  change (one_char Chars.is_digit
            (rep_upto (one_char Chars.is_digit) true 2 k) i s c = Some c')
    in H.
  unfold one_char at 1 in H. destruct s as [|a s1]; [discriminate|].
  destruct (Chars.is_digit a) eqn:Da; [|discriminate].
  apply (greedy_run_max _ _ _ Hk) in H.
  destruct H as (pre & s' & -> & Hp & L & H & M).
  exists (a :: pre), s'. simpl. rewrite Nat.add_succ_r.
  split; [reflexivity|]. split; [|split; [exact H|]].
  - unfold is_octet. simpl. rewrite Da, Hp. simpl.
    apply Nat.leb_le. lia.
  - destruct M as [M|M]; [left; lia|right; exact M].
Qed.

Lemma is_octet_spec o :
  is_octet o = true <->
  forallb Chars.is_digit o = true /\ 1 <= List.length o <= 3.
Proof.
  unfold is_octet. rewrite !andb_true_iff, !Nat.leb_le. tauto.
Qed.

Lemma dot_is_no_digit : Chars.is_digit (char_of ".") = false.
Proof. vm_compute. reflexivity. Qed.

(** Two groups of digits that start at the same place and are followed
    by a dot are the same. *)
Lemma octet_unique o o' r r' :
  is_octet o = true -> is_octet o' = true ->
  o ++ char_of "." :: r = o' ++ char_of "." :: r' -> o = o' /\ r = r'.
Proof.
  intros H H' E. apply is_octet_spec in H. apply is_octet_spec in H'.
  apply (span_unique Chars.is_digit) in E;
    try tauto; try apply dot_is_no_digit.
Qed.

(** Of the dotted quads at one place, the one whose last group cannot
    be extended is the longest. *)
Lemma quad_longest o1 o2 o3 o4 b w' b' v' :
  is_octet o1 = true -> is_octet o2 = true -> is_octet o3 = true ->
  is_octet o4 = true ->
  (List.length o4 = 3
   \/ forall x t, b = x :: t -> Chars.is_digit x = false) ->
  (o1 ++ char_of "." :: o2 ++ char_of "." :: o3 ++ char_of "." :: o4) ++ b
  = w' ++ b' ->
  dotted_quad v' w' ->
  List.length w'
  <= List.length
       (o1 ++ char_of "." :: o2 ++ char_of "." :: o3 ++ char_of "." :: o4).
Proof.
  intros H1 H2 H3 H4 M E (_ & p1 & p2 & p3 & p4 & -> & Q1 & Q2 & Q3 & Q4).
  repeat (rewrite <- ?app_assoc in E; cbn [app] in E).
  apply octet_unique in E; auto. destruct E as [<- E].
  apply octet_unique in E; auto. destruct E as [<- E].
  apply octet_unique in E; auto. destruct E as [<- E].
  assert (L : List.length p4 <= List.length o4).
  { apply is_octet_spec in H4, Q4.
    destruct M as [M|M]; [lia|].
    apply app_eq_app in E. destruct E as (t & [[E1 E2]|[E1 E2]]).
    - subst. rewrite length_app. lia.
    - subst p4. destruct t as [|x t]; [rewrite app_nil_r; lia|].
      exfalso. destruct Q4 as [Q4 _]. rewrite forallb_app in Q4.
      apply andb_true_iff in Q4. destruct Q4 as [_ Q4]. simpl in Q4.
      rewrite (M x (t ++ b') E2) in Q4. discriminate. }
  repeat (rewrite !length_app; cbn [List.length]). lia.
Qed.

Lemma times_three ic r k i s c :
  rmatch ic (times 3 r) k i s c
  = rmatch ic r (rmatch ic r (rmatch ic r k)) i s c.
Proof. reflexivity. Qed.

Lemma firstn_prefix {A} (w b : list A) i n :
  n = i + List.length w -> firstn (n - i) (w ++ b) = w.
Proof.
  intros ->. replace (i + List.length w - i) with (List.length w) by lia.
  rewrite firstn_app, Nat.sub_diag, firstn_all. simpl. apply app_nil_r.
Qed.

(** A match of the address pattern: the longest dotted quad at its
    place, and group 1 is the whole of it. *)
Lemma ip_match_longest i s m :
  rmatch false IP_PATTERN accept i s [] = Some m ->
  exists v w b,
    s = w ++ b /\ dotted_quad v w /\ group 1 m = Some v
    /\ forall w' b' v',
         s = w' ++ b' -> dotted_quad v' w' ->
         List.length w' <= List.length w.
Proof.
  intros H.
  set (octet := Repeat 1 (Some 3) true (Cat CatDigit)) in *.
  set (kG := fun (i' : nat) (s' : str) (c' : caps) =>
               accept i' s' ((1, firstn (i' - i) s) :: c')).
  assert (Tot : forall i s c, kG i s c <> None) by (intros; discriminate).
  change (rmatch false octet
            (rmatch false (times 3 (Seq (Lit ".") octet)) kG) i s []
          = Some m) in H.
  apply rmatch_exact in H. destruct H as (o1 & s1 & c1 & E1 & D1 & H).
  rewrite times_three in H.
  apply seq_step in H. destruct H as (d2 & s2 & c2 & E2 & L2 & H).
  apply rmatch_exact in H. destruct H as (o2 & s3 & c3 & E3 & D2 & H).
  apply seq_step in H. destruct H as (d3 & s4 & c4 & E4 & L3 & H).
  apply rmatch_exact in H. destruct H as (o3 & s5 & c5 & E5 & D3 & H).
  apply seq_step in H. destruct H as (d4 & s6 & c6 & E6 & L4 & H).
  apply (last_octet _ _ _ _ _ Tot) in H.
  destruct H as (o4 & b & E7 & D4 & H & M).
  apply derives_lit in L2, L3, L4. apply derives_octet in D1, D2, D3.
  subst d2 d3 d4 s6 s5 s4 s3 s2 s1.
  set (w := o1 ++ char_of "." :: o2 ++ char_of "." :: o3
            ++ char_of "." :: o4).
  assert (Es : s = w ++ b).
  { rewrite E1. unfold w.
    repeat (rewrite <- ?app_assoc; cbn [app]). reflexivity. }
  exists w, w, b. split; [exact Es|]. split; [|split].
  - split; [reflexivity|]. exists o1, o2, o3, o4. auto.
  - unfold kG, accept in H. injection H as <-. cbn [group Nat.eqb].
    f_equal. rewrite Es. apply firstn_prefix. unfold w.
    repeat (rewrite !length_app; cbn [List.length]). lia.
  - intros w' b' v' E Q. rewrite Es in E.
    exact (quad_longest o1 o2 o3 o4 b w' b' v' D1 D2 D3 D4 M E Q).
Qed.

(** [search] with a pattern whose matches are the longest at their
    place. *)
Lemma search_leftmost_longest r form l :
  plain r = true ->
  (forall w, derives false r w <-> exists v, form v w) ->
  (forall i s m,
      rmatch false r accept i s [] = Some m ->
      exists v w b,
        s = w ++ b /\ form v w /\ group 1 m = Some v
        /\ forall w' b' v',
             s = w' ++ b' -> form v' w' ->
             List.length w' <= List.length w) ->
  match search false r l with
  | Some m => exists v, group 1 m = Some v /\ leftmost_longest form l v
  | None => ~ has form l
  end.
Proof.
  intros Hp Hd Hm. destruct (search false r l) as [m|] eqn:E.
  - unfold search in E. apply search_from_split in E.
    destruct E as (a & suf & -> & E & Hleft).
    apply Hm in E. destruct E as (v & w & b & -> & Hv & G & Hmax).
    exists v. split; [exact G|]. exists a, w, b. repeat split; auto.
    + destruct (Nat.le_gt_cases (List.length a) (List.length a')) as [L|L];
        [exact L|exfalso].
      specialize (Hleft a' (w' ++ b') H L). revert Hleft.
      apply (rmatch_complete false r Hp w'); [|discriminate].
      apply Hd. eauto.
    + intros L. apply app_same_length in H; [|now symmetry].
      destruct H as [_ H]. now apply (Hmax w' b' v').
  - intros (a & w & b & v & -> & Hv). revert E.
    apply search_complete; [exact Hp|]. apply Hd. eauto.
Qed.

(** The leftmost longest dotted quad of a line is one text. *)
Lemma leftmost_longest_quad_unique l v1 v2 :
  leftmost_longest dotted_quad l v1 -> leftmost_longest dotted_quad l v2 ->
  v1 = v2.
Proof.
  intros (a1 & w1 & b1 & E1 & [-> Q1] & M1) (a2 & w2 & b2 & E2 & [-> Q2] & M2).
  destruct (M1 a2 w2 b2 w2 E2 (conj eq_refl Q2)) as [L12 K12].
  destruct (M2 a1 w1 b1 w1 E1 (conj eq_refl Q1)) as [L21 K21].
  assert (L : List.length a1 = List.length a2) by lia.
  rewrite E1 in E2. apply app_same_length in E2; [|exact L].
  destruct E2 as [_ E2].
  apply app_same_length in E2; [tauto|].
  specialize (K12 (eq_sym L)). specialize (K21 L). lia.
Qed.

Lemma client_ip_of_longest l :
  exists ip,
    client_ip_of l = PyStr ip
    /\ (leftmost_longest dotted_quad l ip
        \/ (~ has dotted_quad l /\ ip = UNKNOWN))
    /\ (ip = UNKNOWN <-> ~ has dotted_quad l)
    /\ forall v, leftmost_longest dotted_quad l v -> v = ip.
Proof.
  unfold client_ip_of.
  pose proof (search_leftmost_longest IP_PATTERN dotted_quad l eq_refl
                derives_ip ip_match_longest) as Hq.
  destruct (search false IP_PATTERN l) as [m|].
  - destruct Hq as (v & G & Hq). exists v.
    rewrite (group_val_some _ _ _ G). split; [reflexivity|].
    split; [auto|]. split; [split|].
    + intros ->. destruct Hq as (a & w & b & _ & Hw & _).
      now apply unknown_is_no_quad in Hw.
    + intros Hn. exfalso. apply Hn.
      destruct Hq as (a & w & b & E & Hw & _). exists a, w, b, v. auto.
    + intros v' Hv'. exact (leftmost_longest_quad_unique l v' v Hv' Hq).
  - exists UNKNOWN. split; [reflexivity|]. split; [auto|].
    split; [tauto|].
    intros v (a & w & b & E & Hw & _). exfalso. apply Hq.
    exists a, w, b, v. auto.
Qed.

(* ------------------------------------------------------------------ *)
(** ** The three auxiliary fields *)

(** X4: the license type of an entry is the name between the
    exclamation marks of the leftmost [!name!Vendor] of the line; without
    one, of the leftmost [!name!text] that is followed by whitespace; the
    placeholder Unknown only when the line has neither. *)
Theorem parse_log_line_license_type (line : str) (e : dict) :
  parse_log_line line = Some e ->
  exists lt,
    dict_get e "license_type" = Some (PyStr lt)
    /\ (leftmost vendor_tag line lt
        \/ (~ has vendor_tag line /\ leftmost loose_tag line lt)
        \/ (~ has vendor_tag line /\ ~ has loose_tag line /\ lt = UNKNOWN)).
Proof.
  intros H. apply parse_log_line_auxiliary in H.
  destruct H as (-> & _).
  destruct (license_type_of_spec line) as (lt & -> & Hlt). eauto.
Qed.

Lemma parse_log_line_license_type_witness :
  parse_log_line shouting_line = Some shouting_entry
  /\ exists lt,
       dict_get shouting_entry "license_type" = Some (PyStr lt)
       /\ (leftmost vendor_tag shouting_line lt
           \/ (~ has vendor_tag shouting_line
               /\ leftmost loose_tag shouting_line lt)
           \/ (~ has vendor_tag shouting_line
               /\ ~ has loose_tag shouting_line /\ lt = UNKNOWN)).
Proof.
  split; [vm_compute; reflexivity|].
  apply (parse_log_line_license_type shouting_line shouting_entry).
  vm_compute; reflexivity.
Defined.

(** X5: the user name of an entry is the name in front of the at-sign of
    the leftmost [user@host] of the line; without one, the name of the
    leftmost [|user|]; the placeholder Unknown only when the line has
    neither. *)
Theorem parse_log_line_user_name (line : str) (e : dict) :
  parse_log_line line = Some e ->
  exists u,
    dict_get e "user_name" = Some (PyStr u)
    /\ (leftmost user_at_host line u
        \/ (~ has user_at_host line /\ leftmost user_in_bars line u)
        \/ (~ has user_at_host line /\ ~ has user_in_bars line
            /\ u = UNKNOWN)).
Proof.
  intros H. apply parse_log_line_auxiliary in H.
  destruct H as (_ & -> & _).
  destruct (user_name_of_spec line) as (u & -> & Hu). eauto.
Qed.

Lemma parse_log_line_user_name_witness :
  parse_log_line shouting_line = Some shouting_entry
  /\ exists u,
       dict_get shouting_entry "user_name" = Some (PyStr u)
       /\ (leftmost user_at_host shouting_line u
           \/ (~ has user_at_host shouting_line
               /\ leftmost user_in_bars shouting_line u)
           \/ (~ has user_at_host shouting_line
               /\ ~ has user_in_bars shouting_line /\ u = UNKNOWN)).
Proof.
  split; [vm_compute; reflexivity|].
  apply (parse_log_line_user_name shouting_line shouting_entry).
  vm_compute; reflexivity.
Defined.

(** X6: the client address of an entry is the dotted quad of the line
    (four groups of one to three decimal digits, with dots between them)
    that starts leftmost and, of those that start there, is the longest:
    the groups are taken greedily.  This text is the only one of its
    kind, and the address is the placeholder Unknown exactly when the
    line has no dotted quad. *)
Theorem parse_log_line_client_ip (line : str) (e : dict) :
  parse_log_line line = Some e ->
  exists ip,
    dict_get e "client_ip" = Some (PyStr ip)
    /\ (leftmost_longest dotted_quad line ip
        \/ (~ has dotted_quad line /\ ip = UNKNOWN))
    /\ (ip = UNKNOWN <-> ~ has dotted_quad line)
    /\ forall v, leftmost_longest dotted_quad line v -> v = ip.
Proof.
  intros H. apply parse_log_line_auxiliary in H.
  destruct H as (_ & _ & ->).
  destruct (client_ip_of_longest line) as (ip & -> & Hip). eauto.
Qed.

Lemma parse_log_line_client_ip_witness :
  parse_log_line long_octet_line = Some long_octet_entry
  /\ exists ip,
       dict_get long_octet_entry "client_ip" = Some (PyStr ip)
       /\ (leftmost_longest dotted_quad long_octet_line ip
           \/ (~ has dotted_quad long_octet_line /\ ip = UNKNOWN))
       /\ (ip = UNKNOWN <-> ~ has dotted_quad long_octet_line)
       /\ forall v, leftmost_longest dotted_quad long_octet_line v -> v = ip.
Proof.
  split; [vm_compute; reflexivity|].
  apply (parse_log_line_client_ip long_octet_line long_octet_entry).
  vm_compute; reflexivity.
Defined.

(* ================================================================== *)
(** * What [process_log_file] computes *)

(** The parser returns the eight fields, in this order, and the raw
    message is the line without its trailing newlines. *)
Lemma parse_log_line_shape line e :
  parse_log_line line = Some e ->
  exists ts lv comp act lt un ip,
    e = [("timestamp", ts); ("log_level", lv); ("component", comp);
         ("action", act); ("license_type", lt); ("user_name", un);
         ("client_ip", ip); ("raw_message", PyStr (raw_of line))].
Proof.
  unfold parse_log_line. intros H.
  destruct (search true LOG_PATTERN line);
    [|discriminate].
  injection H as <-. do 7 eexists. reflexivity.
Qed.

(** An entry of the parsed list: the eight fields, then the hash of its
    raw message. *)
Lemma entry_of_shape line e :
  In e (entry_of line) ->
  exists ts lv comp act lt un ip,
    e = [("timestamp", ts); ("log_level", lv); ("component", comp);
         ("action", act); ("license_type", lt); ("user_name", un);
         ("client_ip", ip); ("raw_message", PyStr (raw_of line));
         ("raw_hash", PyStr (fingerprint line))].
Proof.
  unfold entry_of. intros H.
  destruct (is_blank line); [destruct H|].
  destruct (parse_log_line line) as [e0|] eqn:E; [|destruct H].
  destruct H as [<-|[]].
  destruct (parse_log_line_shape _ _ E)
    as (ts & lv & comp & act & lt & un & ip & ->).
  exists ts, lv, comp, act, lt, un, ip. reflexivity.
Qed.

(** Replace an entry of the parsed list by its nine members. *)
Ltac entry_fields H :=
  let ts := fresh "ts" in
  let lv := fresh "lv" in
  let comp := fresh "comp" in
  let act := fresh "act" in
  let lt := fresh "lt" in
  let un := fresh "un" in
  let ip := fresh "ip" in
  destruct (entry_of_shape _ _ H)
    as (ts & lv & comp & act & lt & un & ip & ->).

Lemma entries_shape lines e :
  In e (entries lines) ->
  exists line, In line lines /\ In e (entry_of line).
Proof.
  unfold entries. intros H. apply in_flat_map in H. exact H.
Qed.

Lemma parse_lines_entries lines parsed :
  parse_lines lines parsed = Ok (parsed ++ entries lines).
Proof.
  revert parsed. induction lines as [|line rest IH]; intros parsed; simpl.
  - now rewrite app_nil_r.
  - unfold entry_of.
    destruct (is_blank line); [apply IH|].
    destruct (parse_log_line line) as [e|] eqn:E; [|apply IH].
    destruct (parse_log_line_shape _ _ E)
      as (ts & lv & comp & act & lt & un & ip & ->).
    cbn. rewrite IH. now rewrite <- app_assoc.
Qed.

Lemma to_row_entry line e :
  In e (entry_of line) -> to_row e = Ok (row_of e).
Proof.
  intros H. entry_fields H.
  reflexivity.
Qed.

Lemma to_row_entries lines :
  mapM to_row (entries lines) = Ok (map row_of (entries lines)).
Proof.
  assert (G : forall es, (forall e, In e es -> to_row e = Ok (row_of e)) ->
                         mapM to_row es = Ok (map row_of es)).
  { induction es as [|e es IH]; intros H; simpl; [reflexivity|].
    rewrite (H e (or_introl eq_refl)). simpl.
    rewrite IH by (intros; apply H; now right). reflexivity. }
  apply G. intros e He. apply entries_shape in He.
  destruct He as (line & _ & He). now apply to_row_entry with line.
Qed.

(** [process_log_file] in closed form. *)
Lemma process_log_file_readable lines db rc :
  process_log_file (Readable lines) db rc
  = match entries lines with
    | [] => (0, db, rc)
    | _ :: _ =>
        (List.length (entries lines),
         executemany db (map row_of (entries lines)),
         match rc with
         | Some r => Some (fst (push_all r (entries lines) 0))
         | None => None
         end)
    end.
Proof.
  unfold process_log_file, process_body, read_file.
  rewrite parse_lines_entries. simpl.
  destruct (entries lines) as [|e es] eqn:E; [reflexivity|].
  rewrite <- E, to_row_entries. reflexivity.
Qed.

Lemma process_log_file_unreadable lines db rc :
  process_log_file (Unreadable lines) db rc = (0, db, rc).
Proof.
  unfold process_log_file, process_body, read_file.
  rewrite parse_lines_entries. reflexivity.
Qed.

Lemma process_log_file_count f db rc :
  fst (fst (process_log_file f db rc)) = count_of f.
Proof.
  destruct f as [lines|lines].
  - rewrite process_log_file_readable. simpl.
    destruct (entries lines); reflexivity.
  - now rewrite process_log_file_unreadable.
Qed.

(** The queue connection has no influence on the count and the store. *)
Lemma process_log_file_archive f db rc1 rc2 :
  fst (process_log_file f db rc1) = fst (process_log_file f db rc2).
Proof.
  destruct f as [lines|lines].
  - rewrite !process_log_file_readable.
    destruct (entries lines); reflexivity.
  - now rewrite !process_log_file_unreadable.
Qed.

(* ================================================================== *)
(** * The run: what [main] records *)

Section MainLoop.

Variable force : bool.
Variable dir : directory.

Lemma main_step_cases st f :
  (mem f (parsed_files st) && negb force = true
   /\ main_step force dir st f = st)
  \/ (mem f (parsed_files st) && negb force = false /\
      processed (main_step force dir st f) = processed st ++ [f] /\
      total_parsed (main_step force dir st f)
      = total_parsed st + count_of (open_file dir f) /\
      parsed_files (main_step force dir st f)
      = if Nat.ltb 0 (count_of (open_file dir f))
        then parsed_files st ++ [f] else parsed_files st).
Proof.
  unfold main_step.
  destruct (mem f (parsed_files st) && negb force) eqn:E; [left; auto|].
  right. split; [reflexivity|].
  pose proof (process_log_file_count (open_file dir f) (conn st)
                (redis_conn st)) as Hc.
  destruct (process_log_file (open_file dir f) (conn st) (redis_conn st))
    as [[n db'] rc']. simpl in Hc. subst n.
  destruct (Nat.ltb 0 (count_of (open_file dir f))) eqn:L; simpl.
  - auto.
  - apply Nat.ltb_ge in L. repeat split; lia.
Qed.


(** A file is in the completed list after the loop only if it was there
    before or a call of [process_log_file] reported entries for it. *)
Lemma main_loop_parsed_files l st f :
  In f (parsed_files (fold_left (main_step force dir) l st)) ->
  In f (parsed_files st) \/ (In f l /\ 0 < count_of (open_file dir f)).
Proof.
  revert st. induction l as [|x l IH]; intros st H; simpl in H; [auto|].
  apply IH in H. destruct H as [H|[H1 H2]]; [|right; split; [now right|auto]].
  destruct (main_step_cases st x) as [[_ E]|(_ & _ & _ & E)];
    rewrite E in H; [auto|].
  destruct (Nat.ltb 0 (count_of (open_file dir x))) eqn:L; [|auto].
  apply in_app_or in H. destruct H as [H|[<-|[]]]; [auto|].
  right. split; [now left|now apply Nat.ltb_lt].
Qed.



(** The total grows by the counts of the files processed. *)
Lemma main_loop_total l st :
  exists more,
    processed (fold_left (main_step force dir) l st) = processed st ++ more /\
    total_parsed (fold_left (main_step force dir) l st)
    = total_parsed st
      + list_sum (map (fun f => count_of (open_file dir f)) more).
Proof.
  revert st. induction l as [|x l IH]; intros st; simpl.
  - exists []. split; [now rewrite app_nil_r|simpl; lia].
  - destruct (IH (main_step force dir st x)) as (more & Hp & Ht).
    destruct (main_step_cases st x) as [[_ E]|(_ & Ep & Et & _)].
    + exists more. rewrite E in Hp, Ht |- *. now split.
    + exists (x :: more). rewrite Hp, Ht, Ep, Et, <- app_assoc. simpl.
      split; [reflexivity|lia].
Qed.

Lemma main_loop_total_fresh l st :
  processed st = [] ->
  total_parsed st = 0 ->
  total_parsed (fold_left (main_step force dir) l st)
  = list_sum (map (fun f => count_of (open_file dir f))
                  (processed (fold_left (main_step force dir) l st))).
Proof.
  intros Hp Ht. destruct (main_loop_total l st) as (more & Hm & Hsum).
  rewrite Hm, Hsum, Hp, Ht. reflexivity.
Qed.

End MainLoop.

(* ================================================================== *)
(** * Failed reads, empty files and the degraded mode: C9, C5, C6 *)

Lemma main_with_directory force w dir :
  log_directory w = Some dir ->
  let st := main_loop force dir
              {| conn := connect_db (db_file w);
                 parsed_files :=
                   if force then [] else load_parsed_files (tracker w);
                 total_parsed := 0;
                 redis_conn := get_redis_connection (redis_server w);
                 processed := [] |} in
  tracker (final (main force w)) = TrackerList (parsed_files st)
  /\ db_file (final (main force w)) = Some (conn st)
  /\ summary (main force w) = Some (total_parsed st)
  /\ calls (main force w) = processed st.
Proof.
  intros H. unfold main. rewrite H. simpl. auto.
Qed.

(** C9: when opening or reading a file fails, [process_log_file] inserts
    no row and reports 0, whatever was read before the failure; the step
    of [main] leaves the completed list, the store and the total as they
    were, and the file is not in the tracker the run saves unless an
    earlier run had put it there. *)
Theorem C9_read_failure_is_atomic
  (lines : list str) (db : database) (rc : option redis)
  (force : bool) (dir : directory) (st : run_state) (log_file : string)
  (w : world) :
  process_log_file (Unreadable lines) db rc = (0, db, rc)
  /\ (open_file dir log_file = Unreadable lines ->
      parsed_files (main_step force dir st log_file) = parsed_files st
      /\ conn (main_step force dir st log_file) = conn st
      /\ total_parsed (main_step force dir st log_file) = total_parsed st)
  /\ (log_directory w = Some dir ->
      open_file dir log_file = Unreadable lines ->
      In log_file (load_parsed_files (tracker (final (main force w)))) ->
      force = false /\ In log_file (load_parsed_files (tracker w))).
Proof.
  split; [apply process_log_file_unreadable|]. split.
  - intros Hf. unfold main_step.
    destruct (mem log_file (parsed_files st) && negb force); [auto|].
    rewrite Hf, process_log_file_unreadable. simpl. auto.
  - intros Hd Hf Hin.
    destruct (main_with_directory force w dir Hd) as (Ht & _).
    rewrite Ht in Hin. simpl in Hin. unfold main_loop in Hin.
    apply main_loop_parsed_files in Hin. simpl in Hin.
    destruct Hin as [Hin|[_ Hc]].
    + destruct force; [destruct Hin|auto].
    + rewrite Hf in Hc. simpl in Hc. lia.
Qed.



Lemma main_step_same_archive force dir a b f :
  same_archive a b ->
  same_archive (main_step force dir a f) (main_step force dir b f).
Proof.
  intros (Hc & Hp & Ht & Hd). unfold main_step. rewrite Hp.
  destruct (mem f (parsed_files b) && negb force);
    [repeat split; assumption|].
  pose proof (process_log_file_archive (open_file dir f) (conn a)
                (redis_conn a) (redis_conn b)) as E.
  rewrite Hc in E. rewrite Hc.
  destruct (process_log_file (open_file dir f) (conn b) (redis_conn a))
    as [[n1 d1] r1].
  destruct (process_log_file (open_file dir f) (conn b) (redis_conn b))
    as [[n2 d2] r2].
  simpl in E. injection E as -> ->.
  destruct (Nat.ltb 0 n2); repeat split; simpl; congruence.
Qed.

Lemma main_loop_same_archive force dir l a b :
  same_archive a b ->
  same_archive (fold_left (main_step force dir) l a)
               (fold_left (main_step force dir) l b).
Proof.
  revert a b. induction l as [|f l IH]; intros a b H; simpl; [exact H|].
  apply IH. now apply main_step_same_archive.
Qed.

(** The archive side of a run does not depend on the queue service. *)
Lemma main_ignores_queue (force : bool) (w : world) (env1 env2 : redis_env) :
  db_file (final (main force (with_redis w env1)))
  = db_file (final (main force (with_redis w env2)))
  /\ tracker (final (main force (with_redis w env1)))
     = tracker (final (main force (with_redis w env2)))
  /\ summary (main force (with_redis w env1))
     = summary (main force (with_redis w env2))
  /\ calls (main force (with_redis w env1))
     = calls (main force (with_redis w env2)).
Proof.
  destruct (log_directory w) as [dir|] eqn:Hd.
  - assert (H1 : log_directory (with_redis w env1) = Some dir) by exact Hd.
    assert (H2 : log_directory (with_redis w env2) = Some dir) by exact Hd.
    destruct (main_with_directory force _ dir H1) as (T1 & D1 & S1 & C1).
    destruct (main_with_directory force _ dir H2) as (T2 & D2 & S2 & C2).
    rewrite T1, D1, S1, C1, T2, D2, S2, C2. unfold main_loop.
    match goal with
    | |- Some (conn (fold_left _ _ ?b)) = Some (conn (fold_left _ _ ?c))
         /\ _ =>
        destruct (main_loop_same_archive force dir (all_logs dir) b c)
          as (Hc & Hp & Ht & Hx); [repeat split; reflexivity|]
    end.
    rewrite Hc, Hp, Ht, Hx. repeat split.
  - unfold main. simpl. rewrite Hd. simpl. repeat split.
Qed.

(** With a log directory the run completes, and its total is the sum of
    the entries parsed from the files it processed. *)
Lemma main_summary (force : bool) (w : world) (dir : directory) :
  log_directory w = Some dir ->
  summary (main force w)
  = Some (list_sum (map (fun f => count_of (open_file dir f))
                        (calls (main force w)))).
Proof.
  intros Hd.
  destruct (main_with_directory force w dir Hd) as (_ & _ & S & C).
  rewrite S, C. f_equal. unfold main_loop.
  apply main_loop_total_fresh; reflexivity.
Qed.

(** C6: when the queue connection cannot be established at startup, the
    run archives the same rows, saves the same completed set, processes
    the same files and reports the same total as a run with a working
    queue; with a log directory the run completes, and the total is the
    sum of the entries parsed from the files processed. *)
Theorem C6_archive_only_mode
  (force : bool) (w : world) (down : redis_env) (r : redis) :
  get_redis_connection down = None ->
  let degraded := main force (with_redis w down) in
  let reference := main force (with_redis w (RedisUp r)) in
  db_file (final degraded) = db_file (final reference)
  /\ tracker (final degraded) = tracker (final reference)
  /\ summary degraded = summary reference
  /\ calls degraded = calls reference
  /\ forall dir, log_directory w = Some dir ->
       summary degraded
       = Some (list_sum (map (fun f => count_of (open_file dir f))
                             (calls degraded))).
Proof.
  intros _ degraded reference.
  destruct (main_ignores_queue force w down (RedisUp r))
    as (Hd & Ht & Hs & Hc).
  repeat split; try assumption.
  intros dir Hdir. apply main_summary. exact Hdir.
Qed.

Lemma C6_archive_only_mode_witness :
  get_redis_connection RedisUnreachable = None
  /\ summary (main false (with_redis busy_world RedisUnreachable))
     = Some 2
  /\ summary (main false (with_redis busy_world RedisUnreachable))
     = summary (main false (with_redis busy_world (RedisUp idle_redis)))
  /\ db_file (final (main false (with_redis busy_world RedisUnreachable)))
     = db_file
         (final (main false (with_redis busy_world (RedisUp idle_redis)))).
Proof.
  pose proof (C6_archive_only_mode false busy_world RedisUnreachable
                idle_redis eq_refl) as (Hd & _ & Hs & _).
  split; [reflexivity|]. split; [vm_compute; reflexivity|].
  split; [exact Hs|exact Hd].
Defined.

(* ================================================================== *)
(** * The event store: C1 *)

Lemma str_eqb_refl s : str_eqb s s = true.
Proof.
  induction s as [|a s IH]; simpl; [reflexivity|].
  now rewrite N.eqb_refl, IH.
Qed.

Lemma str_eqb_eq a b : str_eqb a b = true -> a = b.
Proof.
  revert b. induction a as [|x a IH]; intros [|y b]; simpl;
    try discriminate; [reflexivity|].
  intros H. apply andb_true_iff in H. destruct H as [H1 H2].
  apply N.eqb_eq in H1. apply IH in H2. now subst.
Qed.

Lemma pyval_eqb_refl v : pyval_eqb v v = true.
Proof. destruct v; simpl; [apply str_eqb_refl|reflexivity]. Qed.

Lemma pyval_eqb_eq a b : pyval_eqb a b = true -> a = b.
Proof.
  destruct a, b; simpl; try discriminate; [|reflexivity].
  intros H. apply str_eqb_eq in H. now subst.
Qed.

Lemma hash_present_app h rows more :
  hash_present h (rows ++ more)
  = hash_present h rows || hash_present h more.
Proof. apply existsb_app. Qed.

Lemma hash_present_self r :
  hashed r -> hash_present (r_raw_hash r) [r] = true.
Proof.
  intros (s & Hs). unfold hash_present, existsb, hash_conflict.
  rewrite Hs, (pyval_eqb_refl (PyStr s)). reflexivity.
Qed.

Lemma insert_present rows r :
  hash_present (r_raw_hash r) rows = true -> insert_or_ignore rows r = rows.
Proof.
  unfold insert_or_ignore, hash_present. intros H. now rewrite H.
Qed.

(** The batch appends rows of the batch whose fingerprints are new and
    pairwise different. *)
Lemma executemany_appends batch :
  Forall hashed batch ->
  forall rows,
  exists added,
    fold_left insert_or_ignore batch rows = rows ++ added
    /\ incl added batch
    /\ NoDup (map r_raw_hash added)
    /\ forall x, In x added -> hash_present (r_raw_hash x) rows = false.
Proof.
  induction 1 as [|r batch Hr Hb IH]; intros rows; simpl.
  - exists []. rewrite app_nil_r. repeat split; auto using incl_nil_l.
    + constructor.
    + intros x [].
  - unfold insert_or_ignore at 2. fold (hash_present (r_raw_hash r) rows).
    destruct (hash_present (r_raw_hash r) rows) eqn:P.
    + destruct (IH rows) as (added & E & I & N & F).
      exists added. repeat split; auto. now apply incl_tl.
    + destruct (IH (rows ++ [r])) as (added & E & I & N & F).
      exists (r :: added). rewrite E, <- app_assoc. simpl.
      repeat split.
      * apply incl_cons; [now left|now apply incl_tl].
      * constructor; [|exact N]. intros Hin. apply in_map_iff in Hin.
        destruct Hin as (x & Hx & Hin). specialize (F x Hin).
        rewrite hash_present_app, Hx, (hash_present_self r Hr) in F.
        now rewrite orb_true_r in F.
      * intros x [<-|Hin]; [exact P|]. specialize (F x Hin).
        rewrite hash_present_app in F. now apply orb_false_elim in F.
Qed.

(** After the batch every fingerprint of the batch is stored. *)
Lemma executemany_stores batch :
  Forall hashed batch ->
  forall rows r,
    In r batch ->
    hash_present (r_raw_hash r) (fold_left insert_or_ignore batch rows)
    = true.
Proof.
  intros Hb rows r Hin.
  assert (Keep : forall l rows0 h,
             hash_present h rows0 = true ->
             hash_present h (fold_left insert_or_ignore l rows0) = true).
  { induction l as [|x l IHl]; intros rows0 h Hp; simpl; [exact Hp|].
    apply IHl. unfold insert_or_ignore.
    destruct (existsb _ rows0); [exact Hp|].
    rewrite hash_present_app, Hp. reflexivity. }
  revert rows. induction Hb as [|x batch Hx Hb IH]; intros rows;
    [destruct Hin|].
  simpl. destruct Hin as [->|Hin]; [|now apply IH].
  apply Keep. unfold insert_or_ignore.
  fold (hash_present (r_raw_hash r) rows).
  destruct (hash_present (r_raw_hash r) rows) eqn:P; [exact P|].
  rewrite hash_present_app, (hash_present_self r Hx).
  apply orb_true_r.
Qed.

(** A batch whose fingerprints are all stored changes nothing. *)
Lemma executemany_nothing_new batch rows :
  (forall r, In r batch -> hash_present (r_raw_hash r) rows = true) ->
  fold_left insert_or_ignore batch rows = rows.
Proof.
  induction batch as [|r batch IH]; intros H; simpl; [reflexivity|].
  rewrite insert_present by (apply H; now left).
  apply IH. intros x Hx. apply H. now right.
Qed.

Lemma parse_log_line_matches line :
  parse_log_line line <> None <-> matches_pattern line = true.
Proof.
  unfold parse_log_line, matches_pattern.
  destruct (search true LOG_PATTERN line);
    split; intros H; try discriminate; try reflexivity.
  now contradiction H.
Qed.

(** The rows of a batch carry the fingerprints of matching lines. *)
Lemma batch_rows lines r :
  In r (map row_of (entries lines)) ->
  exists line,
    In line (filter matches_pattern lines)
    /\ r_raw_hash r = PyStr (sha1_hex (raw_of line))
    /\ r_raw_message r = PyStr (raw_of line).
Proof.
  intros H. apply in_map_iff in H. destruct H as (e & <- & He).
  apply entries_shape in He. destruct He as (line & Hl & He).
  exists line. split.
  - apply filter_In. split; [exact Hl|].
    apply parse_log_line_matches. unfold entry_of in He.
    destruct (is_blank line); [destruct He|].
    destruct (parse_log_line line); [discriminate|destruct He].
  - entry_fields He.
    split; reflexivity.
Qed.

Lemma batch_hashed lines : Forall hashed (map row_of (entries lines)).
Proof.
  apply Forall_forall. intros r Hr.
  destruct (batch_rows _ _ Hr) as (line & _ & H & _).
  eexists. exact H.
Qed.

(** C1: re-inserting a row whose fingerprint is stored leaves the table
    as it is (the insert is a total function: no error).  Ingesting a file
    adds at most as many rows as the file has distinct raw lines that
    match the pattern, and ingesting it again, in the same run or in a
    later one and whatever was archived in between, changes nothing. *)
Theorem C1_idempotent_ingest
  (f : file) (db : database) (rc rc' : option redis) :
  let db1 := snd (fst (process_log_file f db rc)) in
  (forall rows r,
      hash_present (r_raw_hash r) rows = true ->
      insert_or_ignore rows r = rows)
  /\ List.length (logs db1)
     <= List.length (logs db) + List.length (distinct_raw_lines f)
  /\ (forall db2 more,
         logs db2 = logs db1 ++ more ->
         snd (fst (process_log_file f db2 rc')) = db2
         /\ List.length (logs db2) = List.length (logs db1 ++ more)).
Proof.
  intros db1. split; [exact insert_present|].
  destruct f as [lines|lines]; subst db1.
  2:{ rewrite process_log_file_unreadable. simpl. split; [lia|].
      intros db2 more E. rewrite process_log_file_unreadable. simpl.
      now rewrite E. }
  rewrite process_log_file_readable.
  destruct (entries lines) as [|e es] eqn:En.
  { simpl. split; [lia|]. intros db2 more E.
    rewrite process_log_file_readable, En. simpl. now rewrite E. }
  rewrite <- En. clear e es En. simpl.
  pose proof (batch_hashed lines) as Hh.
  destruct (executemany_appends _ Hh (logs db)) as (added & E & I & N & _).
  split.
  - rewrite E, length_app. apply Nat.add_le_mono_l.
    rewrite <- (length_map r_raw_hash added).
    rewrite <- (length_map
                  (fun raw => PyStr (sha1_hex raw))
                  (distinct_raw_lines (Readable lines))).
    apply NoDup_incl_length; [exact N|].
    intros h Hin. apply in_map_iff in Hin. destruct Hin as (r & <- & Hr).
    destruct (batch_rows _ _ (I r Hr)) as (line & Hl & -> & _).
    apply in_map_iff. exists (raw_of line). split; [reflexivity|].
    unfold distinct_raw_lines. apply nodup_In. simpl.
    apply in_map. exact Hl.
  - intros db2 more E2. split; [|now rewrite E2].
    rewrite process_log_file_readable.
    destruct (entries lines) as [|e es] eqn:En; [reflexivity|].
    rewrite <- En in Hh, E2 |- *. simpl. unfold executemany.
    rewrite executemany_nothing_new; [now destruct db2|].
    intros r Hr. rewrite E2, hash_present_app.
    rewrite (executemany_stores _ Hh (logs db) r Hr). reflexivity.
Qed.

(* ================================================================== *)
(** * The content hasher: C7 *)

Example sha1_hex_abc :
  sha1_hex (codepoints "abc") = "a9993e364706816aba3e25717850c26c9cd0d89d".
Proof. vm_compute. reflexivity. Qed.

Example sha1_hex_empty :
  sha1_hex [] = "da39a3ee5e6b4b0d3255bfef95601890afd80709".
Proof. vm_compute. reflexivity. Qed.

Example sha1_hex_two_blocks :
  sha1_hex
    (codepoints "abcdbcdecdefdefgefghfghighijhijkijkljklmklmnlmnomnopnopq")
  = "84983e441c3bd26ebaae4aa1f95129e5e54670f1".
Proof. vm_compute. reflexivity. Qed.

Lemma hex_word_length x : List.length (Sha1.hex_word x) = 8.
Proof. reflexivity. Qed.

Lemma hex_digit_is_hex x : is_hex_digit (Sha1.hex_digit x) = true.
Proof.
  unfold Sha1.hex_digit.
  assert (H : forall n, is_hex_digit
                (nth n (codepoints "0123456789abcdef") 48%N)
              = true).
  { intros n. do 16 (destruct n as [|n]; [reflexivity|]).
    simpl. now destruct n. }
  apply H.
Qed.

Lemma hex_word_is_hex x :
  Forall (fun a => is_hex_digit a = true) (Sha1.hex_word x).
Proof.
  unfold Sha1.hex_word. apply Forall_forall. intros a Ha.
  apply in_map_iff in Ha. destruct Ha as (i & <- & _).
  apply hex_digit_is_hex.
Qed.

Lemma utf8_char_surrogate c : is_surrogate c = true -> utf8_char c = [].
Proof.
  unfold is_surrogate, utf8_char. intros H.
  apply andb_true_iff in H. destruct H as [H1 H2].
  apply N.leb_le in H1.
  destruct (N.ltb_spec c 128); [lia|].
  destruct (N.ltb_spec c 2048); [lia|].
  unfold is_surrogate.
  apply N.leb_le in H1. rewrite H1, H2. reflexivity.
Qed.

(** C7: the fingerprint is a total function of the text: for every
    string it is 40 lower-case hexadecimal digits, a call on a string
    does not raise, a code point that cannot be encoded is dropped, and
    two parsed events with the same raw message carry the same
    fingerprint, from whatever files they come. *)
Theorem C7_fingerprint_total_deterministic :
  (forall s : str,
      List.length (sha1_hex s) = 40
      /\ Forall (fun a => is_hex_digit a = true) (sha1_hex s))
  /\ (forall s : str,
         call_sha1_hex (PyStr s) = Ok (PyStr (sha1_hex s)))
  /\ (forall (a b : str) (c : char),
         is_surrogate c = true ->
         sha1_hex (a ++ c :: b) = sha1_hex (a ++ b))
  /\ (forall (lines1 lines2 : list str) (e1 e2 : dict),
         In e1 (entries lines1) -> In e2 (entries lines2) ->
         dict_get e1 "raw_message" = dict_get e2 "raw_message" ->
         dict_get e1 "raw_hash" = dict_get e2 "raw_hash"
         /\ exists raw, dict_get e1 "raw_message" = Some (PyStr raw)
                        /\ dict_get e1 "raw_hash"
                           = Some (PyStr (sha1_hex raw))).
Proof.
  split; [|split; [|split]].
  - intros s. unfold sha1_hex, Sha1.hexdigest.
    destruct (Sha1.digest (utf8_encode_ignore s)) as [[[[h0 h1] h2] h3] h4].
    split.
    + rewrite !length_app, !hex_word_length. reflexivity.
    + repeat (apply Forall_app; split); apply hex_word_is_hex.
  - reflexivity.
  - intros a b c Hc. unfold sha1_hex, utf8_encode_ignore.
    rewrite !flat_map_app. simpl. now rewrite (utf8_char_surrogate c Hc).
  - intros lines1 lines2 e1 e2 H1 H2 Hraw.
    apply entries_shape in H1. destruct H1 as (l1 & _ & H1).
    apply entries_shape in H2. destruct H2 as (l2 & _ & H2).
    entry_fields H1.
    entry_fields H2.
    cbn in Hraw |- *. injection Hraw as E. unfold fingerprint.
    rewrite E. split; [reflexivity|].
    exists (raw_of l2). split; reflexivity.
Qed.

(* ================================================================== *)
(** * The published payload: C2 *)


Section JsonRoundTrip.

Import JsonScan.

Lemma hex_plain n :
  N.eqb (Json.hex n) Chars.dquote = false
  /\ N.eqb (Json.hex n) Chars.backslash = false.
Proof.
  unfold Json.hex. generalize (N.to_nat n). intros k.
  do 16 (destruct k as [|k]; [split; reflexivity|]).
  simpl. destruct k; split; reflexivity.
Qed.

(** An escaped character is read back as a part of the string. *)
Lemma string_body_escape a t :
  string_body (Json.escape_char a ++ t)
  = match string_body t with
    | Some (w, rest) => Some (Json.escape_char a ++ w, rest)
    | None => None
    end.
Proof.
  unfold Json.escape_char.
  destruct (N.eqb a Chars.dquote) eqn:Eq;
    [cbn; destruct (string_body t) as [[w rest]|]; reflexivity|].
  destruct (N.eqb a Chars.backslash) eqn:Eb;
    [cbn; destruct (string_body t) as [[w rest]|]; reflexivity|].
  do 5 (match goal with
        | |- context [if (a =? ?n)%N then _ else _] =>
            destruct (a =? n)%N;
            [cbn; destruct (string_body t) as [[w rest]|]; reflexivity|]
        end).
  destruct (a <? 32)%N.
  - destruct (hex_plain (a / 16)) as [H1 H2].
    destruct (hex_plain (a mod 16)) as [H3 H4].
    cbn [app string_body].
    change (N.eqb Chars.backslash Chars.dquote) with false.
    change (N.eqb Chars.backslash Chars.backslash) with true.
    change (N.eqb (char_of "0") Chars.dquote) with false.
    change (N.eqb (char_of "0") Chars.backslash) with false.
    cbv iota. rewrite H1, H2, H3, H4.
    destruct (string_body t) as [[w rest]|]; reflexivity.
  - cbn [app string_body]. rewrite Eq, Eb.
    destruct (string_body t) as [[w rest]|]; reflexivity.
Qed.

Lemma string_body_escaped l rest :
  string_body (flat_map Json.escape_char l ++ Chars.dquote :: rest)
  = Some (flat_map Json.escape_char l, rest).
Proof.
  induction l as [|a l IH]; [reflexivity|].
  simpl flat_map. rewrite <- app_assoc, string_body_escape, IH.
  reflexivity.
Qed.

Lemma value_read_back v rest :
  value (Json.value v ++ rest) = Some rest.
Proof.
  destruct v as [s|]; [|reflexivity].
  unfold Json.value, Json.quote. simpl.
  rewrite <- app_assoc. simpl. now rewrite string_body_escaped.
Qed.

Lemma member_read_back kv rest :
  exists s3,
    Json.member kv ++ rest
    = Chars.dquote
        :: flat_map Json.escape_char (codepoints (fst kv))
        ++ Chars.dquote :: s3
    /\ skip (codepoints ": ") s3
       = Some (Json.value (snd kv) ++ rest).
Proof.
  exists (codepoints ": " ++ Json.value (snd kv) ++ rest).
  split; [|reflexivity].
  unfold Json.member, Json.quote. simpl.
  rewrite <- !app_assoc. reflexivity.
Qed.

Lemma members_step fuel key s1 s2 s3 s4 :
  string_body s1 = Some (key, s2) ->
  skip (codepoints ": ") s2 = Some s3 ->
  value s3 = Some s4 ->
  members (S fuel) (Chars.dquote :: s1)
  = match after_member s4 with
    | Some None => Some [key]
    | Some (Some s5) => option_map (cons key) (members fuel s5)
    | None => None
    end.
Proof.
  intros H1 H2 H3. cbn [members].
  change (N.eqb Chars.dquote Chars.dquote) with true. cbv iota.
  rewrite H1, H2, H3. reflexivity.
Qed.

Lemma after_member_comma s :
  after_member (codepoints ", " ++ s) = Some (Some s).
Proof. reflexivity. Qed.

Lemma members_read_back d :
  d <> [] ->
  forall fuel, List.length d <= fuel ->
  members fuel (Json.members d ++ [char_of "}"]) = Some (map key_text d).
Proof.
  induction d as [|kv d IH]; intros Hd fuel Hf; [now contradiction Hd|].
  destruct fuel as [|fuel]; [simpl in Hf; lia|].
  destruct d as [|kv2 d].
  - simpl Json.members.
    destruct (member_read_back kv [char_of "}"]) as (s3 & -> & Hs).
    rewrite (members_step fuel _ _ _ _ _
               (string_body_escaped _ _) Hs (value_read_back _ _)).
    reflexivity.
  - change (Json.members (kv :: kv2 :: d))
      with (Json.member kv ++ codepoints ", "
            ++ Json.members (kv2 :: d)).
    rewrite <- !app_assoc.
    destruct (member_read_back kv
                (codepoints ", "
                 ++ Json.members (kv2 :: d) ++ [char_of "}"]))
      as (s3 & -> & Hs).
    rewrite (members_step fuel _ _ _ _ _
               (string_body_escaped _ _) Hs (value_read_back _ _)).
    rewrite after_member_comma.
    rewrite IH; [reflexivity|discriminate|simpl in *; lia].
Qed.

Lemma members_length d : List.length d <= List.length (Json.members d).
Proof.
  induction d as [|kv d IH]; [apply Nat.le_refl|].
  destruct d as [|kv2 d].
  - simpl. unfold Json.member, Json.quote. simpl. lia.
  - change (Json.members (kv :: kv2 :: d))
      with (Json.member kv ++ codepoints ", "
            ++ Json.members (kv2 :: d)).
    rewrite !length_app. unfold Json.member, Json.quote.
    simpl in *. lia.
Qed.

(** The member names of a dumped dict, read back from the text. *)
Lemma object_keys_dumps d :
  d <> [] -> object_keys (Json.dumps d) = Some (map key_text d).
Proof.
  intros Hd. unfold object_keys, Json.dumps.
  assert (E : exists t, Json.members d = Chars.dquote :: t).
  { destruct d as [|kv [|kv2 d]]; [now contradiction Hd| |];
      eexists; simpl; unfold Json.member, Json.quote; simpl; reflexivity. }
  destruct E as (t & E).
  pose proof (members_read_back d Hd
                (List.length (Json.members d ++ [char_of "}"]))) as H.
  pose proof (members_length d) as L.
  rewrite E in H, L |- *. simpl app in *.
  change (N.eqb (char_of "{") (char_of "{")) with true. cbv iota.
  assert (Hlen : List.length d
                 <= List.length (Chars.dquote :: t ++ [char_of "}"])).
  { simpl in L |- *. rewrite length_app. simpl. lia. }
  specialize (H Hlen). clear Hlen.
  destruct t as [|y t]; exact H.
Qed.

End JsonRoundTrip.

(** The push loop appends the dumps of the entries whose push succeeded,
    in order; without faults, of all entries. *)
Lemma push_all_queue es :
  forall r n,
  exists sent,
    queue (fst (push_all r es n)) = queue r ++ map Json.dumps sent
    /\ incl sent es
    /\ (faults r = [] -> sent = es).
Proof.
  induction es as [|e es IH]; intros r n; simpl.
  - exists []. rewrite app_nil_r. repeat split; auto using incl_nil_l.
  - unfold rpush. destruct (faults r) as [|[] fs] eqn:F.
    + destruct (IH {| queue := queue r ++ [Json.dumps e]; faults := [] |}
                  (S n)) as (sent & Q & I & A).
      exists (e :: sent). rewrite Q. simpl. rewrite <- app_assoc.
      repeat split.
      * apply incl_cons; [now left|now apply incl_tl].
      * intros _. now rewrite (A eq_refl).
    + destruct (IH {| queue := queue r; faults := fs |} n)
        as (sent & Q & I & _).
      exists sent. rewrite Q. simpl.
      repeat split; [now apply incl_tl|discriminate].
    + destruct (IH {| queue := queue r ++ [Json.dumps e]; faults := fs |}
                  (S n)) as (sent & Q & I & _).
      exists (e :: sent). rewrite Q. simpl. rewrite <- app_assoc.
      repeat split; [|discriminate].
      apply incl_cons; [now left|now apply incl_tl].
Qed.

(** C2, as stated, fails: the dict that is dumped is the parsed entry
    after [raw_hash] was stored in it, so the payload of the example line
    has nine members, the last one the fingerprint. *)
Lemma C2_payload_includes_fingerprint :
  exists msg,
    queue_after (Readable [example_line]) empty_db idle_redis = [msg]
    /\ JsonScan.object_keys msg
       = Some (map codepoints
                 ["timestamp"; "log_level"; "component"; "action";
                  "license_type"; "user_name"; "client_ip"; "raw_message";
                  "raw_hash"])
    /\ JsonScan.object_keys msg <> Some (map codepoints EVENT_FIELDS).
Proof.
  eexists. split; [vm_compute; reflexivity|].
  split; [vm_compute; reflexivity|].
  vm_compute. discriminate.
Qed.

(** C2 (amended): every payload the archiver publishes is the dump of a
    parsed entry of the file and has exactly the members timestamp,
    log_level, component, action, license_type, user_name, client_ip,
    raw_message and raw_hash, in this order; raw_hash is the fingerprint
    of raw_message.  Without push failures every entry is published. *)
Theorem C2_payload_fields (f : file) (db : database) (r : redis) :
  exists sent,
    queue_after f db r = queue r ++ map Json.dumps sent
    /\ incl sent (entries (file_lines f))
    /\ (faults r = [] ->
        sent = match f with
               | Readable lines => entries lines
               | Unreadable _ => []
               end)
    /\ Forall
         (fun e =>
            JsonScan.object_keys (Json.dumps e)
            = Some (map codepoints (EVENT_FIELDS ++ ["raw_hash"]))
            /\ exists raw,
                 dict_get e "raw_message" = Some (PyStr raw)
                 /\ dict_get e "raw_hash"
                    = Some (PyStr (sha1_hex raw)))
         sent.
Proof.
  assert (Shape : forall lines sent,
             incl sent (entries lines) ->
             Forall
               (fun e =>
                  JsonScan.object_keys (Json.dumps e)
                  = Some (map codepoints (EVENT_FIELDS ++ ["raw_hash"]))
                  /\ exists raw,
                       dict_get e "raw_message" = Some (PyStr raw)
                       /\ dict_get e "raw_hash"
                          = Some (PyStr (sha1_hex raw)))
               sent).
  { intros lines sent I. apply Forall_forall. intros e He.
    apply I, entries_shape in He. destruct He as (line & _ & He).
    entry_fields He.
    split.
    - rewrite object_keys_dumps by discriminate. reflexivity.
    - exists (raw_of line). split; reflexivity. }
  unfold queue_after. destruct f as [lines|lines].
  - rewrite process_log_file_readable.
    destruct (entries lines) as [|e es] eqn:En.
    + exists []. simpl. rewrite app_nil_r.
      repeat split; auto using incl_nil_l.
    + rewrite <- En. simpl.
      destruct (push_all_queue (entries lines) r 0) as (sent & Q & I & A).
      exists sent. repeat split; auto. now apply Shape with lines.
  - rewrite process_log_file_unreadable. exists []. simpl.
    rewrite app_nil_r. repeat split; auto using incl_nil_l.
Qed.

(* ================================================================== *)
(* ================================================================== *)
(** * The entries of a file *)

Lemma parse_log_line_unfold line :
  parse_log_line line
  = match search true LOG_PATTERN line with
    | None => None
    | Some m =>
        Some [("timestamp", group_val 1 m);
              ("log_level", group_val 2 m);
              ("component", group_val 3 m);
              ("action", group_val 5 m);
              ("license_type", license_type_of line);
              ("user_name", user_name_of line);
              ("client_ip", client_ip_of line);
              ("raw_message", PyStr (raw_of line))]
    end.
Proof. reflexivity. Qed.

(** The eight fields of an entry are strings. *)
Lemma parse_log_line_strings line e :
  parse_log_line line = Some e ->
  exists ts lv comp act lt un ip,
    e = [("timestamp", PyStr ts); ("log_level", PyStr lv);
         ("component", PyStr comp); ("action", PyStr act);
         ("license_type", PyStr lt); ("user_name", PyStr un);
         ("client_ip", PyStr ip); ("raw_message", PyStr (raw_of line))].
Proof.
  rewrite parse_log_line_unfold. intros H.
  destruct (search true LOG_PATTERN line)
    as [m|] eqn:Hm; [|discriminate].
  injection H as <-.
  destruct (LOG_PATTERN_parts _ _ Hm)
    as (ts & lv & comp & act & _ & G1 & G2 & G3 & G5).
  destruct (license_type_of_spec line)
    as (lt & -> & _).
  destruct (user_name_of_spec line) as (un & -> & _).
  destruct (client_ip_of_longest line) as (ip & -> & _).
  rewrite (group_val_some _ _ _ G1), (group_val_some _ _ _ G2),
    (group_val_some _ _ _ G3), (group_val_some _ _ _ G5).
  do 7 eexists. reflexivity.
Qed.

(** A line of whitespace only does not match. *)
Lemma blank_line_no_match line :
  is_blank line = true -> parse_log_line line = None.
Proof.
  intros Hb. destruct (parse_log_line line) as [e|] eqn:E; [|reflexivity].
  exfalso. rewrite parse_log_line_unfold in E. 
  destruct (search true LOG_PATTERN line)
    as [m|] eqn:Hm; [|discriminate].
  destruct (LOG_PATTERN_parts _ _ Hm)
    as (ts & lv & comp & act & (sp1 & sp2 & sp3 & pre & rest & Hc) & _).
  destruct Hc as (El & Hts & _). rewrite El in Hb.
  destruct ts as [|d ts]; [discriminate|].
  simpl in Hts. apply andb_true_iff in Hts. destruct Hts as [Hd _].
  unfold is_blank in Hb. simpl in Hb.
  rewrite (digit_not_space d Hd) in Hb. discriminate.
Qed.

Lemma entry_of_matching line :
  entry_of line
  = match parse_log_line line with
    | Some e => [dict_set e "raw_hash" (PyStr (fingerprint line))]
    | None => []
    end.
Proof.
  unfold entry_of.
  destruct (is_blank line) eqn:B; [|reflexivity].
  now rewrite (blank_line_no_match line B).
Qed.

Lemma entries_count lines :
  List.length (entries lines) = List.length (filter matches_pattern lines).
Proof.
  unfold entries. induction lines as [|line lines IH]; [reflexivity|].
  simpl. rewrite length_app, IH, entry_of_matching.
  unfold matches_pattern. rewrite parse_log_line_unfold.
  destruct (search true LOG_PATTERN line);
    reflexivity.
Qed.

Lemma filter_length_le {A} (p : A -> bool) l :
  List.length (filter p l) <= List.length l.
Proof.
  induction l as [|a l IH]; simpl; [lia|]. destruct (p a); simpl; lia.
Qed.

Lemma process_body_readable lines db rc :
  process_body (Readable lines) db rc
  = Ok (process_log_file (Readable lines) db rc).
Proof.
  unfold process_log_file, process_body, read_file.
  rewrite parse_lines_entries. simpl.
  destruct (entries lines) as [|e es] eqn:E; [reflexivity|].
  rewrite <- E, to_row_entries. reflexivity.
Qed.

Lemma process_body_unreadable lines db rc :
  process_body (Unreadable lines) db rc = Raise OSError.
Proof.
  unfold process_body, read_file. rewrite parse_lines_entries. reflexivity.
Qed.

(** [rstrip] of the newlines. *)
Lemma rstrip_newline_spec l :
  exists k,
    l = rstrip_newline l ++ repeat Chars.newline k
    /\ forall t, rstrip_newline l <> t ++ [Chars.newline].
Proof.
  induction l as [|a l (k & E & Hlast)].
  - exists 0. split; [reflexivity|]. intros [|? ?]; discriminate.
  - simpl. destruct (rstrip_newline l) as [|b t0] eqn:R.
    + destruct (N.eqb a Chars.newline) eqn:Ea.
      * apply N.eqb_eq in Ea. subst a. exists (S k). simpl in *.
        split; [now rewrite E at 1|]. intros [|? ?]; discriminate.
      * exists k. simpl in *. split; [now rewrite E at 1|].
        intros [|x [|y t]] Ht; try discriminate.
        injection Ht as ->. now rewrite N.eqb_refl in Ea.
    + exists k. split; [simpl; now rewrite E at 1|].
      intros [|x t] Ht; [discriminate|].
      injection Ht as -> Ht. now apply (Hlast t).
Qed.

Lemma rstrip_newline_app l k :
  rstrip_newline (l ++ repeat Chars.newline k) = rstrip_newline l.
Proof.
  induction l as [|a l IH]; simpl.
  - induction k as [|k IHk]; [reflexivity|]. simpl. now rewrite IHk.
  - now rewrite IH.
Qed.

(** X7: the body of [process_log_file] raises only when the file cannot
    be read: every entry of the parser has the eight fields, each a
    string and none of them [None], so neither the hashing nor the
    building of the rows can fail. *)
Theorem process_log_file_raises_only_on_read_failure
  (f : file) (db : database) (rc : option redis) :
  (forall line e,
      parse_log_line line = Some e ->
      dict_keys e = EVENT_FIELDS /\ Forall (fun kv => is_str (snd kv)) e)
  /\ (forall lines, f = Readable lines ->
        process_body f db rc = Ok (process_log_file f db rc))
  /\ (forall x, process_body f db rc = Raise x ->
        x = OSError /\ exists lines, f = Unreadable lines).
Proof.
  split; [|split].
  - intros line e H. apply parse_log_line_strings in H.
    destruct H as (ts & lv & comp & act & lt & un & ip & ->).
    split; [reflexivity|]. repeat constructor; eexists; reflexivity.
  - intros lines ->. apply process_body_readable.
  - intros x H. destruct f as [lines|lines].
    + rewrite process_body_readable in H. discriminate.
    + rewrite process_body_unreadable in H. injection H as <-. eauto.
Qed.

(** X8: for a file that can be read, [process_log_file] returns the
    number of its lines that match the main pattern, repeated lines
    counted each time; a line of whitespace only never matches, so that
    skipping the blank lines changes nothing. *)
Theorem process_log_file_counts_matching_lines
  (lines : list str) (db : database) (rc : option redis) :
  fst (fst (process_log_file (Readable lines) db rc))
  = List.length (filter matches_pattern lines)
  /\ fst (fst (process_log_file (Readable lines) db rc)) <= List.length lines
  /\ (forall line, is_blank line = true ->
                   matches_pattern line = false)
  /\ entries lines
     = flat_map (fun line =>
                   match parse_log_line line with
                   | Some e => [dict_set e "raw_hash" (PyStr (fingerprint line))]
                   | None => []
                   end) lines.
Proof.
  rewrite process_log_file_count. simpl.
  split; [apply entries_count|].
  split; [rewrite entries_count; apply filter_length_le|].
  split.
  - intros line Hb. apply blank_line_no_match in Hb.
    destruct (matches_pattern line) eqn:M; [|reflexivity].
    apply parse_log_line_matches in M. now contradiction M.
  - unfold entries. apply flat_map_ext. intros line.
    apply entry_of_matching.
Qed.

(** X9: the raw message of an entry is the line without its trailing
    newlines, and nothing else is removed: the line is the raw message
    followed by newlines only, the raw message does not end with a
    newline, and lines that differ in trailing newlines only have the
    same raw message and the same fingerprint. *)
Theorem raw_message_is_the_line_without_trailing_newlines
  (line : str) (e : dict) :
  parse_log_line line = Some e ->
  dict_get e "raw_message" = Some (PyStr (raw_of line))
  /\ (exists k, line = raw_of line ++ repeat Chars.newline k)
  /\ (forall t, raw_of line <> t ++ [Chars.newline])
  /\ (forall line2 k,
         line2 = line ++ repeat Chars.newline k ->
         raw_of line2 = raw_of line /\ fingerprint line2 = fingerprint line).
Proof.
  intros H. apply parse_log_line_strings in H.
  destruct H as (ts & lv & comp & act & lt & un & ip & ->).
  split; [reflexivity|].
  unfold raw_of.
  destruct (rstrip_newline_spec line)
    as (k & E & Hlast).
  split; [eauto|]. split; [exact Hlast|].
  intros line2 k2 E2. unfold fingerprint, raw_of.
  rewrite E2, rstrip_newline_app. auto.
Qed.

Lemma raw_message_is_the_line_without_trailing_newlines_witness :
  parse_log_line shouting_line = Some shouting_entry
  /\ dict_get shouting_entry "raw_message" = Some (PyStr (raw_of shouting_line))
  /\ (exists k,
         shouting_line = raw_of shouting_line ++ repeat Chars.newline k)
  /\ (forall t, raw_of shouting_line <> t ++ [Chars.newline])
  /\ (forall line2 k,
         line2 = shouting_line ++ repeat Chars.newline k ->
         raw_of line2 = raw_of shouting_line
         /\ fingerprint line2 = fingerprint shouting_line).
Proof.
  split; [vm_compute; reflexivity|].
  apply (raw_message_is_the_line_without_trailing_newlines
           shouting_line shouting_entry).
  vm_compute; reflexivity.
Defined.
(* ================================================================== *)
(** * The archive, the queue and the run *)

Lemma insert_or_ignore_cases rows r :
  insert_or_ignore rows r = rows
  \/ (insert_or_ignore rows r = rows ++ [r]
      /\ hash_present (r_raw_hash r) rows = false).
Proof.
  unfold insert_or_ignore, hash_present.
  destruct (existsb (hash_conflict (r_raw_hash r)) rows); auto.
Qed.

Lemma fold_insert_extends batch : forall rows,
  exists added,
    fold_left insert_or_ignore batch rows = rows ++ added
    /\ incl added batch
    /\ List.length added <= List.length batch.
Proof.
  induction batch as [|r batch IH]; intros rows; simpl.
  - exists []. rewrite app_nil_r. repeat split; auto using incl_nil_l.
  - destruct (insert_or_ignore_cases rows r) as [E|[E _]]; rewrite E.
    + destruct (IH rows) as (added & Ea & I & L).
      exists added. repeat split; auto using incl_tl; try lia.
    + destruct (IH (rows ++ [r])) as (added & Ea & I & L).
      exists (r :: added). rewrite Ea, <- app_assoc. simpl.
      repeat split; [|lia].
      apply incl_cons; [now left|now apply incl_tl].
Qed.


(** The rows a call adds. *)
Lemma process_log_file_extends f db rc :
  exists added,
    logs (snd (fst (process_log_file f db rc))) = logs db ++ added
    /\ meta (snd (fst (process_log_file f db rc))) = meta db
    /\ incl added (map row_of (entries (file_lines f)))
    /\ List.length added <= count_of f.
Proof.
  destruct f as [lines|lines].
  - rewrite process_log_file_readable. simpl.
    destruct (entries lines) as [|e es] eqn:En.
    + exists []. simpl. rewrite app_nil_r.
      repeat split; auto using incl_nil_l.
    + rewrite <- En. simpl.
      destruct (fold_insert_extends (map row_of (entries lines)) (logs db))
        as (added & E & I & L).
      exists added. rewrite length_map in L. auto.
  - rewrite process_log_file_unreadable. exists []. simpl.
    rewrite app_nil_r. repeat split; auto using incl_nil_l.
Qed.

Lemma hashes_app a b : hashes (a ++ b) = hashes a ++ hashes b.
Proof. unfold hashes. apply flat_map_app. Qed.

Lemma hash_absent s rows :
  hash_present (PyStr s) rows = false -> ~ In s (hashes rows).
Proof.
  unfold hash_present, hashes. intros H Hin.
  apply in_flat_map in Hin. destruct Hin as (r & Hr & Hs).
  assert (C : existsb (hash_conflict (PyStr s)) rows = true).
  { apply existsb_exists. exists r. split; [exact Hr|].
    unfold hash_conflict. destruct (r_raw_hash r) as [t|]; [|destruct Hs].
    destruct Hs as [->|[]]. apply pyval_eqb_refl. }
  congruence.
Qed.

Lemma insert_or_ignore_unique rows r :
  unique_hashes rows -> unique_hashes (insert_or_ignore rows r).
Proof.
  intros U. destruct (insert_or_ignore_cases rows r) as [E|[E A]];
    rewrite E; [exact U|].
  unfold unique_hashes. rewrite hashes_app.
  unfold hashes at 2. simpl. rewrite app_nil_r.
  destruct (r_raw_hash r) as [s|]; [|now rewrite app_nil_r].
  apply NoDup_app; [exact U|repeat constructor; intros []|].
  intros x Hx [<-|[]]. revert Hx. now apply hash_absent.
Qed.

Lemma fold_insert_unique batch : forall rows,
  unique_hashes rows ->
  unique_hashes (fold_left insert_or_ignore batch rows).
Proof.
  induction batch as [|r batch IH]; intros rows U; simpl; [exact U|].
  apply IH. now apply insert_or_ignore_unique.
Qed.

Lemma process_log_file_unique f db rc :
  unique_hashes (logs db) ->
  unique_hashes (logs (snd (fst (process_log_file f db rc)))).
Proof.
  intros U. destruct f as [lines|lines].
  - rewrite process_log_file_readable.
    destruct (entries lines) eqn:En; [exact U|]. rewrite <- En. simpl.
    now apply fold_insert_unique.
  - now rewrite process_log_file_unreadable.
Qed.

Lemma batch_fingerprinted lines :
  Forall fingerprinted (map row_of (entries lines)).
Proof.
  apply Forall_forall. intros r Hr.
  destruct (batch_rows _ _ Hr) as (line & _ & Hh & Hm).
  exists (raw_of line). auto.
Qed.

Lemma process_log_file_fingerprinted f db rc :
  Forall fingerprinted (logs db) ->
  Forall fingerprinted (logs (snd (fst (process_log_file f db rc)))).
Proof.
  intros H. destruct (process_log_file_extends f db rc)
    as (added & -> & _ & I & _).
  apply Forall_app. split; [exact H|].
  apply Forall_forall. intros r Hr. apply I in Hr.
  pose proof (batch_fingerprinted (file_lines f)) as B.
  rewrite Forall_forall in B. now apply B.
Qed.

(** After a call the fingerprint of every matching line is stored. *)
Lemma process_log_file_stores lines db rc line :
  In line lines -> matches_pattern line = true ->
  hash_present (PyStr (fingerprint line))
    (logs (snd (fst (process_log_file (Readable lines) db rc)))) = true.
Proof.
  intros Hl Hm. apply parse_log_line_matches in Hm.
  destruct (parse_log_line line) as [e|] eqn:E; [|now contradiction Hm].
  assert (He : In (dict_set e "raw_hash" (PyStr (fingerprint line)))
                  (entries lines)).
  { unfold entries. apply in_flat_map. exists line. split; [exact Hl|].
    rewrite entry_of_matching, E. now left. }
  rewrite process_log_file_readable.
  destruct (entries lines) as [|e0 es] eqn:En; [destruct He|].
  rewrite <- En in *. simpl.
  pose proof (executemany_stores _ (batch_hashed lines) (logs db)
                (row_of (dict_set e "raw_hash" (PyStr (fingerprint line))))
                (in_map row_of _ _ He)) as S.
  destruct (parse_log_line_strings _ _ E)
    as (ts & lv & comp & act & lt & un & ip & ->).
  exact S.
Qed.

(* ------------------------------------------------------------------ *)
(** ** The queue *)

Lemma push_all_delivered es : forall r n,
  queue (fst (push_all r es n))
  = queue r ++ map Json.dumps (delivered es (faults r))
  /\ snd (push_all r es n) = n + List.length (delivered es (faults r))
  /\ faults (fst (push_all r es n)) = skipn (List.length es) (faults r).
Proof.
  induction es as [|e es IH]; intros r n; simpl.
  - rewrite app_nil_r, Nat.add_0_r. auto.
  - unfold rpush. destruct (faults r) as [|[] fs] eqn:F.
    + destruct (IH {| queue := queue r ++ [Json.dumps e]; faults := [] |}
                  (S n)) as (Q & C & R).
      simpl in Q, C, R. rewrite Q, C, R, <- app_assoc.
      destruct es; simpl; repeat split; try lia.
    + destruct (IH {| queue := queue r; faults := fs |} n) as (Q & C & R).
      simpl in Q, C, R. rewrite Q, C, R. auto.
    + destruct (IH {| queue := queue r ++ [Json.dumps e]; faults := fs |}
                  (S n)) as (Q & C & R).
      simpl in Q, C, R. rewrite Q, C, R, <- app_assoc. simpl.
      repeat split; try lia.
Qed.

Lemma delivered_no_faults es : delivered es [] = es.
Proof. destruct es; reflexivity. Qed.

Lemma delivered_length es fs : List.length (delivered es fs) <= List.length es.
Proof.
  revert fs. induction es as [|e es IH]; intros [|[] fs]; simpl; auto;
    specialize (IH fs); lia.
Qed.

(** What a call appends to the queue. *)
Lemma process_log_file_queue f db r :
  exists r' sent,
    snd (process_log_file f db (Some r)) = Some r'
    /\ queue r' = queue r ++ sent
    /\ List.length sent <= count_of f
    /\ (faults r = [] -> faults r' = [] /\ List.length sent = count_of f).
Proof.
  destruct f as [lines|lines].
  - rewrite process_log_file_readable. simpl.
    destruct (entries lines) as [|e es] eqn:En.
    + exists r, []. rewrite app_nil_r. simpl. auto.
    + rewrite <- En. simpl.
      destruct (push_all_delivered (entries lines) r 0) as (Q & _ & R).
      exists (fst (push_all r (entries lines) 0)),
        (map Json.dumps (delivered (entries lines) (faults r))).
      repeat split; auto.
      * rewrite length_map. apply delivered_length.
      * rewrite R, H. apply skipn_nil.
      * now rewrite length_map, H, delivered_no_faults.
  - rewrite process_log_file_unreadable. exists r, [].
    rewrite app_nil_r. simpl. auto.
Qed.

Lemma process_log_file_no_queue f db :
  snd (process_log_file f db None) = None.
Proof.
  destruct f as [lines|lines].
  - rewrite process_log_file_readable. now destruct (entries lines).
  - now rewrite process_log_file_unreadable.
Qed.

(* ------------------------------------------------------------------ *)
(** ** The loop of [main] in closed form *)

Lemma main_step_spec force dir st f :
  main_step force dir st f
  = if mem f (parsed_files st) && negb force then st
    else
      let s := ingest dir (conn st, redis_conn st) f in
      {| conn := fst s;
         parsed_files :=
           if has_entries dir f then parsed_files st ++ [f]
           else parsed_files st;
         total_parsed := total_parsed st + count_of (open_file dir f);
         redis_conn := snd s;
         processed := processed st ++ [f] |}.
Proof.
  unfold main_step, ingest, has_entries.
  destruct (mem f (parsed_files st) && negb force); [reflexivity|].
  pose proof (process_log_file_count (open_file dir f) (conn st)
                (redis_conn st)) as Hc.
  cbn [fst snd].
  destruct (process_log_file (open_file dir f) (conn st) (redis_conn st))
    as [[n db'] rc']. simpl in Hc. subst n. cbn [fst snd].
  destruct (Nat.ltb 0 (count_of (open_file dir f))) eqn:L; [reflexivity|].
  apply Nat.ltb_ge in L.
  replace (count_of (open_file dir f)) with 0 by lia.
  now rewrite Nat.add_0_r.
Qed.

Lemma main_loop_closed force dir l : forall st,
  exists done,
    processed (fold_left (main_step force dir) l st) = processed st ++ done
    /\ (conn (fold_left (main_step force dir) l st),
        redis_conn (fold_left (main_step force dir) l st))
       = fold_left (ingest dir) done (conn st, redis_conn st)
    /\ total_parsed (fold_left (main_step force dir) l st)
       = total_parsed st
         + list_sum (map (fun f => count_of (open_file dir f)) done)
    /\ parsed_files (fold_left (main_step force dir) l st)
       = parsed_files st ++ filter (has_entries dir) done.
Proof.
  induction l as [|f l IH]; intros st; cbn [fold_left].
  - exists []. simpl. rewrite !app_nil_r, Nat.add_0_r. auto.
  - rewrite main_step_spec.
    destruct (mem f (parsed_files st) && negb force); [apply IH|].
    cbv zeta.
    match goal with
    | |- context [fold_left _ l ?s] =>
        set (st1 := s); destruct (IH st1) as (done & P & C & T & F)
    end.
    exists (f :: done). rewrite P, C, T, F. subst st1.
    cbn [processed conn redis_conn total_parsed parsed_files
         fold_left map list_sum fold_right filter].
    rewrite <- !app_assoc. cbn [app].
    split; [reflexivity|]. split; [reflexivity|].
    split; [unfold list_sum; lia|].
    destruct (has_entries dir f); [|reflexivity].
    now rewrite <- app_assoc.
Qed.

(** What [main] leaves, in terms of the files it processed. *)
Lemma main_closed force w dir :
  log_directory w = Some dir ->
  let done := calls (main force w) in
  let s := fold_left (ingest dir) done
             (connect_db (db_file w),
              get_redis_connection (redis_server w)) in
  db_file (final (main force w)) = Some (fst s)
  /\ redis_server (final (main force w))
     = match snd s with
       | Some r => RedisUp r
       | None => redis_server w
       end
  /\ summary (main force w)
     = Some (list_sum (map (fun f => count_of (open_file dir f)) done))
  /\ tracker (final (main force w))
     = TrackerList
         ((if force then [] else load_parsed_files (tracker w))
          ++ filter (has_entries dir) done)
  /\ log_directory (final (main force w)) = Some dir.
Proof.
  intros Hd. unfold main. rewrite Hd. cbn [final summary calls
    db_file redis_server tracker log_directory].
  unfold main_loop.
  match goal with
  | |- context [fold_left _ _ ?s] =>
      destruct (main_loop_closed force dir (all_logs dir) s)
        as (done & P & C & T & F)
  end.
  simpl in P, C, T, F. rewrite P. cbn zeta.
  rewrite <- C. cbn [fst snd]. rewrite T, F. simpl.
  unfold save_parsed_files. auto.
Qed.

Lemma main_without_directory force w :
  log_directory w = None ->
  main force w
  = {| final := {| log_directory := None; tracker := tracker w;
                   db_file := Some (connect_db (db_file w));
                   redis_server := redis_server w |};
       summary := None;
       calls := [] |}.
Proof. intros H. unfold main. now rewrite H. Qed.

Lemma ingest_unfold dir db rc f :
  ingest dir (db, rc) f
  = (snd (fst (process_log_file (open_file dir f) db rc)),
     snd (process_log_file (open_file dir f) db rc)).
Proof. reflexivity. Qed.

(** What the store and the queue are after a sequence of calls. *)
Lemma ingest_fold dir done : forall db rc,
  (exists added,
      logs (fst (fold_left (ingest dir) done (db, rc))) = logs db ++ added
      /\ List.length added
         <= list_sum (map (fun f => count_of (open_file dir f)) done))
  /\ meta (fst (fold_left (ingest dir) done (db, rc))) = meta db
  /\ (unique_hashes (logs db) ->
      unique_hashes (logs (fst (fold_left (ingest dir) done (db, rc)))))
  /\ (Forall fingerprinted (logs db) ->
      Forall fingerprinted
        (logs (fst (fold_left (ingest dir) done (db, rc)))))
  /\ (rc = None -> snd (fold_left (ingest dir) done (db, rc)) = None)
  /\ (forall r, rc = Some r ->
        exists r' sent,
          snd (fold_left (ingest dir) done (db, rc)) = Some r'
          /\ queue r' = queue r ++ sent
          /\ List.length sent
             <= list_sum (map (fun f => count_of (open_file dir f)) done)
          /\ (faults r = [] ->
              faults r' = []
              /\ List.length sent
                 = list_sum (map (fun f => count_of (open_file dir f))
                                 done))).
Proof.
  induction done as [|f done IH]; intros db rc; cbn [fold_left].
  - split; [exists []; rewrite app_nil_r; simpl; auto|].
    repeat split; auto.
    intros r ->. exists r, []. rewrite app_nil_r. simpl. auto.
  - rewrite ingest_unfold.
    destruct (process_log_file_extends (open_file dir f) db rc)
      as (added0 & E0 & M0 & _ & L0).
    pose proof (process_log_file_unique (open_file dir f) db rc) as U0.
    pose proof (process_log_file_fingerprinted (open_file dir f) db rc)
      as F0.
    pose proof (process_log_file_no_queue (open_file dir f) db) as N0.
    pose proof (process_log_file_queue (open_file dir f) db) as Q0.
    set (db1 := snd (fst (process_log_file (open_file dir f) db rc))) in *.
    destruct (IH db1 (snd (process_log_file (open_file dir f) db rc)))
      as ((added & E & L) & M & U & F & N & Q).
    cbn [map]. change (list_sum (?a :: ?l)) with (a + list_sum l).
    split; [|split; [|split; [|split; [|split]]]].
    + exists (added0 ++ added). rewrite E, E0, <- app_assoc.
      split; [reflexivity|]. rewrite length_app. lia.
    + now rewrite M, M0.
    + intros H. now apply U, U0.
    + intros H. now apply F, F0.
    + intros ->. apply N. apply N0.
    + intros r ->.
      destruct (Q0 r) as (r1 & sent1 & S1 & Q1 & L1 & A1).
      destruct (Q r1 S1) as (r' & sent & S & Q2 & L2 & A2).
      exists r', (sent1 ++ sent). rewrite Q2, Q1, <- app_assoc.
      split; [exact S|]. split; [reflexivity|].
      split; [rewrite length_app; lia|].
      intros H. destruct (A1 H) as [F1 E1]. destruct (A2 F1) as [F2 E2].
      split; [exact F2|]. rewrite length_app. lia.
Qed.

Lemma connect_db_rows s : logs (connect_db s) = stored_rows s.
Proof.
  unfold connect_db, stored_rows.
  destruct s as [d|]; simpl; [|reflexivity].
  now destruct (Nat.eqb (List.length (meta d)) 0).
Qed.

Lemma connect_db_meta s : meta (connect_db s) <> [].
Proof.
  unfold connect_db. destruct s as [d|]; simpl; [|discriminate].
  destruct (meta d) eqn:M; simpl; [discriminate|]. rewrite M. discriminate.
Qed.

Lemma connect_db_fixed d : meta d <> [] -> connect_db (Some d) = d.
Proof.
  unfold connect_db. intros H. destruct (meta d); [now contradiction H|].
  reflexivity.
Qed.

Lemma hash_present_extends h rows more :
  hash_present h rows = true -> hash_present h (rows ++ more) = true.
Proof. intros H. now rewrite hash_present_app, H. Qed.

Lemma ingest_fold_keeps dir done db rc h :
  hash_present h (logs db) = true ->
  hash_present h (logs (fst (fold_left (ingest dir) done (db, rc)))) = true.
Proof.
  intros H. destruct (ingest_fold dir done db rc) as ((added & -> & _) & _).
  now apply hash_present_extends.
Qed.

(** The fingerprint of every matching line of a processed file that
    could be read is stored at the end. *)
Lemma ingest_fold_stores dir done : forall db rc f lines line,
  In f done -> open_file dir f = Readable lines ->
  In line lines -> matches_pattern line = true ->
  hash_present (PyStr (fingerprint line))
    (logs (fst (fold_left (ingest dir) done (db, rc)))) = true.
Proof.
  induction done as [|g done IH]; intros db rc f lines line Hf Ho Hl Hm;
    [destruct Hf|].
  cbn [fold_left]. rewrite ingest_unfold. destruct Hf as [->|Hf].
  - apply ingest_fold_keeps. rewrite Ho.
    now apply process_log_file_stores.
  - now apply (IH _ _ f lines line).
Qed.


















Lemma process_log_file_empty lines db rc :
  entries lines = [] -> process_log_file (Readable lines) db rc = (0, db, rc).
Proof. intros H. now rewrite process_log_file_readable, H. Qed.

Lemma process_log_file_nonempty lines db rc :
  entries lines <> [] ->
  process_log_file (Readable lines) db rc
  = (List.length (entries lines),
     executemany db (map row_of (entries lines)),
     match rc with
     | Some r => Some (fst (push_all r (entries lines) 0))
     | None => None
     end).
Proof.
  intros H. rewrite process_log_file_readable.
  destruct (entries lines); [now contradiction H|reflexivity].
Qed.

(* ================================================================== *)
(** * [main] and the content of the tracker *)








(** Whatever the tracker holds, a step appends rows to the table, and
    counts them when it does not fail. *)
Lemma step_any_grows force dir st f :
  exists added,
    logs (v_conn (state_of (step_any force dir st f)))
    = logs (v_conn st) ++ added
    /\ forall st', step_any force dir st f = Running st' ->
                   List.length added + v_total_parsed st
                   <= v_total_parsed st'.
Proof.
  assert (Z : exists added : list log_row,
             logs (v_conn st) = logs (v_conn st) ++ added
             /\ List.length added + v_total_parsed st <= v_total_parsed st).
  { exists []. now rewrite app_nil_r. }
  unfold step_any.
  destruct (contains (v_parsed_files st) f) as [listed|e].
  2:{ destruct Z as (a & E & L). exists a. split; [exact E|].
      intros st' H. discriminate H. }
  destruct (listed && negb force).
  { destruct Z as (a & E & L). exists a. split; [exact E|].
    intros st' H. injection H as <-. exact L. }
  destruct (process_log_file_extends (open_file dir f) (v_conn st)
              (v_redis_conn st)) as (added & E & _ & _ & L).
  pose proof (process_log_file_count (open_file dir f) (v_conn st)
                (v_redis_conn st)) as C.
  destruct (process_log_file (open_file dir f) (v_conn st) (v_redis_conn st))
    as [[n c] r]. cbn [fst snd] in E, C. subst n.
  exists added.
  destruct (Nat.ltb 0 (count_of (open_file dir f))) eqn:P.
  - destruct (append (v_parsed_files st) f) as [p|e]; cbn [state_of v_conn].
    + split; [exact E|]. intros st' H. injection H as <-. simpl. lia.
    + split; [exact E|]. intros st' H. discriminate H.
  - cbn [state_of v_conn]. split; [exact E|].
    intros st' H. injection H as <-. simpl.
    apply Nat.ltb_ge in P. lia.
Qed.

Lemma loop_any_grows force dir l : forall st,
  exists added,
    logs (v_conn (state_of (loop_any force dir l st)))
    = logs (v_conn st) ++ added
    /\ forall st', loop_any force dir l st = Running st' ->
                   List.length added + v_total_parsed st
                   <= v_total_parsed st'.
Proof.
  induction l as [|f l IH]; intros st; simpl.
  - exists []. rewrite app_nil_r. split; [reflexivity|].
    intros st' H. injection H as <-. simpl. lia.
  - destruct (step_any_grows force dir st f) as (a1 & E1 & L1).
    destruct (step_any force dir st f) as [st1|st1 e].
    + destruct (IH st1) as (a2 & E2 & L2). exists (a1 ++ a2).
      cbn [state_of] in E1. rewrite E2, E1, app_assoc.
      split; [reflexivity|]. intros st' H.
      specialize (L1 st1 eq_refl). specialize (L2 st' H).
      rewrite length_app. lia.
    + exists a1. split; [exact E1|]. intros st' H. discriminate H.
Qed.




(* ------------------------------------------------------------------ *)
(** ** Runs of [main] *)





(* ================================================================== *)
(** * The archive, the queue and the run: properties *)

(** X10: the archive only grows: a call of [process_log_file] leaves
    every stored row in its place and appends rows, at most as many as it
    counts entries.  So does a run, whatever the tracker file holds and
    also when an exception ends it: the rows of before stay in their
    places; when the run logs its summary it has appended at most as many
    rows as the summary counts, and a run that stops for want of the log
    directory appends nothing. *)
Theorem archive_is_append_only (force : bool) (h : host) :
  (forall f db rc,
      exists added,
        logs (snd (fst (process_log_file f db rc))) = logs db ++ added
        /\ List.length added <= fst (fst (process_log_file f db rc)))
  /\ exists db' added,
       h_db (after (main_any force h)) = Some db'
       /\ logs db' = stored_rows (h_db h) ++ added
       /\ (forall total,
              logged_total (main_any force h) = Some total ->
              List.length added <= total)
       /\ (h_directory h = None -> added = []).
Proof.
  split.
  - intros f db rc.
    destruct (process_log_file_extends f db rc) as (added & E & _ & _ & L).
    exists added. rewrite process_log_file_count. auto.
  - unfold main_any. destruct (h_directory h) as [dir|].
    + match goal with
      | |- context [loop_any force dir (all_logs dir) ?v] =>
          destruct (loop_any_grows force dir (all_logs dir) v)
            as (added & E & L);
          destruct (loop_any force dir (all_logs dir) v) as [st|st e]
      end; cbn [state_of v_conn v_total_parsed] in E, L;
        rewrite connect_db_rows in E;
        exists (v_conn st), added; cbn [after h_db logged_total];
        (split; [reflexivity|]); (split; [exact E|]);
        (split; [|discriminate]).
      * intros total H. injection H as <-.
        specialize (L st eq_refl). lia.
      * intros total H. discriminate H.
    + eexists. exists []. cbn [after h_db logged_total].
      split; [reflexivity|]. rewrite connect_db_rows, app_nil_r.
      repeat split. intros total H. discriminate H.
Qed.

(** X11: the insert keeps the fingerprints of the table pairwise
    different: when no two stored rows share a fingerprint, none do after
    an insert, after a call of [process_log_file], or after a run. *)
Theorem archive_keeps_fingerprints_unique (force : bool) (w : world) :
  (forall rows r,
      unique_hashes rows -> unique_hashes (insert_or_ignore rows r))
  /\ (forall f db rc,
         unique_hashes (logs db) ->
         unique_hashes (logs (snd (fst (process_log_file f db rc)))))
  /\ (unique_hashes (stored_rows (db_file w)) ->
      forall db',
        db_file (final (main force w)) = Some db' ->
        unique_hashes (logs db')).
Proof.
  split; [exact insert_or_ignore_unique|].
  split; [exact process_log_file_unique|].
  intros U db' D. rewrite <- connect_db_rows in U.
  destruct (log_directory w) as [dir|] eqn:Hd.
  - destruct (main_closed force w dir Hd) as (D' & _).
    rewrite D' in D. injection D as <-.
    now apply ingest_fold.
  - rewrite (main_without_directory force w Hd) in D. simpl in D.
    now injection D as <-.
Qed.

(** X12: every line that matches is archived: after a call on a file
    that could be read, and at the end of a run for every file the run
    processed, a row with the fingerprint of the line is in the table. *)
Theorem every_matching_line_is_archived
  (force : bool) (w : world) (dir : directory) :
  (forall lines db rc line,
      In line lines -> matches_pattern line = true ->
      hash_present (PyStr (fingerprint line))
        (logs (snd (fst (process_log_file (Readable lines) db rc)))) = true)
  /\ (log_directory w = Some dir ->
      forall f lines line,
        In f (calls (main force w)) ->
        open_file dir f = Readable lines ->
        In line lines -> matches_pattern line = true ->
        exists db',
          db_file (final (main force w)) = Some db'
          /\ hash_present (PyStr (fingerprint line)) (logs db') = true).
Proof.
  split; [exact process_log_file_stores|].
  intros Hd f lines line Hf Ho Hl Hm.
  destruct (main_closed force w dir Hd) as (D & _).
  eexists. split; [exact D|].
  now apply (ingest_fold_stores dir _ _ _ f lines line).
Qed.

(** X13: the fingerprint of every archived row is the hash of its raw
    message: rows for which this holds are all a call or a run adds. *)
Theorem archived_rows_carry_the_hash_of_their_message
  (force : bool) (w : world) :
  (forall f db rc,
      Forall fingerprinted (logs db) ->
      Forall fingerprinted (logs (snd (fst (process_log_file f db rc)))))
  /\ (Forall fingerprinted (stored_rows (db_file w)) ->
      forall db',
        db_file (final (main force w)) = Some db' ->
        Forall fingerprinted (logs db')).
Proof.
  split; [exact process_log_file_fingerprinted|].
  intros U db' D. rewrite <- connect_db_rows in U.
  destruct (log_directory w) as [dir|] eqn:Hd.
  - destruct (main_closed force w dir Hd) as (D' & _).
    rewrite D' in D. injection D as <-.
    now apply ingest_fold.
  - rewrite (main_without_directory force w Hd) in D. simpl in D.
    now injection D as <-.
Qed.

(** X14: the schema version is recorded once: a run leaves a database
    whose version table holds the one row 1.0 when it was absent or
    empty before, and is the table of before otherwise, whatever it
    holds; opening the database again adds nothing. *)
Theorem schema_version_is_recorded_once (force : bool) (w : world) :
  exists db',
    db_file (final (main force w)) = Some db'
    /\ meta db'
       = match db_file w with
         | Some d =>
             match meta d with
             | [] => [SCHEMA_VERSION]
             | _ :: _ => meta d
             end
         | None => [SCHEMA_VERSION]
         end
    /\ connect_db (Some db') = db'.
Proof.
  assert (M : meta (connect_db (db_file w))
              = match db_file w with
                | Some d =>
                    match meta d with
                    | [] => [SCHEMA_VERSION]
                    | _ :: _ => meta d
                    end
                | None => [SCHEMA_VERSION]
                end).
  { unfold connect_db. destruct (db_file w) as [d|]; [|reflexivity].
    destruct (meta d) eqn:E; simpl; [reflexivity|]. now rewrite E. }
  destruct (log_directory w) as [dir|] eqn:Hd.
  - destruct (main_closed force w dir Hd) as (D & _).
    destruct (ingest_fold dir (calls (main force w))
                (connect_db (db_file w))
                (get_redis_connection (redis_server w)))
      as (_ & E & _).
    eexists. split; [exact D|]. rewrite E. split; [exact M|].
    apply connect_db_fixed. rewrite E. apply connect_db_meta.
  - rewrite (main_without_directory force w Hd). simpl.
    eexists. split; [reflexivity|]. split; [exact M|].
    apply connect_db_fixed, connect_db_meta.
Qed.

(** X15: the push loop appends the payloads of the entries whose push
    did not fail, in the order of the file; a failed push loses that
    entry only, and the pushed count is the number of payloads appended.
    Without failures every entry is appended. *)
Theorem push_loop_appends_in_order (r : redis) (es : list dict) :
  queue (fst (push_all r es 0))
  = queue r ++ map Json.dumps (delivered es (faults r))
  /\ snd (push_all r es 0) = List.length (delivered es (faults r))
  /\ List.length (delivered es (faults r)) <= List.length es
  /\ (faults r = [] -> delivered es (faults r) = es)
  /\ faults (fst (push_all r es 0)) = skipn (List.length es) (faults r).
Proof.
  destruct (push_all_delivered es r 0) as (Q & C & F).
  repeat split; auto using delivered_length.
  intros ->. apply delivered_no_faults.
Qed.



(** X17: the fingerprint protects the archive, not the queue: a second
    call on the same file adds no row and reports the same count, and
    appends every payload to the queue once more. *)
Theorem reingest_repeats_the_queue_not_the_archive
  (lines : list str) (db : database) (r : redis) :
  faults r = [] ->
  let first := process_log_file (Readable lines) db (Some r) in
  let second :=
    process_log_file (Readable lines) (snd (fst first)) (snd first) in
  snd (fst second) = snd (fst first)
  /\ fst (fst second) = fst (fst first)
  /\ connection_queue (snd second)
     = queue r ++ map Json.dumps (entries lines)
       ++ map Json.dumps (entries lines).
Proof.
  intros F. cbv zeta.
  assert (D : entries lines = [] \/ entries lines <> [])
    by (destruct (entries lines); [left|right]; congruence).
  destruct D as [En|En].
  - rewrite !(process_log_file_empty lines _ _ En). cbn [fst snd].
    rewrite ?(process_log_file_empty lines _ _ En). simpl.
    now rewrite En, app_nil_r.
  - rewrite !(process_log_file_nonempty lines _ _ En). cbn [fst snd].
    rewrite ?(process_log_file_nonempty lines _ _ En).
    cbn [fst snd connection_queue].
    destruct (push_all_delivered (entries lines) r 0) as (Q1 & _ & F1).
    rewrite F, delivered_no_faults in Q1. rewrite F, skipn_nil in F1.
    destruct (push_all_delivered (entries lines)
                (fst (push_all r (entries lines) 0)) 0) as (Q2 & _ & _).
    rewrite F1, delivered_no_faults, Q1 in Q2.
    rewrite Q2, <- app_assoc. repeat split.
    unfold executemany. cbn [meta logs]. f_equal.
    apply executemany_nothing_new. intros x Hx.
    now apply executemany_stores; [apply batch_hashed|].
Qed.

Lemma reingest_repeats_the_queue_not_the_archive_witness :
  faults idle_redis = []
  /\ (let first :=
        process_log_file (Readable [example_line]) empty_db (Some idle_redis) in
      let second :=
        process_log_file (Readable [example_line])
          (snd (fst first)) (snd first) in
      snd (fst second) = snd (fst first)
      /\ fst (fst second) = fst (fst first)
      /\ connection_queue (snd second)
         = queue idle_redis ++ map Json.dumps (entries [example_line])
           ++ map Json.dumps (entries [example_line])).
Proof.
  split; [reflexivity|].
  exact (reingest_repeats_the_queue_not_the_archive
           [example_line] empty_db idle_redis eq_refl).
Defined.







(* ================================================================== *)
(** * Reading a payload back *)

Section JsonReadBack.

Import JsonRead.

Lemma unhex_hex n : (n < 16)%N -> unhex (Json.hex n) = Some n.
Proof.
  intros H. rewrite <- (N2Nat.id n) in *.
  assert (K : N.to_nat n < 16) by lia. clear H.
  revert K. generalize (N.to_nat n). intros k K.
  do 16 (destruct k as [|k]; [reflexivity|]). lia.
Qed.

(** An escaped character is read back as the character. *)
Lemma string_text_escape a t :
  string_text (Json.escape_char a ++ t)
  = match string_text t with
    | Some (w, rest) => Some (a :: w, rest)
    | None => None
    end.
Proof.
  unfold Json.escape_char.
  destruct (N.eqb a Chars.dquote) eqn:Eq;
    [apply N.eqb_eq in Eq; subst a; cbn;
     destruct (string_text t) as [[w rest]|]; reflexivity|].
  destruct (N.eqb a Chars.backslash) eqn:Eb;
    [apply N.eqb_eq in Eb; subst a; cbn;
     destruct (string_text t) as [[w rest]|]; reflexivity|].
  do 5 (match goal with
        | |- context [if (a =? ?n)%N then _ else _] =>
            let E := fresh "E" in
            destruct (a =? n)%N eqn:E;
            [apply N.eqb_eq in E; subst a; cbn;
             destruct (string_text t) as [[w rest]|]; reflexivity|]
        end).
  destruct (a <? 32)%N eqn:Lt.
  - apply N.ltb_lt in Lt. cbn [app string_text].
    change (N.eqb Chars.backslash Chars.dquote) with false.
    change (N.eqb Chars.backslash Chars.backslash) with true.
    change (N.eqb (char_of "u") (char_of "u")) with true.
    cbv iota.
    change (unhex (char_of "0")) with (Some 0%N).
    assert (B1 : (a / 16 < 16)%N)
      by (apply N.Div0.div_lt_upper_bound; lia).
    assert (B2 : (a mod 16 < 16)%N) by (apply N.mod_lt; lia).
    rewrite (unhex_hex _ B1), (unhex_hex _ B2).
    replace (((0 * 16 + 0) * 16 + a / 16) * 16 + a mod 16)%N with a
      by (rewrite (N.div_mod a 16) at 1; lia).
    destruct (string_text t) as [[w rest]|]; reflexivity.
  - cbn [app string_text]. rewrite Eq, Eb, Lt.
    destruct (string_text t) as [[w rest]|]; reflexivity.
Qed.

Lemma string_text_escaped l rest :
  string_text (flat_map Json.escape_char l ++ Chars.dquote :: rest)
  = Some (l, rest).
Proof.
  induction l as [|a l IH]; [reflexivity|].
  simpl flat_map. rewrite <- app_assoc, string_text_escape, IH.
  reflexivity.
Qed.

Lemma value_decoded v rest :
  value (Json.value v ++ rest) = Some (v, rest).
Proof.
  destruct v as [s|]; [|reflexivity].
  unfold Json.value, Json.quote. cbn [app value].
  change (N.eqb Chars.dquote Chars.dquote) with true. cbv iota.
  rewrite <- app_assoc. cbn [app].
  now rewrite string_text_escaped.
Qed.

(** The name of a member is read back. *)
Lemma name_of_codepoints k : name_of (codepoints k) = Some k.
Proof.
  unfold name_of, codepoints.
  assert (B : forallb (fun c => (c <? 256)%N)
                (map char_of (list_ascii_of_string k)) = true).
  { apply forallb_forall. intros c Hc. apply in_map_iff in Hc.
    destruct Hc as (a & <- & _). apply N.ltb_lt, N_ascii_bounded. }
  rewrite B, map_map. f_equal.
  rewrite (map_ext _ (fun a => a)) by apply ascii_N_embedding.
  rewrite map_id. apply string_of_list_ascii_of_string.
Qed.

Lemma members_decode_step fuel key s1 s2 s3 v s4 :
  string_text s1 = Some (codepoints key, s2) ->
  JsonScan.skip (codepoints ": ") s2 = Some s3 ->
  value s3 = Some (v, s4) ->
  members (S fuel) (Chars.dquote :: s1)
  = match JsonScan.after_member s4 with
    | Some None => Some [(key, v)]
    | Some (Some s5) => option_map (cons (key, v)) (members fuel s5)
    | None => None
    end.
Proof.
  intros H1 H2 H3. cbn [members].
  change (N.eqb Chars.dquote Chars.dquote) with true. cbv iota.
  rewrite H1, name_of_codepoints, H2, H3. reflexivity.
Qed.

Lemma members_decoded d :
  d <> [] ->
  forall fuel, List.length d <= fuel ->
  members fuel (Json.members d ++ [char_of "}"]) = Some d.
Proof.
  induction d as [|kv d IH]; intros Hd fuel Hf; [now contradiction Hd|].
  destruct fuel as [|fuel]; [simpl in Hf; lia|].
  destruct kv as [k v].
  destruct d as [|kv2 d].
  - simpl Json.members.
    destruct (member_read_back (k, v) [char_of "}"]) as (s3 & -> & Hs).
    cbn [fst snd] in Hs |- *.
    rewrite (members_decode_step fuel k _ _ _ _ _
               (string_text_escaped _ _) Hs (value_decoded _ _)).
    reflexivity.
  - change (Json.members ((k, v) :: kv2 :: d))
      with (Json.member (k, v) ++ codepoints ", "
            ++ Json.members (kv2 :: d)).
    rewrite <- !app_assoc.
    destruct (member_read_back (k, v)
                (codepoints ", "
                 ++ Json.members (kv2 :: d) ++ [char_of "}"]))
      as (s3 & -> & Hs).
    cbn [fst snd] in Hs |- *.
    rewrite (members_decode_step fuel k _ _ _ _ _
               (string_text_escaped _ _) Hs (value_decoded _ _)).
    rewrite after_member_comma.
    rewrite IH; [reflexivity|discriminate|simpl in *; lia].
Qed.

(** Reading back what [json.dumps] wrote gives the dict. *)
Lemma loads_object_dumps d : loads_object (Json.dumps d) = Some d.
Proof.
  destruct d as [|kv d]; [reflexivity|].
  unfold loads_object, Json.dumps.
  assert (E : exists t, Json.members (kv :: d) = Chars.dquote :: t).
  { destruct d as [|kv2 d];
      eexists; simpl; unfold Json.member, Json.quote; simpl; reflexivity. }
  destruct E as (t & E).
  pose proof (members_decoded (kv :: d) ltac:(discriminate)
                (List.length (Json.members (kv :: d) ++ [char_of "}"])))
    as H.
  pose proof (members_length (kv :: d)) as L.
  rewrite E in H, L |- *. simpl app in *.
  change (N.eqb (char_of "{") (char_of "{")) with true. cbv iota.
  assert (Hlen : List.length (kv :: d)
                 <= List.length (Chars.dquote :: t ++ [char_of "}"])).
  { simpl in L |- *. rewrite length_app. simpl. lia. }
  specialize (H Hlen). clear Hlen.
  destruct t as [|y t]; exact H.
Qed.

End JsonReadBack.

Lemma loads_payload_dumps d : loads_payload (Json.dumps d) = Ok (to_json d).
Proof. unfold loads_payload. now rewrite loads_object_dumps. Qed.

(** X21: a payload loses nothing of the entry: the text written for a
    dict of strings can be read back, member by member and escape by
    escape, to the same dict, so that two entries with the same payload
    are the same entry. *)
Theorem payload_reads_back_to_the_entry (d1 d2 : dict) :
  JsonRead.loads_object (Json.dumps d1) = Some d1
  /\ (Json.dumps d1 = Json.dumps d2 -> d1 = d2).
Proof.
  split; [apply loads_object_dumps|].
  intros H. apply (f_equal JsonRead.loads_object) in H.
  rewrite !loads_object_dumps in H. now injection H.
Qed.

(* ================================================================== *)
(** * The consumer and the payloads of the archiver *)

Lemma delivered_incl es : forall fs, incl (delivered es fs) es.
Proof.
  induction es as [|e es IH]; intros [|[] fs]; simpl;
    auto using incl_nil_l, incl_refl, incl_tl.
  apply incl_cons; [now left|]. apply incl_tl, IH.
Qed.

Lemma dumps_truthy d : Consumer.truthy (Json.dumps d) = true.
Proof. reflexivity. Qed.

(** An entry of the parsed list: nine members, all strings. *)
Lemma entries_strings lines e :
  In e (entries lines) ->
  exists ts lv comp act lt un ip raw h,
    e = [("timestamp", PyStr ts); ("log_level", PyStr lv);
         ("component", PyStr comp); ("action", PyStr act);
         ("license_type", PyStr lt); ("user_name", PyStr un);
         ("client_ip", PyStr ip); ("raw_message", PyStr raw);
         ("raw_hash", PyStr h)].
Proof.
  intros H. apply entries_shape in H. destruct H as (line & _ & H).
  rewrite entry_of_matching in H.
  destruct (parse_log_line line) as [e0|] eqn:E; [|destruct H].
  destruct H as [<-|[]].
  destruct (parse_log_line_strings _ _ E)
    as (ts & lv & comp & act & lt & un & ip & ->).
  do 9 eexists. reflexivity.
Qed.

Section ConsumerFacts.

Import Consumer.

Lemma iteration_of_entry loads key e ts lv comp act lt un ip raw h :
  e = [("timestamp", PyStr ts); ("log_level", PyStr lv);
       ("component", PyStr comp); ("action", PyStr act);
       ("license_type", PyStr lt); ("user_name", PyStr un);
       ("client_ip", PyStr ip); ("raw_message", PyStr raw);
       ("raw_hash", PyStr h)] ->
  loads (Json.dumps e) = Ok (to_json e) ->
  iteration loads (Returned (Some (key, Json.dumps e)))
  = (Listening, [LogProcessing (JString lt) (JString un) (JString act)]).
Proof.
  intros He Hl. unfold iteration, try_body.
  rewrite dumps_truthy, Hl. subst e. reflexivity.
Qed.

Lemma iteration_stopped loads p :
  fst (iteration loads p) = Stopped <-> interrupts loads p.
Proof.
  unfold iteration, interrupts.
  destruct (try_body loads p) as [effects|[]]; simpl;
    split; intros H; congruence.
Qed.

Lemma iteration_backoff loads p :
  fst (iteration loads p) = Backoff <->
  exists e, try_body loads p = Raise e /\ is_Exception e = true.
Proof.
  unfold iteration.
  destruct (try_body loads p) as [effects|e]; simpl.
  - split; [discriminate|]. intros (e & H & _). discriminate H.
  - split.
    + intros H. exists e. split; [reflexivity|].
      destruct e; try reflexivity. discriminate H.
    + intros (e' & H & He). injection H as <-.
      destruct e; try reflexivity. discriminate He.
Qed.

Lemma iteration_not_aborted loads p : fst (iteration loads p) <> Aborted.
Proof.
  unfold iteration. destruct (try_body loads p) as [effects|[]];
    discriminate.
Qed.

Lemma iteration_interrupt loads p :
  interrupts loads p -> iteration loads p = (Stopped, [LogShutdown]).
Proof. unfold iteration, interrupts. now intros ->. Qed.

(** The step of an iteration that no interrupt reaches. *)
Lemma step_undisturbed loads pi :
  ~ stops_in_try loads pi -> ~ dies_in_handler loads pi ->
  step loads (fst pi) (snd pi) = iteration loads (fst pi).
Proof.
  intros N H. unfold step.
  destruct (snd pi) eqn:I; [reflexivity| |].
  - exfalso. apply N. now left.
  - destruct (try_body loads (fst pi)) as [effects|e] eqn:E; [reflexivity|].
    destruct (is_Exception e) eqn:X; [|reflexivity].
    exfalso. apply H. split; [exact I|].
    apply iteration_backoff. eauto.
Qed.

(** The step of an iteration that the interrupt reaches in its [try]. *)
Lemma step_stops loads pi :
  stops_in_try loads pi ->
  step loads (fst pi) (snd pi) = (Stopped, [LogShutdown]).
Proof.
  intros [I|H]; unfold step.
  - now rewrite I.
  - rewrite (iteration_interrupt loads (fst pi) H).
    unfold interrupts in H. rewrite H.
    now destruct (snd pi).
Qed.

(** The step of an iteration in whose handler the interrupt arrives. *)
Lemma step_dies loads pi :
  dies_in_handler loads pi ->
  exists e,
    try_body loads (fst pi) = Raise e /\ is_Exception e = true
    /\ step loads (fst pi) (snd pi) = (Aborted, [LogError e]).
Proof.
  intros [I B]. apply iteration_backoff in B.
  destruct B as (e & E & X). exists e. split; [exact E|].
  split; [exact X|]. unfold step. now rewrite I, E, X.
Qed.

Lemma main_cons loads pi pops :
  main loads (pi :: pops)
  = match fst (step loads (fst pi) (snd pi)) with
    | Stopped | Aborted => [step loads (fst pi) (snd pi)]
    | _ => step loads (fst pi) (snd pi) :: main loads pops
    end.
Proof. destruct pi as [p i]. reflexivity. Qed.

(** As long as no interrupt arrives, every pop gets its iteration. *)
Lemma main_app loads before rest :
  (forall pi, In pi before ->
              ~ stops_in_try loads pi /\ ~ dies_in_handler loads pi) ->
  main loads (before ++ rest)
  = map (fun pi => iteration loads (fst pi)) before ++ main loads rest.
Proof.
  induction before as [|pi before IH]; intros H; [reflexivity|].
  destruct (H pi (or_introl eq_refl)) as [N D].
  simpl app. rewrite main_cons, (step_undisturbed loads pi N D).
  rewrite IH by (intros x Hx; apply H; now right).
  pose proof (iteration_not_aborted loads (fst pi)) as A.
  destruct (fst (iteration loads (fst pi))) eqn:F; try reflexivity.
  - exfalso. apply N. right. apply iteration_stopped. exact F.
  - now contradiction A.
Qed.

Lemma main_undisturbed loads pops :
  (forall pi, In pi pops ->
              ~ stops_in_try loads pi /\ ~ dies_in_handler loads pi) ->
  main loads pops = map (fun pi => iteration loads (fst pi)) pops.
Proof.
  intros H. rewrite <- (app_nil_r pops) at 1.
  rewrite (main_app loads pops [] H). apply app_nil_r.
Qed.

(** An iteration that nothing stops logs no shutdown. *)
Lemma iteration_no_shutdown loads p :
  ~ interrupts loads p -> ~ In LogShutdown (snd (iteration loads p)).
Proof.
  intros N. unfold interrupts in N. unfold iteration.
  destruct (try_body loads p) as [effects|e] eqn:T.
  - cbn [snd]. intros L.
    destruct p as [[[k data]|]|x0]; simpl in T; try discriminate T.
    destruct (truthy data).
    + destruct (loads data) as [ev|]; simpl in T; [|discriminate T].
      unfold process_event in T.
      destruct (subscript ev "license_type"); simpl in T; [|discriminate T].
      destruct (subscript ev "user_name"); simpl in T; [|discriminate T].
      destruct (subscript ev "action"); simpl in T; [|discriminate T].
      injection T as <-. destruct L as [L|[]]. discriminate L.
    + injection T as <-. destruct L as [L|[]]. discriminate L.
  - destruct e; cbn [snd]; try (intros [L|[L|[]]]; discriminate L).
    now contradiction N.
Qed.

End ConsumerFacts.

(** X22: what the archiver publishes, the consumer processes: for a
    decoder that returns the dict a payload was written from, every
    payload a call of [process_log_file] appends to the queue is the text
    of an entry of the file, and the consumer handles it without error,
    logging the license type, the user name and the action of the entry,
    and goes back to listening. *)
Theorem consumer_processes_what_the_archiver_publishes
  (loads : str -> result Consumer.json) (lines : list str)
  (db : database) (r : redis) (key : str) :
  (forall e, In e (entries lines) -> loads (Json.dumps e) = Ok (to_json e)) ->
  exists sent,
    queue_after (Readable lines) db r = queue r ++ map Json.dumps sent
    /\ incl sent (entries lines)
    /\ Forall
         (fun e =>
            exists lt un act,
              dict_get e "license_type" = Some (PyStr lt)
              /\ dict_get e "user_name" = Some (PyStr un)
              /\ dict_get e "action" = Some (PyStr act)
              /\ Consumer.iteration loads
                   (Consumer.Returned (Some (key, Json.dumps e)))
                 = (Consumer.Listening,
                    [Consumer.LogProcessing
                       (Consumer.JString lt) (Consumer.JString un)
                       (Consumer.JString act)]))
         sent.
Proof.
  intros Hl.
  assert (D : entries lines = [] \/ entries lines <> [])
    by (destruct (entries lines); [left|right]; congruence).
  unfold queue_after. destruct D as [En|En].
  - rewrite (process_log_file_empty lines _ _ En). cbn [snd].
    exists []. simpl. rewrite app_nil_r. auto using incl_nil_l.
  - rewrite (process_log_file_nonempty lines _ _ En). cbn [snd].
    destruct (push_all_delivered (entries lines) r 0) as (Q & _).
    exists (delivered (entries lines) (faults r)).
    split; [exact Q|]. split; [apply delivered_incl|].
    apply Forall_forall. intros e He. apply delivered_incl in He.
    destruct (entries_strings _ _ He)
      as (ts & lv & comp & act & lt & un & ip & raw & h & E).
    exists lt, un, act.
    rewrite (iteration_of_entry loads key e ts lv comp act lt un ip raw h E
               (Hl e He)).
    subst e. repeat split.
Qed.

Lemma consumer_processes_what_the_archiver_publishes_witness :
  (forall e, In e (entries [example_line]) ->
             loads_payload (Json.dumps e) = Ok (to_json e))
  /\ exists sent,
       queue_after (Readable [example_line]) empty_db idle_redis
       = queue idle_redis ++ map Json.dumps sent
       /\ incl sent (entries [example_line])
       /\ Forall
            (fun e =>
               exists lt un act,
                 dict_get e "license_type" = Some (PyStr lt)
                 /\ dict_get e "user_name" = Some (PyStr un)
                 /\ dict_get e "action" = Some (PyStr act)
                 /\ Consumer.iteration loads_payload
                      (Consumer.Returned
                         (Some (codepoints "license_log_queue", Json.dumps e)))
                    = (Consumer.Listening,
                       [Consumer.LogProcessing
                          (Consumer.JString lt) (Consumer.JString un)
                          (Consumer.JString act)]))
            sent.
Proof.
  split; [intros e _; apply loads_payload_dumps|].
  apply (consumer_processes_what_the_archiver_publishes
           loads_payload [example_line] empty_db idle_redis
           (codepoints "license_log_queue")).
  intros e _. apply loads_payload_dumps.
Defined.

(** X23: how the consumer handles a payload that is not empty: a text
    that does not decode, a value that is not an object and an object
    without one of the fields license_type, user_name and action end the
    iteration in the handler with the pause of 5; any object with the
    three fields is logged, whatever else it holds and whatever the
    values are. *)
Theorem consumer_handles_a_payload
  (loads : str -> result Consumer.json) (key data : str) :
  Consumer.truthy data = true ->
  Consumer.iteration loads (Consumer.Returned (Some (key, data)))
  = match loads data with
    | Raise KeyboardInterrupt => (Consumer.Stopped, [Consumer.LogShutdown])
    | Raise x =>
        (Consumer.Backoff, [Consumer.LogError x; Consumer.Sleep 5])
    | Ok (Consumer.JObject m) =>
        match Consumer.lookup m "license_type",
              Consumer.lookup m "user_name",
              Consumer.lookup m "action" with
        | Some lt, Some un, Some act =>
            (Consumer.Listening, [Consumer.LogProcessing lt un act])
        | _, _, _ =>
            (Consumer.Backoff,
             [Consumer.LogError KeyError; Consumer.Sleep 5])
        end
    | Ok _ =>
        (Consumer.Backoff, [Consumer.LogError TypeError; Consumer.Sleep 5])
    end.
Proof.
  intros Ht. unfold Consumer.iteration, Consumer.try_body. rewrite Ht.
  destruct (loads data) as [[| | | | |m]|[]]; try reflexivity.
  unfold Consumer.process_event, Consumer.subscript. cbn [bind].
  destruct (Consumer.lookup m "license_type"); cbn [bind];
    destruct (Consumer.lookup m "user_name"); cbn [bind];
    destruct (Consumer.lookup m "action"); reflexivity.
Qed.

Lemma consumer_handles_a_payload_witness :
  Consumer.truthy (codepoints "[]") = true
  /\ Consumer.iteration (fun _ => Ok (Consumer.JArray []))
       (Consumer.Returned
          (Some (codepoints "license_log_queue", codepoints "[]")))
     = (Consumer.Backoff, [Consumer.LogError TypeError; Consumer.Sleep 5]).
Proof.
  split; [reflexivity|].
  exact (consumer_handles_a_payload (fun _ => Ok (Consumer.JArray []))
           (codepoints "license_log_queue") (codepoints "[]") eq_refl).
Defined.

(** X24: what stops the consumer.  As long as no interrupt arrives, in
    the pop, the decoding, the processing or a pause, every result of the
    pop gets its iteration, errors included, and the loop goes on.  An
    interrupt that arrives inside the [try] block makes the consumer log
    the shutdown and leave the loop.  The handler of an error, with its
    pause of 5, is outside the [try]: an interrupt that arrives there is
    caught by nothing, and the consumer ends after the error log, without
    the shutdown log.  In both cases what follows is not popped. *)
Theorem consumer_stops_only_on_interrupt
  (loads : str -> result Consumer.json) :
  (forall pops,
      (forall pi, In pi pops ->
                  ~ stops_in_try loads pi /\ ~ dies_in_handler loads pi) ->
      Consumer.main loads pops
      = map (fun pi => Consumer.iteration loads (fst pi)) pops
      /\ Forall (fun it => fst it <> Consumer.Stopped
                           /\ fst it <> Consumer.Aborted)
                (Consumer.main loads pops))
  /\ (forall before pi after,
         (forall x, In x before ->
                    ~ stops_in_try loads x /\ ~ dies_in_handler loads x) ->
         stops_in_try loads pi ->
         Consumer.main loads (before ++ pi :: after)
         = map (fun x => Consumer.iteration loads (fst x)) before
           ++ [(Consumer.Stopped, [Consumer.LogShutdown])])
  /\ (forall before pi after,
         (forall x, In x before ->
                    ~ stops_in_try loads x /\ ~ dies_in_handler loads x) ->
         dies_in_handler loads pi ->
         exists e,
           Consumer.try_body loads (fst pi) = Raise e
           /\ is_Exception e = true
           /\ Consumer.main loads (before ++ pi :: after)
              = map (fun x => Consumer.iteration loads (fst x)) before
                ++ [(Consumer.Aborted, [Consumer.LogError e])]
           /\ Forall (fun it => ~ In Consumer.LogShutdown (snd it))
                     (Consumer.main loads (before ++ pi :: after)))
  /\ Consumer.main loads_nothing
       [(Consumer.Returned None, Consumer.Never);
        (Consumer.Returned None, Consumer.InHandler);
        (Consumer.Raised KeyboardInterrupt, Consumer.Never)]
     = [(Consumer.Backoff, [Consumer.LogError TypeError; Consumer.Sleep 5]);
        (Consumer.Aborted, [Consumer.LogError TypeError])]
  /\ Consumer.main loads_nothing
       [(Consumer.Returned None, Consumer.Never);
        (Consumer.Returned (Some ([], [])), Consumer.InTry);
        (Consumer.Returned None, Consumer.Never)]
     = [(Consumer.Backoff, [Consumer.LogError TypeError; Consumer.Sleep 5]);
        (Consumer.Stopped, [Consumer.LogShutdown])].
Proof.
  split; [|split; [|split; [|split]]].
  - intros pops H. rewrite (main_undisturbed loads pops H).
    split; [reflexivity|]. apply Forall_forall. intros it Hit.
    apply in_map_iff in Hit. destruct Hit as (pi & <- & Hpi).
    destruct (H pi Hpi) as [N _]. split.
    + intros C. apply N. right. now apply iteration_stopped.
    + apply iteration_not_aborted.
  - intros before pi after H Hp.
    rewrite (main_app loads before _ H), main_cons.
    now rewrite (step_stops loads pi Hp).
  - intros before pi after H Hp.
    destruct (step_dies loads pi Hp) as (e & E & X & S).
    exists e. split; [exact E|]. split; [exact X|].
    rewrite (main_app loads before _ H), main_cons, S. cbn [fst].
    split; [reflexivity|].
    apply Forall_app. split.
    + apply Forall_forall. intros it Hit.
      apply in_map_iff in Hit. destruct Hit as (x & <- & Hx).
      destruct (H x Hx) as [N _]. apply iteration_no_shutdown.
      intros C. apply N. now right.
    + repeat constructor. intros [L|[]]. discriminate L.
  - reflexivity.
  - reflexivity.
Qed.
